(** * Linear shape fitting of the eos Morphable Model library

    A shallow embedding of [include/eos/fitting/linear_shape_fitting.hpp]:
    [fit_shape_to_landmarks_linear_multi], which assembles the matrices of
    the regularised least-squares problem of Aldrian and Smith over any
    number of images and solves its normal equations, and the single-image
    wrapper [fit_shape_to_landmarks_linear].

    Arithmetic.  The source computes in [float].  The embedding computes in
    the normalised rationals [Qc]: every statement below is a statement
    about the exact-arithmetic reading of the code.  [Qc] has Leibniz
    equality and runs under [vm_compute].

    Failures.  The source has no exceptions.  It has [assert]s (which abort
    the call) and unchecked element accesses (which are undefined behaviour
    out of range).  The embedding makes both explicit as [fault]s and
    records, in the outcome of an aborted call, the matrices as they stood
    when the call stopped. *)

From Stdlib Require Import List Arith Bool Lia ZArith QArith Qcanon Lqa Permutation.
From Stdlib Require String.
Import ListNotations.
Close Scope Qc_scope.
Close Scope Q_scope.

(* ================================================================= *)
(** ** Scalars *)

(** [int] to [float] conversion, as in [lambda *= num_images]. *)
Definition of_nat (n : nat) : Qc := Q2Qc (inject_Z (Z.of_nat n)).

Definition is_zero (a : Qc) : bool := Qeq_bool (this a) 0.

Definition Qc_eqb (a b : Qc) : bool := Qeq_bool (this a) (this b).

(* ================================================================= *)
(** ** Dense vectors and matrices ([Eigen::VectorXf], [Eigen::MatrixXf])

    A vector is the list of its coefficients, a matrix the list of its
    rows.  The number of columns is passed where a matrix without rows
    would not determine it. *)

Section Pointwise.
Context {X Y Z : Type} (f : X -> Y -> Z).

Fixpoint map2 (u : list X) (v : list Y) : list Z :=
  match u, v with
  | a :: u', b :: v' => f a b :: map2 u' v'
  | _, _ => []
  end.
End Pointwise.

(** [VectorXf::Zero(n)], [VectorXf::Ones(n)], [VectorXf::Constant(n, a)]. *)
Definition zeros (n : nat) : list Qc := repeat (Q2Qc 0) n.
Definition ones (n : nat) : list Qc := repeat (Q2Qc 1) n.
Definition constant (n : nat) (a : Qc) : list Qc := repeat a n.

Definition vadd (u v : list Qc) : list Qc := map2 Qcplus u v.
Definition vsub (u v : list Qc) : list Qc := map2 Qcminus u v.
Definition vscale (a : Qc) (v : list Qc) : list Qc := map (Qcmult a) v.
Definition vopp (v : list Qc) : list Qc := map Qcopp v.

Fixpoint dot (u v : list Qc) : Qc :=
  match u, v with
  | a :: u', b :: v' => (a * b + dot u' v')%Qc
  | _, _ => Q2Qc 0
  end.

(** Squared Euclidean norm. *)
Definition norm2 (v : list Qc) : Qc := dot v v.

(** [MatrixXf::Zero(m, n)]. *)
Definition mzeros (m n : nat) : list (list Qc) := repeat (zeros n) m.

(** Matrix times column vector. *)
Definition mvmul (M : list (list Qc)) (v : list Qc) : list Qc :=
  map (fun row => dot row v) M.

(** Row vector times a matrix of [n] columns: the combination of the rows
    of the matrix with the coefficients [z]. *)
Fixpoint lincomb (n : nat) (z : list Qc) (M : list (list Qc)) : list Qc :=
  match z, M with
  | a :: z', row :: M' => vadd (vscale a row) (lincomb n z' M')
  | _, _ => zeros n
  end.

(** Matrix product [X * Y], where [Y] has [n] columns. *)
Definition mmul (n : nat) (X Y : list (list Qc)) : list (list Qc) :=
  map (fun xrow => lincomb n xrow Y) X.

(** Transpose of a matrix with [n] columns. *)
Fixpoint transpose (n : nat) (M : list (list Qc)) : list (list Qc) :=
  match M with
  | [] => repeat [] n
  | row :: M' => map2 cons row (transpose n M')
  end.

(** [M * d.asDiagonal()]: column [j] of [M] scaled by [d(j)]. *)
Definition mul_diag_r (M : list (list Qc)) (d : list Qc) : list (list Qc) :=
  map (fun row => map2 Qcmult row d) M.

Definition madd (X Y : list (list Qc)) : list (list Qc) := map2 vadd X Y.
Definition mscale (a : Qc) (X : list (list Qc)) : list (list Qc) :=
  map (vscale a) X.
Definition mopp (X : list (list Qc)) : list (list Qc) := map vopp X.

(** [MatrixXf::Identity(n, n)]. *)
Fixpoint identity (n : nat) : list (list Qc) :=
  match n with
  | O => []
  | S n' => (Q2Qc 1 :: zeros n') :: map (cons (Q2Qc 0)) (identity n')
  end.

(** A dense diagonal matrix. *)
Fixpoint diag (d : list Qc) : list (list Qc) :=
  match d with
  | [] => []
  | a :: d' => (a :: zeros (length d')) :: map (cons (Q2Qc 0)) (diag d')
  end.

(** [M] is an [m] by [n] matrix. *)
Definition is_matrix (m n : nat) (M : list (list Qc)) : Prop :=
  length M = m /\ Forall (fun row => length row = n) M.

(** Boolean comparison of vectors, to decide equalities of computed
    results. *)
Fixpoint vec_eqb (u v : list Qc) : bool :=
  match u, v with
  | [], [] => true
  | a :: u', b :: v' => Qc_eqb a b && vec_eqb u' v'
  | _, _ => false
  end.

(* ================================================================= *)
(** ** The linear solver

    [AtOmegaAReg.colPivHouseholderQr().solve(rhs)] is a call into Eigen,
    which is not part of the repository.  Eigen's solver never fails: it
    returns a vector with as many coefficients as the matrix has columns.
    In exact arithmetic that vector is the solution of the system whenever
    the matrix is invertible, and for a rank-deficient matrix it is a basic
    solution (the unknowns outside the pivot columns are zero) that solves
    the system whenever the system has a solution at all.

    The embedding uses an exact solver with the same contract: elimination
    of one unknown after the other, an unknown without a pivot being set to
    zero.  On invertible systems the solution is unique, so both solvers
    return the same vector.  On rank-deficient solvable systems both return
    a solution, possibly not the same one since Eigen orders its pivots by
    column norms; the theorems below that cover such systems use only that
    the returned vector solves the system. *)

Abbreviation equation := (list Qc * Qc)%type.

(** First equation with a non-zero leading coefficient, and the others. *)
Fixpoint find_pivot (sys : list equation) : option (equation * list equation) :=
  match sys with
  | [] => None
  | e :: sys' =>
      if is_zero (hd (Q2Qc 0) (fst e)) then
        match find_pivot sys' with
        | Some (p, others) => Some (p, e :: others)
        | None => None
        end
      else Some (e, sys')
  end.

(** Remove the first unknown from [e] with the pivot equation [p]. *)
Definition eliminate (p e : equation) : equation :=
  let f := (hd (Q2Qc 0) (fst e) / hd (Q2Qc 0) (fst p))%Qc in
  (vsub (tl (fst e)) (vscale f (tl (fst p))), (snd e - f * snd p)%Qc).

Definition drop_column (e : equation) : equation := (tl (fst e), snd e).

Fixpoint solve (n : nat) (sys : list equation) : list Qc :=
  match n with
  | O => []
  | S n' =>
      match find_pivot sys with
      | None => Q2Qc 0 :: solve n' (map drop_column sys)
      | Some (p, others) =>
          let xs := solve n' (map (eliminate p) others) in
          ((snd p - dot (tl (fst p)) xs) / hd (Q2Qc 0) (fst p))%Qc :: xs
      end
  end.

Definition colPivHouseholderQr_solve (n : nat) (M : list (list Qc))
    (r : list Qc) : list Qc :=
  solve n (combine M r).

(** [x] satisfies every equation of [sys]. *)
Definition solves (sys : list equation) (x : list Qc) : Prop :=
  Forall (fun e => dot (fst e) x = snd e) sys.

(* ================================================================= *)
(** ** OpenCV matrices and the Morphable Model *)

(** [cv::Mat] of [float]: dimensions and row-major data. *)
Record Mat : Type := { rows : nat; cols : nat; data : list Qc }.

(** [m.at<float>(x, y)]. *)
Definition at_ (m : Mat) (x y : nat) : Qc :=
  nth (x * cols m + y) (data m) (Q2Qc 0).

Definition Mat_row (m : Mat) (x : nat) : list Qc :=
  map (fun y => at_ m x y) (seq 0 (cols m)).

(** [cv::Vec2f]. *)
Abbreviation Vec2f := (Qc * Qc)%type.

(** Modelled from the spec: the class [PcaModel] of
    [eos/morphablemodel/PcaModel.hpp] is not among the sources.  The spec
    (sections 3 and 4.1) gives it a mean vector of length [3V], a rescaled
    basis matrix of [3V] rows and [K] columns, [K] being the number of
    principal components, and a lookup of the three basis rows of a
    vertex. *)
Record PcaModel : Type := { mean : list Qc; rescaled_pca_basis : Mat }.

Definition get_mean (m : PcaModel) : list Qc := mean m.

Definition get_num_principal_components (m : PcaModel) : nat :=
  cols (rescaled_pca_basis m).

(** Modelled from the spec: [basis_rows_at(vertex_id)], the rows [3 * id],
    [3 * id + 1], [3 * id + 2] of the rescaled basis; no value when the
    vertex is not in the model. *)
Definition get_rescaled_pca_basis_at_point (m : PcaModel) (vertex_id : nat)
    : option (list (list Qc)) :=
  if 3 * vertex_id + 3 <=? rows (rescaled_pca_basis m) then
    Some (map (fun x => Mat_row (rescaled_pca_basis m) (3 * vertex_id + x))
              (seq 0 3))
  else None.

(** Modelled from the spec: a [MorphableModel] holds a shape model (its
    colour model and texture coordinates play no part here). *)
Record MorphableModel : Type := { shape_model : PcaModel }.

Definition get_shape_model (mm : MorphableModel) : PcaModel := shape_model mm.

(* ================================================================= *)
(** ** [fit_shape_to_landmarks_linear_multi] *)

(** What an unchecked access was reaching for. *)
Inductive access : Type :=
| base_face_of_image    (* base_face[k] *)
| basis_of_vertex       (* get_rescaled_pca_basis_at_point(id), .block(..) *)
| base_face_coefficient (* base_face[k](3 * id + j) *)
| matrix_coefficient    (* a write into V_hat_h, y or v_bar *)
| triplet_position.     (* P.setFromTriplets *)

Inductive fault : Type :=
| assertion_failed
| out_of_range (a : access).

(** The local variables that the loop over the images fills. *)
Record assembly : Type := {
  V_hat_h : list (list Qc);
  V_hat_h_row_index : nat;
  P_coefficients : list (nat * nat * Qc);
  P_index : nat;
  y : list Qc;
  y_index : nat;
  v_bar : list Qc;
  v_bar_index : nat
}.

Inductive outcome : Type :=
| Returned (c_s : list Qc)
| Aborted (f : fault) (built : option assembly).

(** The coefficient vector of a call, if it returned one. *)
Definition result (o : outcome) : option (list Qc) :=
  match o with
  | Returned c => Some c
  | Aborted _ _ => None
  end.

(** [basis_rows_.block(0, 0, basis_rows_.rows(), num_coeffs_to_fit)]. *)
Definition block (basis_rows_ : list (list Qc)) (K num_coeffs_to_fit : nat)
    : option (list (list Qc)) :=
  if num_coeffs_to_fit <=? K then Some (map (firstn num_coeffs_to_fit) basis_rows_)
  else None.

(** [V.block(r, 0, length blk, V.cols()) = blk]. *)
Definition write_rows (r : nat) (blk V : list (list Qc))
    : option (list (list Qc)) :=
  if r + length blk <=? length V then
    Some (firstn r V ++ blk ++ skipn (r + length blk) V)
  else None.

(** [v(i) = x]. *)
Definition write_coeff (i : nat) (x : Qc) (v : list Qc) : option (list Qc) :=
  if i <? length v then Some (firstn i v ++ x :: skipn (S i) v) else None.

(** Lines 120-124: the basis rows of every landmark vertex go into
    [V_hat_h], three rows written and a fourth one skipped. *)
Fixpoint fill_V_hat_h (mm : MorphableModel) (num_coeffs_to_fit : nat)
    (vertex_ids : list nat) (V : list (list Qc)) (row_index : nat)
    : (list (list Qc) * nat) + (fault * (list (list Qc) * nat)) :=
  match vertex_ids with
  | [] => inl (V, row_index)
  | id :: ids =>
      match get_rescaled_pca_basis_at_point (get_shape_model mm) id with
      | None => inr (out_of_range basis_of_vertex, (V, row_index))
      | Some basis_rows_ =>
          match block basis_rows_
                  (get_num_principal_components (get_shape_model mm))
                  num_coeffs_to_fit with
          | None => inr (out_of_range basis_of_vertex, (V, row_index))
          | Some blk =>
              match write_rows row_index blk V with
              | None => inr (out_of_range matrix_coefficient, (V, row_index))
              | Some V' =>
                  fill_V_hat_h mm num_coeffs_to_fit ids V' (row_index + 4)
              end
          end
      end
  end.

(** Lines 128-132: the triplets of one copy of the camera matrix. *)
Definition camera_triplets (cam : Mat) (index : nat) : list (nat * nat * Qc) :=
  flat_map (fun x =>
              map (fun y => (3 * index + x, 4 * index + y, at_ cam x y))
                  (seq 0 (cols cam)))
           (seq 0 (rows cam)).

(** Lines 127-134. *)
Fixpoint fill_P (cam : Mat) (num_landmarks : nat)
    (coefficients : list (nat * nat * Qc)) (index : nat)
    : list (nat * nat * Qc) * nat :=
  match num_landmarks with
  | O => (coefficients, index)
  | S n => fill_P cam n (coefficients ++ camera_triplets cam index) (S index)
  end.

(** Lines 139-144. *)
Fixpoint fill_y (landmarks : list Vec2f) (yv : list Qc) (index : nat)
    : (list Qc * nat) + (fault * (list Qc * nat)) :=
  match landmarks with
  | [] => inl (yv, index)
  | l :: ls =>
      match write_coeff (3 * index) (fst l) yv with
      | None => inr (out_of_range matrix_coefficient, (yv, index))
      | Some y1 =>
          match write_coeff (3 * index + 1) (snd l) y1 with
          | None => inr (out_of_range matrix_coefficient, (y1, index))
          | Some y2 => fill_y ls y2 (S index)
          end
      end
  end.

(** One coordinate of lines 148-150: read [face(3 * id + j)], write it to
    [v(4 * index + j)]. *)
Definition copy_coordinate (face : list Qc) (id index j : nat) (v : list Qc)
    : list Qc + fault :=
  match nth_error face (id * 3 + j) with
  | None => inr (out_of_range base_face_coefficient)
  | Some x =>
      match write_coeff (4 * index + j) x v with
      | None => inr (out_of_range matrix_coefficient)
      | Some v' => inl v'
      end
  end.

(** Lines 147-153. *)
Fixpoint fill_v_bar (face : list Qc) (vertex_ids : list nat) (v : list Qc)
    (index : nat) : (list Qc * nat) + (fault * (list Qc * nat)) :=
  match vertex_ids with
  | [] => inl (v, index)
  | id :: ids =>
      match copy_coordinate face id index 0 v with
      | inr f => inr (f, (v, index))
      | inl v1 =>
          match copy_coordinate face id index 1 v1 with
          | inr f => inr (f, (v1, index))
          | inl v2 =>
              match copy_coordinate face id index 2 v2 with
              | inr f => inr (f, (v2, index))
              | inl v3 => fill_v_bar face ids v3 (S index)
              end
          end
      end
  end.

Definition set_V_hat_h (st : assembly) (p : list (list Qc) * nat) : assembly :=
  {| V_hat_h := fst p; V_hat_h_row_index := snd p;
     P_coefficients := P_coefficients st; P_index := P_index st;
     y := y st; y_index := y_index st;
     v_bar := v_bar st; v_bar_index := v_bar_index st |}.

Definition set_P (st : assembly) (p : list (nat * nat * Qc) * nat) : assembly :=
  {| V_hat_h := V_hat_h st; V_hat_h_row_index := V_hat_h_row_index st;
     P_coefficients := fst p; P_index := snd p;
     y := y st; y_index := y_index st;
     v_bar := v_bar st; v_bar_index := v_bar_index st |}.

Definition set_y (st : assembly) (p : list Qc * nat) : assembly :=
  {| V_hat_h := V_hat_h st; V_hat_h_row_index := V_hat_h_row_index st;
     P_coefficients := P_coefficients st; P_index := P_index st;
     y := fst p; y_index := snd p;
     v_bar := v_bar st; v_bar_index := v_bar_index st |}.

Definition set_v_bar (st : assembly) (p : list Qc * nat) : assembly :=
  {| V_hat_h := V_hat_h st; V_hat_h_row_index := V_hat_h_row_index st;
     P_coefficients := P_coefficients st; P_index := P_index st;
     y := y st; y_index := y_index st;
     v_bar := fst p; v_bar_index := snd p |}.

(** The arguments of image [k]: [affine_camera_matrix[k]], [landmarks[k]],
    [vertex_ids[k]] and, when [k < base_face.size()], [base_face[k]]. *)
Record image : Type := {
  camera : Mat;
  image_landmarks : list Vec2f;
  image_vertex_ids : list nat;
  image_base_face : option (list Qc)
}.

(** The images that the loop of line 105 visits, in order.  After the
    assertion of line 64 the first three vectors have [num_images]
    entries; [base_face] may have fewer, and the images beyond its end
    have no entry. *)
Fixpoint images_of (affine_camera_matrix : list Mat)
    (landmarks : list (list Vec2f)) (vertex_ids : list (list nat))
    (base_face : list (list Qc)) : list image :=
  match affine_camera_matrix, landmarks, vertex_ids with
  | cam :: cams, l :: ls, ids :: idss =>
      {| camera := cam; image_landmarks := l; image_vertex_ids := ids;
         image_base_face := hd_error base_face |}
      :: images_of cams ls idss (tl base_face)
  | _, _, _ => []
  end.

(** Lines 112-115: an empty base face is replaced by the model mean. *)
Definition base_face_or_mean (mm : MorphableModel) (face : list Qc) : list Qc :=
  if length face =? 0 then get_mean (get_shape_model mm) else face.

(** The body of the loop over the images, lines 107-153. *)
Definition image_iteration (mm : MorphableModel) (num_coeffs_to_fit : nat)
    (img : image) (st : assembly) : assembly + (fault * assembly) :=
  if negb (length (image_landmarks img) =? length (image_vertex_ids img)) then
    inr (assertion_failed, st)
  else
    let num_landmarks := length (image_landmarks img) in
    match image_base_face img with
    | None => inr (out_of_range base_face_of_image, st)
    | Some face =>
        let face := base_face_or_mean mm face in
        match fill_V_hat_h mm num_coeffs_to_fit (image_vertex_ids img)
                (V_hat_h st) (V_hat_h_row_index st) with
        | inr (f, p) => inr (f, set_V_hat_h st p)
        | inl p =>
            let st1 := set_V_hat_h st p in
            let st2 := set_P st1 (fill_P (camera img) num_landmarks
                                    (P_coefficients st1) (P_index st1)) in
            match fill_y (image_landmarks img) (y st2) (y_index st2) with
            | inr (f, p) => inr (f, set_y st2 p)
            | inl p =>
                let st3 := set_y st2 p in
                match fill_v_bar face (image_vertex_ids img)
                        (v_bar st3) (v_bar_index st3) with
                | inr (f, p) => inr (f, set_v_bar st3 p)
                | inl p => inl (set_v_bar st3 p)
                end
            end
        end
    end.

(** The loop of line 105. *)
Fixpoint image_loop (mm : MorphableModel) (num_coeffs_to_fit : nat)
    (imgs : list image) (st : assembly) : assembly + (fault * assembly) :=
  match imgs with
  | [] => inl st
  | img :: imgs' =>
      match image_iteration mm num_coeffs_to_fit img st with
      | inr e => inr e
      | inl st' => image_loop mm num_coeffs_to_fit imgs' st'
      end
  end.

(** [Eigen::SparseMatrix<float>] as filled by [setFromTriplets]: the
    triplets are kept, and a coefficient of the matrix is the sum of the
    values of the triplets at its position. *)
Record SparseMatrix : Type := {
  sparse_rows : nat;
  sparse_cols : nat;
  triplets : list (nat * nat * Qc)
}.

Definition triplet_row (t : nat * nat * Qc) : nat := fst (fst t).
Definition triplet_col (t : nat * nat * Qc) : nat := snd (fst t).
Definition triplet_value (t : nat * nat * Qc) : Qc := snd t.

(** Line 157; a triplet outside the matrix is an out-of-range access. *)
Definition setFromTriplets (m n : nat) (ts : list (nat * nat * Qc))
    : option SparseMatrix :=
  if forallb (fun t => (triplet_row t <? m) && (triplet_col t <? n)) ts then
    Some {| sparse_rows := m; sparse_cols := n; triplets := ts |}
  else None.

Definition row_triplets (P : SparseMatrix) (i : nat) : list (nat * nat * Qc) :=
  filter (fun t => triplet_row t =? i) (triplets P).

(** [P * V] for a dense [V] of [n] columns. *)
Definition sparse_times_dense (n : nat) (P : SparseMatrix)
    (V : list (list Qc)) : list (list Qc) :=
  map (fun i =>
         lincomb n (map triplet_value (row_triplets P i))
                 (map (fun t => nth (triplet_col t) V (zeros n))
                      (row_triplets P i)))
      (seq 0 (sparse_rows P)).

(** [P * v] for a dense vector [v]. *)
Definition sparse_times_vector (P : SparseMatrix) (v : list Qc) : list Qc :=
  map (fun i =>
         dot (map triplet_value (row_triplets P i))
             (map (fun t => nth (triplet_col t) v (Q2Qc 0)) (row_triplets P i)))
      (seq 0 (sparse_rows P)).

(** Line 94.  The default of the detector's standard deviation is
    [sqrt(3.0f)], and it is squared at once: in exact arithmetic the
    default variance is 3.

    Line 96 divides by this variance.  With a zero variance the quotient
    of [float]s is infinite and the vector returned is not a number, while
    the quotient in [Qc] is 0: the exact-arithmetic reading does not cover
    a zero variance, and the statements about returned vectors assume the
    variance to be non-zero. *)
Definition sigma_squared_2D (detector_standard_deviation
    model_standard_deviation : option Qc) : Qc :=
  ((match detector_standard_deviation with
    | Some s => s * s
    | None => of_nat 3
    end)
   + (match model_standard_deviation with
      | Some s => s * s
      | None => Q2Qc 0
      end))%Qc.

(** Lines 76-79. *)
Definition total_num_landmarks_dimension (landmarks : list (list Vec2f)) : nat :=
  fold_left (fun total l => total + length l) landmarks 0.

(** Lines 83-102: the matrices as allocated before the loop. *)
Definition allocate (num_coeffs_to_fit total : nat) : assembly :=
  {| V_hat_h := mzeros (4 * total) num_coeffs_to_fit;
     V_hat_h_row_index := 0;
     P_coefficients := [];
     P_index := 0;
     y := ones (3 * total);
     y_index := 0;
     v_bar := ones (4 * total);
     v_bar_index := 0 |}.

(** Lines 160-163: the regularised normal equations of the assembled
    matrices, as the pair of [AtOmegaAReg] and [rhs]. *)
Definition normal_equations (num_coeffs_to_fit : nat) (A : list (list Qc))
    (b Omega : list Qc) (lambda : Qc) : list (list Qc) * list Qc :=
  let AtOmegaAReg :=
    madd (mmul num_coeffs_to_fit
               (mul_diag_r (transpose num_coeffs_to_fit A) Omega) A)
         (mscale lambda (identity num_coeffs_to_fit)) in
  let rhs :=
    mvmul (mul_diag_r (mopp (transpose num_coeffs_to_fit A)) Omega) b in
  (AtOmegaAReg, rhs).

Definition fit_shape_to_landmarks_linear_multi (morphable_model : MorphableModel)
    (affine_camera_matrix : list Mat) (landmarks : list (list Vec2f))
    (vertex_ids : list (list nat)) (base_face : list (list Qc)) (lambda : Qc)
    (num_coefficients_to_fit : option nat)
    (detector_standard_deviation model_standard_deviation : option Qc)
    : outcome :=
  if negb ((length affine_camera_matrix =? length landmarks)
           && (length landmarks =? length vertex_ids)) then
    Aborted assertion_failed None
  else
    let num_coeffs_to_fit :=
      match num_coefficients_to_fit with
      | Some n => n
      | None => get_num_principal_components (get_shape_model morphable_model)
      end in
    let num_images := length affine_camera_matrix in
    let lambda := (lambda * of_nat num_images)%Qc in
    let total := total_num_landmarks_dimension landmarks in
    let Omega :=
      constant (3 * total)
        (Q2Qc 1 / sigma_squared_2D detector_standard_deviation
                    model_standard_deviation)%Qc in
    match image_loop morphable_model num_coeffs_to_fit
            (images_of affine_camera_matrix landmarks vertex_ids base_face)
            (allocate num_coeffs_to_fit total) with
    | inr (f, st) => Aborted f (Some st)
    | inl st =>
        match setFromTriplets (3 * total) (4 * total) (P_coefficients st) with
        | None => Aborted (out_of_range triplet_position) (Some st)
        | Some P =>
            let A := sparse_times_dense num_coeffs_to_fit P (V_hat_h st) in
            let b := vsub (sparse_times_vector P (v_bar st)) (y st) in
            let (AtOmegaAReg, rhs) :=
              normal_equations num_coeffs_to_fit A b Omega lambda in
            let c_s :=
              colPivHouseholderQr_solve num_coeffs_to_fit AtOmegaAReg rhs in
            Returned c_s
        end
    end.

(** Lines 193-198. *)
Definition fit_shape_to_landmarks_linear (morphable_model : MorphableModel)
    (affine_camera_matrix : Mat) (landmarks : list Vec2f)
    (vertex_ids : list nat) (base_face : list Qc) (lambda : Qc)
    (num_coefficients_to_fit : option nat)
    (detector_standard_deviation model_standard_deviation : option Qc)
    : outcome :=
  let all_landmarks := [landmarks] in
  let all_vertex_ids := [vertex_ids] in
  fit_shape_to_landmarks_linear_multi morphable_model [affine_camera_matrix]
    all_landmarks all_vertex_ids [base_face] lambda num_coefficients_to_fit
    detector_standard_deviation model_standard_deviation.

(* ================================================================= *)
(** ** Sample inputs *)

Definition q (n d : Z) : Qc := Q2Qc (Qmake n (Z.to_pos d)).

(** The affine camera that drops the depth. *)
Definition sample_camera : Mat :=
  {| rows := 3; cols := 4;
     data := [q 1 1; q 0 1; q 0 1; q 0 1;
              q 0 1; q 1 1; q 0 1; q 0 1;
              q 0 1; q 0 1; q 0 1; q 1 1] |}.

(** One vertex, one principal component that moves it along the x axis. *)
Definition sample_model : MorphableModel :=
  {| shape_model :=
       {| mean := [q 0 1; q 0 1; q 0 1];
          rescaled_pca_basis :=
            {| rows := 3; cols := 1; data := [q 1 1; q 0 1; q 0 1] |} |} |}.


(* ================================================================= *)
(** ** Notions used in the statements *)

(** Every equation of [sys] has [n] unknowns. *)
Definition system_of_width (n : nat) (sys : list equation) : Prop :=
  Forall (fun e => length (fst e) = n) sys.

(** A combination of the equations of [sys] that reads [0 = c] with
    [c <> 0]: such a system has no solution. *)
Definition inconsistency_certificate (n : nat) (sys : list equation)
    (z : list Qc) : Prop :=
  length z = length sys /\
  lincomb n z (map fst sys) = zeros n /\
  dot z (map snd sys) <> Q2Qc 0.

Definition scale_equation (s : Qc) (e : equation) : equation :=
  (vscale s (fst e), (s * snd e)%Qc).

(* ================================================================= *)
(** ** The matrices as the specification describes them *)

(** The base face of an image as the specification has it: the base shape
    that is supplied, and the mean of the shape model when it is absent,
    that is, when the vector supplied for the image has no coefficient.
    (An image without an entry in [base_face] has no base face.) *)
Definition effective_base_face (mm : MorphableModel) (img : image) : list Qc :=
  match image_base_face img with
  | Some [] => mean (shape_model mm)
  | Some (x :: face) => x :: face
  | None => []
  end.

Definition landmark_count (imgs : list image) : nat :=
  list_sum (map (fun img => length (image_landmarks img)) imgs).

(** The three rows of the rescaled basis at a vertex, cut to the
    coefficients that are fit. *)
Definition basis_rows (mm : MorphableModel) (num_coeffs_to_fit id : nat)
    : list (list Qc) :=
  map (fun x => firstn num_coeffs_to_fit
                  (Mat_row (rescaled_pca_basis (get_shape_model mm))
                           (3 * id + x)))
      (seq 0 3).

(** [V_hat_h]: for every landmark the three basis rows of its vertex,
    followed by one all-zero row. *)
Definition V_hat_h_spec (mm : MorphableModel) (num_coeffs_to_fit : nat)
    (imgs : list image) : list (list Qc) :=
  flat_map (fun img =>
              flat_map (fun id => basis_rows mm num_coeffs_to_fit id
                                  ++ [zeros num_coeffs_to_fit])
                       (image_vertex_ids img))
           imgs.

(** A [cv::Mat] as a dense matrix. *)
Definition dense (m : Mat) : list (list Qc) :=
  map (Mat_row m) (seq 0 (rows m)).

(** The camera matrix of every landmark, image after image. *)
Definition cameras_per_landmark (imgs : list image) : list Mat :=
  flat_map (fun img => repeat (camera img) (length (image_landmarks img)))
           imgs.

(** The block-diagonal matrix of a list of 3 by 4 blocks. *)
Fixpoint block_diagonal (blocks : list Mat) : list (list Qc) :=
  match blocks with
  | [] => []
  | C :: blocks' =>
      map (fun row => row ++ zeros (4 * length blocks')) (dense C)
      ++ map (fun row => zeros 4 ++ row) (block_diagonal blocks')
  end.

(** [P]: each image's camera matrix once per landmark, on the diagonal. *)
Definition P_spec (imgs : list image) : list (list Qc) :=
  block_diagonal (cameras_per_landmark imgs).

(** [y]: the landmarks in homogeneous coordinates. *)
Definition y_spec (imgs : list image) : list Qc :=
  flat_map (fun img =>
              flat_map (fun l => [fst l; snd l; Q2Qc 1]) (image_landmarks img))
           imgs.

(** [v_bar]: the base-face points of the landmark vertices in homogeneous
    coordinates. *)
Definition v_bar_spec (mm : MorphableModel) (imgs : list image) : list Qc :=
  flat_map (fun img =>
              flat_map (fun id =>
                          [nth (id * 3) (effective_base_face mm img) (Q2Qc 0);
                           nth (id * 3 + 1) (effective_base_face mm img) (Q2Qc 0);
                           nth (id * 3 + 2) (effective_base_face mm img) (Q2Qc 0);
                           Q2Qc 1])
                       (image_vertex_ids img))
           imgs.

(** The variances as the specification gives them: the square of the
    standard deviation that is supplied, and otherwise 3 for the detector
    and 0 for the model. *)
Definition detector_variance (standard_deviation : option Qc) : Qc :=
  match standard_deviation with
  | Some sigma => (sigma * sigma)%Qc
  | None => Q2Qc 3
  end.

Definition model_variance (standard_deviation : option Qc) : Qc :=
  match standard_deviation with
  | Some sigma => (sigma * sigma)%Qc
  | None => Q2Qc 0
  end.

(** [Omega]: diagonal, every entry [1 / (sigma_detector^2 + sigma_model^2)]. *)
Definition Omega_spec (total : nat) (detector_standard_deviation
    model_standard_deviation : option Qc) : list (list Qc) :=
  diag (constant (3 * total)
          (Q2Qc 1 / (detector_variance detector_standard_deviation
                     + model_variance model_standard_deviation))%Qc).

Definition A_spec (mm : MorphableModel) (num_coeffs_to_fit : nat)
    (imgs : list image) : list (list Qc) :=
  mmul num_coeffs_to_fit (P_spec imgs) (V_hat_h_spec mm num_coeffs_to_fit imgs).

Definition b_spec (mm : MorphableModel) (imgs : list image) : list Qc :=
  vsub (mvmul (P_spec imgs) (v_bar_spec mm imgs)) (y_spec imgs).

(** [A^T Omega A + weight I]. *)
Definition normal_matrix (n : nat) (A Omega : list (list Qc)) (weight : Qc)
    : list (list Qc) :=
  madd (mmul n (mmul (length A) (transpose n A) Omega) A)
       (mscale weight (identity n)).

(** [(A^T Omega A + weight I) c = - A^T Omega b]. *)
Definition solves_normal_equations (n : nat) (A Omega : list (list Qc))
    (b : list Qc) (weight : Qc) (c : list Qc) : Prop :=
  mvmul (normal_matrix n A Omega weight) c
  = vopp (mvmul (mmul (length A) (transpose n A) Omega) b).

(** Only the zero vector is mapped to zero. *)
Definition trivial_kernel (n : nat) (M : list (list Qc)) : Prop :=
  forall z, length z = n -> mvmul M z = zeros (length M) -> z = zeros n.

(** The triplets of the camera matrices of consecutive landmarks, the
    first of which has index [index]. *)
Fixpoint triplets_from (index : nat) (cams : list Mat)
    : list (nat * nat * Qc) :=
  match cams with
  | [] => []
  | cam :: cams' => camera_triplets cam index ++ triplets_from (S index) cams'
  end.

(** The local variables after the images [done] have been visited, with
    [remaining] landmarks still to come. *)
Definition assembled (mm : MorphableModel) (num_coeffs_to_fit : nat)
    (done : list image) (remaining : nat) : assembly :=
  {| V_hat_h := V_hat_h_spec mm num_coeffs_to_fit done
                ++ mzeros (4 * remaining) num_coeffs_to_fit;
     V_hat_h_row_index := 4 * landmark_count done;
     P_coefficients := triplets_from 0 (cameras_per_landmark done);
     P_index := landmark_count done;
     y := y_spec done ++ ones (3 * remaining);
     y_index := landmark_count done;
     v_bar := v_bar_spec mm done ++ ones (4 * remaining);
     v_bar_index := landmark_count done |}.

(** ** Inputs on which every access of the call is in range *)

Record image_ok (mm : MorphableModel) (img : image) : Prop := {
  camera_rows : rows (camera img) = 3;
  camera_cols : cols (camera img) = 4;
  same_count : length (image_landmarks img) = length (image_vertex_ids img);
  base_face_supplied : image_base_face img <> None;
  vertices_in_model :
    Forall (fun id =>
              3 * id + 3 <= rows (rescaled_pca_basis (get_shape_model mm)))
           (image_vertex_ids img);
  vertices_in_base_face :
    Forall (fun id => id * 3 + 3 <= length (effective_base_face mm img))
           (image_vertex_ids img)
}.

Definition num_coeffs (mm : MorphableModel)
    (num_coefficients_to_fit : option nat) : nat :=
  match num_coefficients_to_fit with
  | Some n => n
  | None => get_num_principal_components (get_shape_model mm)
  end.

Record input_ok (mm : MorphableModel) (affine_camera_matrix : list Mat)
    (landmarks : list (list Vec2f)) (vertex_ids : list (list nat))
    (base_face : list (list Qc)) (num_coefficients_to_fit : option nat)
    : Prop := {
  same_cameras : length affine_camera_matrix = length landmarks;
  same_vertex_ids : length landmarks = length vertex_ids;
  coefficients_in_model :
    num_coeffs mm num_coefficients_to_fit
    <= get_num_principal_components (get_shape_model mm);
  images_ok :
    Forall (image_ok mm)
           (images_of affine_camera_matrix landmarks vertex_ids base_face)
}.

(** The product of a block-diagonal matrix of 3 by 4 blocks with a dense
    matrix, block by block. *)
Fixpoint blockwise (n : nat) (blocks : list Mat) (V : list (list Qc))
    : list (list Qc) :=
  match blocks with
  | [] => []
  | C :: blocks' =>
      mmul n (dense C) (firstn 4 V) ++ blockwise n blocks' (skipn 4 V)
  end.

Fixpoint blockwise_vector (blocks : list Mat) (v : list Qc) : list Qc :=
  match blocks with
  | [] => []
  | C :: blocks' =>
      mvmul (dense C) (firstn 4 v) ++ blockwise_vector blocks' (skipn 4 v)
  end.

Definition is_3x4 (C : Mat) : Prop := rows C = 3 /\ cols C = 4.

(** ** Notions of the exact-recovery property *)

(** An affine camera: a 3 by 4 matrix with last row [0 0 0 1]. *)
Definition affine (C : Mat) : Prop :=
  is_3x4 C /\ Mat_row C 2 = [Q2Qc 0; Q2Qc 0; Q2Qc 0; Q2Qc 1].

(** The point of vertex [id] of the face with coefficients [c] over the
    base face of the image, in homogeneous coordinates. *)
Definition model_point (mm : MorphableModel) (n : nat) (img : image)
    (c : list Qc) (id : nat) : list Qc :=
  vadd [nth (id * 3) (effective_base_face mm img) (Q2Qc 0);
        nth (id * 3 + 1) (effective_base_face mm img) (Q2Qc 0);
        nth (id * 3 + 2) (effective_base_face mm img) (Q2Qc 0)]
       (mvmul (basis_rows mm n id) c)
  ++ [Q2Qc 1].

(** Every landmark of the image is the projection of its model point. *)
Definition projects_exactly (mm : MorphableModel) (n : nat) (c : list Qc)
    (img : image) : Prop :=
  Forall2 (fun (l : Vec2f) (id : nat) =>
             fst l = dot (Mat_row (camera img) 0) (model_point mm n img c id)
             /\ snd l = dot (Mat_row (camera img) 1)
                            (model_point mm n img c id))
          (image_landmarks img) (image_vertex_ids img).

(** ** More sample inputs *)

(** One vertex, two principal components that move it alike: the
    components cannot be told apart from any landmark. *)
Definition ambiguous_model : MorphableModel :=
  {| shape_model :=
       {| mean := [q 0 1; q 0 1; q 0 1];
          rescaled_pca_basis :=
            {| rows := 3; cols := 2;
               data := [q 1 1; q 1 1; q 0 1; q 0 1; q 0 1; q 0 1] |} |} |}.

(** One vertex, whose mean position is [(5, 6, 7)], and one principal
    component that moves it along the x axis. *)
Definition offset_model : MorphableModel :=
  {| shape_model :=
       {| mean := [q 5 1; q 6 1; q 7 1];
          rescaled_pca_basis :=
            {| rows := 3; cols := 1; data := [q 1 1; q 0 1; q 0 1] |} |} |}.

(** Replace every empty base face by the model mean. *)
Definition with_mean (mm : MorphableModel) (base_face : list (list Qc))
    : list (list Qc) :=
  map (base_face_or_mean mm) base_face.

(** Boolean comparison of matrices. *)
Fixpoint mat_eqb (X Y : list (list Qc)) : bool :=
  match X, Y with
  | [], [] => true
  | r :: X', r' :: Y' => vec_eqb r r' && mat_eqb X' Y'
  | _, _ => false
  end.

(** ** Notions of the further properties *)

(** The cost of a coefficient vector [c]: the squared residual
    [|A c + b|^2] of the correspondences, weighted by [w], plus the
    squared length of [c], weighted by the regularisation weight. *)
Definition regularised_cost (A : list (list Qc)) (b : list Qc)
    (w weight : Qc) (c : list Qc) : Qc :=
  (w * norm2 (vadd (mvmul A c) b) + weight * norm2 c)%Qc.

(** The rows of [A], each with its entry of [b], that one correspondence
    (a landmark and its vertex id) contributes under the camera [C] and
    the base face [face]. *)
Definition landmark_rows (mm : MorphableModel) (num_coeffs_to_fit : nat)
    (C : Mat) (face : list Qc) (p : Vec2f * nat) : list (list Qc * Qc) :=
  combine
    (mmul num_coeffs_to_fit (dense C)
       (basis_rows mm num_coeffs_to_fit (snd p) ++ [zeros num_coeffs_to_fit]))
    (vsub (mvmul (dense C)
             [nth (snd p * 3) face (Q2Qc 0); nth (snd p * 3 + 1) face (Q2Qc 0);
              nth (snd p * 3 + 2) face (Q2Qc 0); Q2Qc 1])
          [fst (fst p); snd (fst p); Q2Qc 1]).

(** Two vertices and one principal component, which moves both along the
    x axis, the second twice as far as the first. *)
Definition two_vertex_model : MorphableModel :=
  {| shape_model :=
       {| mean := [q 0 1; q 0 1; q 0 1; q 0 1; q 0 1; q 0 1];
          rescaled_pca_basis :=
            {| rows := 6; cols := 1;
               data := [q 1 1; q 0 1; q 0 1; q 2 1; q 0 1; q 0 1] |} |} |}.

(** Every read that the loop makes for an image is in range: as many
    vertex ids as landmarks, an entry of [base_face], and for every vertex
    id its three rows in the basis and its three coordinates in the base
    face. *)
Definition reads_in_range (mm : MorphableModel) (img : image) : Prop :=
  length (image_landmarks img) = length (image_vertex_ids img)
  /\ image_base_face img <> None
  /\ Forall (fun id =>
               3 * id + 3 <= rows (rescaled_pca_basis (get_shape_model mm))
               /\ id * 3 + 3 <= length (effective_base_face mm img))
            (image_vertex_ids img).

(** The state of the loop when [done] landmarks have been processed out
    of the [total] for which the matrices were allocated. *)
Definition in_progress (total done : nat) (st : assembly) : Prop :=
  V_hat_h_row_index st = 4 * done
  /\ y_index st = done
  /\ v_bar_index st = done
  /\ length (V_hat_h st) = 4 * total
  /\ length (y st) = 3 * total
  /\ length (v_bar st) = 4 * total.

(** A basis matrix cut to its first [n] columns, and the model with the
    first [n] principal components of [mm]. *)
Definition truncate_basis (n : nat) (B : Mat) : Mat :=
  {| rows := rows B;
     cols := n;
     data := flat_map (fun x => firstn n (Mat_row B x)) (seq 0 (rows B)) |}.

Definition truncate_model (n : nat) (mm : MorphableModel) : MorphableModel :=
  {| shape_model :=
       {| mean := mean (shape_model mm);
          rescaled_pca_basis :=
            truncate_basis n (rescaled_pca_basis (shape_model mm)) |} |}.

(** The triplets collected so far lie inside a matrix of [3 * total] rows
    and [4 * total] columns, [done] landmarks having been processed. *)
Definition triplets_fit (total done : nat) (st : assembly) : Prop :=
  P_index st = done
  /\ Forall (fun t => triplet_row t < 3 * total /\ triplet_col t < 4 * total)
            (P_coefficients st).

(* ================================================================= *)
(** ** The Python bindings ([python/generate-python-bindings.cpp])

    The lambdas that the file binds, with what they call in pybind11, GLM
    and the rest of the library (none of which is among the sources) as
    parameters. *)

Module PythonBindings.

Import String.
Local Open Scope list_scope.

(** What a bound lambda hands back to Python: a value, or the exception
    that it throws or lets through. *)
Inductive py_result (X : Type) : Type :=
| py_ok (x : X)
| runtime_error (what : string)  (* throw std::runtime_error(what) *)
| cast_error                            (* o.cast<T>() on an object that is no T *)
| index_error.                          (* t[i] beyond the end of the tuple *)

Arguments py_ok {X} x.
Arguments runtime_error {X} what.
Arguments cast_error {X}.
Arguments index_error {X}.

Definition py_bind {X Y : Type} (r : py_result X) (f : X -> py_result Y)
    : py_result Y :=
  match r with
  | py_ok x => f x
  | runtime_error what => runtime_error what
  | cast_error => cast_error
  | index_error => index_error
  end.

Notation "x <- r ;; k" := (py_bind r (fun x => k))
  (at level 61, r at next level, right associativity).

(** pybind11's conversion of a C++ type: to a Python object on the way
    out ([py::make_tuple], [py::cast]), from one on the way in
    ([o.cast<T>()], which fails on an object of another type). *)
Record caster (py_object X : Type) : Type := {
  to_python : X -> py_object;
  from_python : py_object -> option X
}.

Arguments to_python {py_object X} c x.
Arguments from_python {py_object X} c o.

(** [o.cast<T>()]. *)
Definition cast {py_object X : Type} (c : caster py_object X) (o : py_object)
    : py_result X :=
  match from_python c o with
  | Some x => py_ok x
  | None => cast_error
  end.

(** [t[i]] on a [py::tuple]. *)
Definition tuple_item {py_object : Type} (t : list py_object) (i : nat)
    : py_result py_object :=
  match nth_error t i with
  | Some o => py_ok o
  | None => index_error
  end.

(** A conversion whose [cast] reads back what it wrote. *)
Definition lawful {py_object X : Type} (c : caster py_object X) : Prop :=
  forall x, from_python c (to_python c x) = Some x.

Section MeshPickle.

(** Python objects and the GLM vector types. *)
Variables py_object vec4 vec3 vec2 : Type.

(** [core::Mesh], with the five members that lines 73-77 bind;
    a [std::array<int, 3>] is a triple of integers. *)
Record Mesh : Type := {
  vertices : list vec4;
  colors : list vec3;
  texcoords : list vec2;
  tvi : list (Z * Z * Z);
  tci : list (Z * Z * Z)
}.

Variable vertices_caster : caster py_object (list vec4).
Variable colors_caster : caster py_object (list vec3).
Variable texcoords_caster : caster py_object (list vec2).
Variable triangles_caster : caster py_object (list (Z * Z * Z)).

(** Lines 78-81: [__getstate__], the tuple of the five members. *)
Definition Mesh_getstate (p : Mesh) : list py_object :=
  [to_python vertices_caster (vertices p);
   to_python colors_caster (colors p);
   to_python texcoords_caster (texcoords p);
   to_python triangles_caster (tvi p);
   to_python triangles_caster (tci p)].

(** Lines 82-95: [__setstate__].  The mesh is constructed afresh, so the
    result does not depend on the object that is overwritten. *)
Definition Mesh_setstate (t : list py_object) : py_result Mesh :=
  if negb (List.length t =? 5) then runtime_error "Invalid state!"%string
  else
    t0 <- tuple_item t 0 ;;
    p_vertices <- cast vertices_caster t0 ;;
    t1 <- tuple_item t 1 ;;
    p_colors <- cast colors_caster t1 ;;
    t2 <- tuple_item t 2 ;;
    p_texcoords <- cast texcoords_caster t2 ;;
    t3 <- tuple_item t 3 ;;
    p_tvi <- cast triangles_caster t3 ;;
    t4 <- tuple_item t 4 ;;
    p_tci <- cast triangles_caster t4 ;;
    py_ok {| vertices := p_vertices; colors := p_colors;
             texcoords := p_texcoords; tvi := p_tvi; tci := p_tci |}.

End MeshPickle.

Arguments vertices {vec4 vec3 vec2} m.
Arguments colors {vec4 vec3 vec2} m.
Arguments texcoords {vec4 vec3 vec2} m.
Arguments tvi {vec4 vec3 vec2} m.
Arguments tci {vec4 vec3 vec2} m.

(** [fitting::CameraType]. *)
Inductive CameraType : Type := Orthographic | Perspective.

(** [fitting::Frustum]; its constructor takes [l], [r], [b], [t] in this
    order. *)
Record Frustum : Type := { l : Qc; r : Qc; b : Qc; t : Qc }.

(** [glm::quat]; GLM's constructor [glm::quat(w, x, y, z)] takes the
    scalar part first. *)
Record quat : Type := { x : Qc; y : Qc; z : Qc; w : Qc }.

Definition glm_quat (qw qx qy qz : Qc) : quat :=
  {| x := qx; y := qy; z := qz; w := qw |}.

(** Modelled from the spec: [fitting::RenderingParameters] is not among
    the sources.  The spec (section 3, Pose) gives it the camera kind, the
    viewing frustum, the rotation quaternion, the 2D translation and the
    screen width and height; the constructor of line 230 takes them in
    this order and the getters of lines 200-211 return them. *)
Record RenderingParameters : Type := {
  get_camera_type : CameraType;
  get_frustum : Frustum;
  get_rotation : quat;
  get_t_x : Qc;
  get_t_y : Qc;
  get_screen_width : Z;
  get_screen_height : Z
}.

Section RenderingParametersPickle.

Variable py_object : Type.
Variable int_caster : caster py_object Z.
Variable float_caster : caster py_object Qc.
Variable tuple_caster : caster py_object (list py_object).

(** Lines 198-212: [__getstate__]. *)
Definition RenderingParameters_getstate (p : RenderingParameters)
    : list py_object :=
  let cameraType :=
    match get_camera_type p with
    | Perspective => 1%Z
    | Orthographic => 0%Z
    end in
  let frustum := get_frustum p in
  let frustumTuple :=
    to_python tuple_caster
      [to_python float_caster (l frustum); to_python float_caster (r frustum);
       to_python float_caster (b frustum); to_python float_caster (t frustum)] in
  let rotation := get_rotation p in
  let rotationTuple :=
    to_python tuple_caster
      [to_python float_caster (x rotation); to_python float_caster (y rotation);
       to_python float_caster (z rotation); to_python float_caster (w rotation)] in
  [to_python int_caster cameraType; frustumTuple; rotationTuple;
   to_python float_caster (get_t_x p); to_python float_caster (get_t_y p);
   to_python int_caster (get_screen_width p);
   to_python int_caster (get_screen_height p)].

(** [tuple[i].cast<float>()]. *)
Definition float_item (tuple : list py_object) (i : nat) : py_result Qc :=
  o <- tuple_item tuple i ;; cast float_caster o.

Definition int_item (tuple : list py_object) (i : nat) : py_result Z :=
  o <- tuple_item tuple i ;; cast int_caster o.

(** Lines 213-231: [__setstate__].  The casts are made in the order in
    which they are written. *)
Definition RenderingParameters_setstate (tp : list py_object)
    : py_result RenderingParameters :=
  if negb (List.length tp =? 7) then runtime_error "Invalid state!"%string
  else
    t0 <- int_item tp 0 ;;
    let cameraType := if (t0 =? 1)%Z then Perspective else Orthographic in
    t1 <- tuple_item tp 1 ;;
    frustumTuple <- cast tuple_caster t1 ;;
    f0 <- float_item frustumTuple 0 ;;
    f1 <- float_item frustumTuple 1 ;;
    f2 <- float_item frustumTuple 2 ;;
    f3 <- float_item frustumTuple 3 ;;
    let frustum := {| l := f0; r := f1; b := f2; t := f3 |} in
    t2 <- tuple_item tp 2 ;;
    rotationTuple <- cast tuple_caster t2 ;;
    r3 <- float_item rotationTuple 3 ;;
    r0 <- float_item rotationTuple 0 ;;
    r1 <- float_item rotationTuple 1 ;;
    r2 <- float_item rotationTuple 2 ;;
    let rotation := glm_quat r3 r0 r1 r2 in
    t3 <- float_item tp 3 ;;
    t4 <- float_item tp 4 ;;
    t5 <- int_item tp 5 ;;
    t6 <- int_item tp 6 ;;
    py_ok {| get_camera_type := cameraType; get_frustum := frustum;
             get_rotation := rotation; get_t_x := t3; get_t_y := t4;
             get_screen_width := t5; get_screen_height := t6 |}.

End RenderingParametersPickle.

(** Python objects for the examples: numbers, tuples, and sequences of
    vectors and of integer triples. *)
#[warnings="-register-all"]
Inductive sample_object : Type :=
| an_int (i : Z)
| a_float (a : Qc)
| a_tuple (items : list sample_object)
| a_vector_sequence (v : list (list Qc))
| a_triple_sequence (v : list (Z * Z * Z)).

Definition sample_int_caster : caster sample_object Z :=
  {| to_python := an_int;
     from_python := fun o => match o with an_int i => Some i | _ => None end |}.

Definition sample_float_caster : caster sample_object Qc :=
  {| to_python := a_float;
     from_python := fun o => match o with a_float a => Some a | _ => None end |}.

Definition sample_tuple_caster : caster sample_object (list sample_object) :=
  {| to_python := a_tuple;
     from_python := fun o => match o with a_tuple ts => Some ts | _ => None end |}.

Definition sample_vectors_caster : caster sample_object (list (list Qc)) :=
  {| to_python := a_vector_sequence;
     from_python :=
       fun o => match o with a_vector_sequence v => Some v | _ => None end |}.

Definition sample_triples_caster : caster sample_object (list (Z * Z * Z)) :=
  {| to_python := a_triple_sequence;
     from_python :=
       fun o => match o with a_triple_sequence v => Some v | _ => None end |}.

(** [core::Landmark<cv::Vec2f>]: a name and its coordinates. *)
Record Landmark : Type := { name : string; coordinates : Vec2f }.

(** What a call of one of the fitting lambdas comes to. *)
Inductive call (R : Type) : Type :=
| returned (result : R)
| assertion_failure          (* an assert of the lambda fails *)
| out_of_range_read.         (* landmark_ids[i] beyond the end of the vector *)

Arguments returned {R} result.
Arguments assertion_failure {R}.
Arguments out_of_range_read {R}.

(** Lines 256-259 and 271-274: the loop over the landmarks of one image,
    which names landmark [i] by [landmark_ids[i]].  A [glm::vec2] is the
    pair of its [x] and [y]. *)
Fixpoint push_back_landmarks (landmark_ids : list string)
    (landmarks : list Vec2f) (i : nat) (landmark_collection : list Landmark)
    : option (list Landmark) :=
  match landmarks with
  | [] => Some landmark_collection
  | p :: landmarks' =>
      match nth_error landmark_ids i with
      | None => None
      | Some id =>
          push_back_landmarks landmark_ids landmarks' (S i)
            (landmark_collection
             ++ [{| name := id; coordinates := (fst p, snd p) |}])
      end
  end.

(** Lines 254-261: the loop over the images. *)
Fixpoint push_back_collections (landmark_ids : list string)
    (landmarkss : list (list Vec2f))
    (landmark_collections : list (list Landmark))
    : option (list (list Landmark)) :=
  match landmarkss with
  | [] => Some landmark_collections
  | landmarks :: landmarkss' =>
      match push_back_landmarks landmark_ids landmarks 0 [] with
      | None => None
      | Some landmark_collection =>
          push_back_collections landmark_ids landmarkss'
            (landmark_collections ++ [landmark_collection])
      end
  end.

Section FittingLambdas.

(** The types of the library that the lambdas only pass on. *)
Variables Blendshape LandmarkMapper EdgeTopology ContourLandmarks
  ModelContour : Type.
(** What [fitting::fit_shape_and_pose_multi] returns as [result.first] and
    [result.second], the type of its optional initial rendering
    parameters, and what [fitting::fit_pose] returns. *)
Variables Meshes Poses InitialPoses Pose : Type.

(** [fitting::fit_shape_and_pose_multi]: its arguments in the order of
    line 263; the coefficient vectors that it takes by reference come
    back as the last two components of its value. *)
Variable fit_shape_and_pose_multi :
  MorphableModel -> list Blendshape -> list (list Landmark) ->
  LandmarkMapper -> list Z -> list Z -> EdgeTopology -> ContourLandmarks ->
  ModelContour -> Z -> option Z -> Qc -> option InitialPoses ->
  list Qc -> list (list Qc) -> list (list Vec2f) ->
  (Meshes * Poses) * list Qc * list (list Qc).

(** Lines 248-265: the lambda bound as [fit_shape_and_pose]. *)
Definition fit_shape_and_pose (morphable_model : MorphableModel)
    (blendshapes : list Blendshape) (landmarkss : list (list Vec2f))
    (landmark_ids : list string) (landmark_mapper : LandmarkMapper)
    (image_widths image_heights : list Z) (edge_topology : EdgeTopology)
    (contour_landmarks : ContourLandmarks) (model_contour : ModelContour)
    (num_iterations num_shape_coefficients_to_fit : Z) (lambda : Qc)
    (pca_shape_coefficients : list Qc)
    (blendshape_coefficients : list (list Qc))
    : call (Meshes * Poses * list Qc * list (list Qc)) :=
  if negb ((0 <? List.length landmarkss)
           && (List.length (hd [] landmarkss) =? List.length landmark_ids))
  then assertion_failure
  else
    let fitted_image_points : list (list Vec2f) := [] in
    let num_shape_coefficients_opt :=
      if (num_shape_coefficients_to_fit =? -1)%Z then None
      else Some num_shape_coefficients_to_fit in
    match push_back_collections landmark_ids landmarkss [] with
    | None => out_of_range_read
    | Some landmark_collections =>
        let '(result, pca_shape_coefficients', blendshape_coefficients') :=
          fit_shape_and_pose_multi morphable_model blendshapes
            landmark_collections landmark_mapper image_widths image_heights
            edge_topology contour_landmarks model_contour num_iterations
            num_shape_coefficients_opt lambda None pca_shape_coefficients
            blendshape_coefficients fitted_image_points in
        returned (fst result, snd result, pca_shape_coefficients',
                  blendshape_coefficients')
    end.

(** [fitting::fit_pose], its arguments in the order of line 276. *)
Variable fitting_fit_pose :
  MorphableModel -> list Blendshape -> list Landmark -> LandmarkMapper ->
  Z -> Z -> list Qc -> list Qc -> Pose.

(** Lines 267-278: the lambda bound as [fit_pose]. *)
Definition fit_pose (morphable_model : MorphableModel)
    (landmarks : list Vec2f) (landmark_ids : list string)
    (landmark_mapper : LandmarkMapper) (image_width image_height : Z)
    (pca_shape_coefficients : list Qc) (blendshapes : list Blendshape)
    (blendshape_coefficients : list Qc) : call Pose :=
  if negb (List.length landmarks =? List.length landmark_ids) then
    assertion_failure
  else
    match push_back_landmarks landmark_ids landmarks 0 [] with
    | None => out_of_range_read
    | Some landmark_collection =>
        returned (fitting_fit_pose morphable_model blendshapes
                    landmark_collection landmark_mapper image_width
                    image_height pca_shape_coefficients
                    blendshape_coefficients)
    end.

End FittingLambdas.

End PythonBindings.


(* ================================================================= *)
(** * Properties *)

(** ** Scalars: from [Qc] to [Q], where [lra] and [nra] work *)

Lemma this_plus (a b : Qc) : (this (a + b)%Qc == this a + this b)%Q.
Proof. unfold Qcplus, Q2Qc. cbn [this]. apply Qred_correct. Qed.

Lemma this_mult (a b : Qc) : (this (a * b)%Qc == this a * this b)%Q.
Proof. unfold Qcmult, Q2Qc. cbn [this]. apply Qred_correct. Qed.

Lemma this_opp (a : Qc) : (this (- a)%Qc == - this a)%Q.
Proof. unfold Qcopp, Q2Qc. cbn [this]. apply Qred_correct. Qed.

Lemma this_minus (a b : Qc) : (this (a - b)%Qc == this a - this b)%Q.
Proof. unfold Qcminus. rewrite this_plus, this_opp. reflexivity. Qed.

Lemma this_eq (a b : Qc) : a = b <-> (this a == this b)%Q.
Proof. split; [intros ->; reflexivity | apply Qc_is_canon]. Qed.

Ltac qc_to_q :=
  unfold Qcle, Qclt in *;
  repeat match goal with
  | H : @eq Qc _ _ |- _ => apply this_eq in H
  | |- @eq Qc _ _ => apply this_eq
  | H : ~ @eq Qc _ _ |- _ => rewrite this_eq in H
  | |- ~ @eq Qc _ _ => rewrite this_eq
  end;
  repeat (rewrite ?this_plus, ?this_mult, ?this_minus, ?this_opp in * );
  change (this (Q2Qc 0)) with 0%Q in *; change (this (Q2Qc 1)) with 1%Q in *.

Lemma is_zero_true (a : Qc) : is_zero a = true <-> a = Q2Qc 0.
Proof.
  unfold is_zero. rewrite Qeq_bool_iff. symmetry. apply this_eq.
Qed.

Lemma is_zero_false (a : Qc) : is_zero a = false <-> a <> Q2Qc 0.
Proof.
  rewrite <- is_zero_true. destruct (is_zero a); split; congruence.
Qed.

Lemma Qc_eqb_eq (a b : Qc) : Qc_eqb a b = true <-> a = b.
Proof.
  unfold Qc_eqb. rewrite Qeq_bool_iff. symmetry. apply this_eq.
Qed.

Lemma vec_eqb_eq (u v : list Qc) : vec_eqb u v = true -> u = v.
Proof.
  revert v. induction u as [|a u IH]; intros [|b v]; simpl; try congruence.
  rewrite andb_true_iff. intros [Hab Huv].
  apply Qc_eqb_eq in Hab. apply IH in Huv. congruence.
Qed.

Lemma Qc_square_nonneg (a : Qc) : (Q2Qc 0 <= a * a)%Qc.
Proof. qc_to_q. nra. Qed.

Lemma Qc_sum_nonneg (a b : Qc) :
  (Q2Qc 0 <= a)%Qc -> (Q2Qc 0 <= b)%Qc -> (Q2Qc 0 <= a + b)%Qc.
Proof. intros. qc_to_q. lra. Qed.

Lemma Qc_sum_zero (a b : Qc) :
  (Q2Qc 0 <= a)%Qc -> (Q2Qc 0 <= b)%Qc -> (a + b)%Qc = Q2Qc 0 ->
  a = Q2Qc 0 /\ b = Q2Qc 0.
Proof. intros. split; qc_to_q; lra. Qed.

Lemma Qc_square_zero (a : Qc) : (a * a)%Qc = Q2Qc 0 -> a = Q2Qc 0.
Proof.
  intros H. destruct (Qcmult_integral _ _ H); assumption.
Qed.

Lemma of_nat_nonneg (n : nat) : (Q2Qc 0 <= of_nat n)%Qc.
Proof.
  unfold of_nat, Qcle, Q2Qc. cbn [this]. rewrite !Qred_correct.
  change 0%Q with (inject_Z 0). rewrite <- Zle_Qle. lia.
Qed.

Lemma of_nat_pos (n : nat) : (0 < n)%nat -> (Q2Qc 0 < of_nat n)%Qc.
Proof.
  intros Hn. unfold of_nat, Qclt, Q2Qc. cbn [this]. rewrite !Qred_correct.
  change 0%Q with (inject_Z 0). rewrite <- Zlt_Qlt. lia.
Qed.

Lemma of_nat_S (n : nat) : of_nat (S n) = (of_nat n + Q2Qc 1)%Qc.
Proof.
  apply this_eq. rewrite this_plus. unfold of_nat, Q2Qc. cbn [this].
  rewrite !Qred_correct. rewrite Nat2Z.inj_succ. unfold Z.succ.
  rewrite inject_Z_plus. reflexivity.
Qed.

(* ================================================================= *)
(** ** Vectors *)

Section VectorLemmas.
Local Open Scope Qc_scope.

Lemma length_map2 {X Y Z : Type} (f : X -> Y -> Z) (u : list X) (v : list Y) :
  length (map2 f u v) = Nat.min (length u) (length v).
Proof.
  revert v. induction u as [|a u IH]; intros [|b v]; simpl; auto.
Qed.

Lemma length_zeros (n : nat) : length (zeros n) = n.
Proof. apply repeat_length. Qed.

Lemma length_ones (n : nat) : length (ones n) = n.
Proof. apply repeat_length. Qed.

Lemma length_vadd (u v : list Qc) :
  length (vadd u v) = Nat.min (length u) (length v).
Proof. apply length_map2. Qed.

Lemma length_vsub (u v : list Qc) :
  length (vsub u v) = Nat.min (length u) (length v).
Proof. apply length_map2. Qed.

Lemma length_vscale (a : Qc) (v : list Qc) : length (vscale a v) = length v.
Proof. apply length_map. Qed.

Lemma length_vopp (v : list Qc) : length (vopp v) = length v.
Proof. apply length_map. Qed.

Lemma length_mvmul (M : list (list Qc)) (v : list Qc) :
  length (mvmul M v) = length M.
Proof. apply length_map. Qed.

Lemma nth_zeros (i n : nat) : nth i (zeros n) 0 = 0.
Proof.
  unfold zeros. revert i. induction n; intros [|i]; simpl; auto.
Qed.

Lemma nth_map2 (f : Qc -> Qc -> Qc) (u v : list Qc) (i : nat) :
  f 0 0 = 0 -> length u = length v ->
  nth i (map2 f u v) 0 = f (nth i u 0) (nth i v 0).
Proof.
  intros Hf. revert v i.
  induction u as [|a u IH]; intros [|b v] [|i]; simpl; intros Hl;
    try discriminate; auto.
Qed.

Lemma nth_vadd (u v : list Qc) (i : nat) :
  length u = length v -> nth i (vadd u v) 0 = nth i u 0 + nth i v 0.
Proof. apply nth_map2. ring. Qed.

Lemma nth_vsub (u v : list Qc) (i : nat) :
  length u = length v -> nth i (vsub u v) 0 = nth i u 0 - nth i v 0.
Proof. apply nth_map2. ring. Qed.

Lemma nth_vscale (a : Qc) (u : list Qc) (i : nat) :
  nth i (vscale a u) 0 = a * nth i u 0.
Proof.
  unfold vscale. revert i. induction u as [|b u IH]; intros [|i]; simpl;
    auto; ring.
Qed.

Lemma nth_vopp (u : list Qc) (i : nat) : nth i (vopp u) 0 = - nth i u 0.
Proof.
  unfold vopp. revert i. induction u as [|b u IH]; intros [|i]; simpl;
    auto; ring.
Qed.

(** Two vectors of one length with the same coefficients are equal. *)
Lemma vec_nth_ext (u v : list Qc) :
  length u = length v -> (forall i, nth i u 0 = nth i v 0) -> u = v.
Proof.
  revert v. induction u as [|a u IH]; intros [|b v] Hl H;
    try discriminate; auto.
  f_equal.
  - apply (H O).
  - apply IH; [simpl in Hl; lia | intros i; apply (H (S i))].
Qed.

Lemma dot_nil_r (u : list Qc) : dot u [] = 0.
Proof. destruct u; reflexivity. Qed.

Lemma dot_comm (u v : list Qc) : dot u v = dot v u.
Proof.
  revert v. induction u as [|a u IH]; intros [|b v]; simpl; auto.
  rewrite IH. ring.
Qed.

Lemma dot_zeros_l (n : nat) (v : list Qc) : dot (zeros n) v = 0.
Proof.
  revert v. induction n; intros [|b v]; simpl; auto.
  unfold zeros in IHn. rewrite IHn. ring.
Qed.

Lemma dot_zeros_r (n : nat) (v : list Qc) : dot v (zeros n) = 0.
Proof. rewrite dot_comm. apply dot_zeros_l. Qed.

Lemma dot_vadd_l (u v x : list Qc) :
  length u = length v -> dot (vadd u v) x = dot u x + dot v x.
Proof.
  revert v x. induction u as [|a u IH]; intros [|b v] [|c x] Hl;
    try discriminate; simpl; try ring.
  unfold vadd in IH. rewrite IH by (simpl in Hl; lia). ring.
Qed.

Lemma dot_vsub_l (u v x : list Qc) :
  length u = length v -> dot (vsub u v) x = dot u x - dot v x.
Proof.
  revert v x. induction u as [|a u IH]; intros [|b v] [|c x] Hl;
    try discriminate; simpl; try ring.
  unfold vsub in IH. rewrite IH by (simpl in Hl; lia). ring.
Qed.

Lemma dot_vscale_l (a : Qc) (u x : list Qc) :
  dot (vscale a u) x = a * dot u x.
Proof.
  revert x. induction u as [|b u IH]; intros [|c x]; simpl; try ring.
  unfold vscale in IH. rewrite IH. ring.
Qed.

Lemma dot_vopp_l (u x : list Qc) : dot (vopp u) x = - dot u x.
Proof.
  revert x. induction u as [|b u IH]; intros [|c x]; simpl; try ring.
  unfold vopp in IH. rewrite IH. ring.
Qed.

Lemma dot_vadd_r (x u v : list Qc) :
  length u = length v -> dot x (vadd u v) = dot x u + dot x v.
Proof.
  intros. rewrite dot_comm, dot_vadd_l by assumption.
  rewrite (dot_comm u), (dot_comm v). reflexivity.
Qed.

Lemma dot_vsub_r (x u v : list Qc) :
  length u = length v -> dot x (vsub u v) = dot x u - dot x v.
Proof.
  intros. rewrite dot_comm, dot_vsub_l by assumption.
  rewrite (dot_comm u), (dot_comm v). reflexivity.
Qed.

Lemma dot_vscale_r (a : Qc) (x u : list Qc) :
  dot x (vscale a u) = a * dot x u.
Proof. rewrite dot_comm, dot_vscale_l, (dot_comm u). reflexivity. Qed.

Lemma dot_vopp_r (x u : list Qc) : dot x (vopp u) = - dot x u.
Proof. rewrite dot_comm, dot_vopp_l, (dot_comm u). reflexivity. Qed.

Lemma dot_app (u1 u2 v1 v2 : list Qc) :
  length u1 = length v1 ->
  dot (u1 ++ u2) (v1 ++ v2) = dot u1 v1 + dot u2 v2.
Proof.
  revert v1. induction u1 as [|a u1 IH]; intros [|b v1] Hl;
    try discriminate; simpl.
  - ring.
  - rewrite IH by (simpl in Hl; lia). ring.
Qed.

(** The unit vector [e_i] of length [n]. *)
Lemma dot_unit (n i : nat) (u : list Qc) :
  (i < n)%nat ->
  dot u (firstn i (zeros n) ++ 1 :: skipn (S i) (zeros n)) = nth i u 0.
Proof.
  revert i u. induction n; intros i u Hi; [lia|].
  destruct i as [|i]; destruct u as [|a u]; simpl; auto.
  - fold (zeros n). rewrite dot_zeros_r. ring.
  - fold (zeros n). rewrite IHn by lia. ring.
Qed.

(** Two vectors of length [n] with the same products against every
    vector of length [n] are equal. *)
Lemma vec_ext (n : nat) (u v : list Qc) :
  length u = n -> length v = n ->
  (forall x, length x = n -> dot u x = dot v x) -> u = v.
Proof.
  intros Hu Hv H. apply vec_nth_ext; [congruence|].
  intros i. destruct (Nat.lt_ge_cases i n) as [Hi|Hi].
  - rewrite <- (dot_unit n i u Hi), <- (dot_unit n i v Hi). apply H.
    rewrite length_app, length_firstn. cbn [length].
    rewrite length_skipn, length_zeros. lia.
  - rewrite !nth_overflow by lia. reflexivity.
Qed.

Lemma norm2_nonneg (v : list Qc) : 0 <= norm2 v.
Proof.
  unfold norm2. induction v as [|a v IH]; simpl.
  - apply Qcle_refl.
  - apply Qc_sum_nonneg; [apply Qc_square_nonneg | assumption].
Qed.

Lemma norm2_zero (v : list Qc) : norm2 v = 0 -> v = zeros (length v).
Proof.
  unfold norm2. induction v as [|a v IH]; simpl; intros H; auto.
  apply Qc_sum_zero in H;
    [| apply Qc_square_nonneg | apply (norm2_nonneg v)].
  destruct H as [Ha Hv]. apply Qc_square_zero in Ha.
  rewrite Ha. unfold zeros in *. simpl. f_equal. auto.
Qed.

Lemma vsub_zeros_eq (n : nat) (u v : list Qc) :
  length u = n -> length v = n -> vsub u v = zeros n -> u = v.
Proof.
  intros Hu Hv H. apply vec_nth_ext; [congruence|]. intros i.
  assert (Hi : nth i (vsub u v) 0 = 0) by (rewrite H; apply nth_zeros).
  rewrite nth_vsub in Hi by congruence.
  qc_to_q. lra.
Qed.

Lemma vsub_self (u : list Qc) : vsub u u = zeros (length u).
Proof.
  apply vec_nth_ext.
  - rewrite length_vsub, length_zeros. lia.
  - intros i. rewrite nth_vsub, nth_zeros by reflexivity. ring.
Qed.

Lemma vscale_constant (w : Qc) (v : list Qc) :
  map2 Qcmult (constant (length v) w) v = vscale w v.
Proof.
  unfold constant. induction v as [|a v IH]; simpl; auto.
  rewrite IH. reflexivity.
Qed.

Lemma dot_map2_mult (u d x : list Qc) :
  dot (map2 Qcmult u d) x = dot u (map2 Qcmult d x).
Proof.
  revert d x. induction u as [|a u IH]; intros [|b d] [|c x]; simpl; auto.
  rewrite IH. ring.
Qed.

End VectorLemmas.

Create Rewrite HintDb lengths.

#[export] Hint Rewrite @length_map2 length_zeros length_ones length_vadd
  length_vsub length_vscale length_vopp length_mvmul @length_map
  @length_app @repeat_length @length_firstn @length_skipn @length_seq
  : lengths.

(** [u = v] for two vectors of one length, coefficient by coefficient. *)
Ltac vec_ring :=
  apply vec_nth_ext;
  [ autorewrite with lengths; try lia
  | let i := fresh "i" in
    intros i;
    repeat (first [ rewrite nth_vadd by (autorewrite with lengths; lia)
                  | rewrite nth_vsub by (autorewrite with lengths; lia)
                  | rewrite nth_vscale
                  | rewrite nth_vopp
                  | rewrite nth_zeros ]);
    try ring ].


(** ** The specification's base face and variance, and the code's *)

Lemma effective_base_face_eq (mm : MorphableModel) (img : image) :
  effective_base_face mm img
  = match image_base_face img with
    | Some face => base_face_or_mean mm face
    | None => []
    end.
Proof.
  unfold effective_base_face, base_face_or_mean.
  destruct (image_base_face img) as [[|x face]|]; reflexivity.
Qed.

Lemma variance_eq (d m : option Qc) :
  (detector_variance d + model_variance m)%Qc = sigma_squared_2D d m.
Proof. destruct d, m; reflexivity. Qed.

Lemma mat_eqb_eq (X Y : list (list Qc)) : mat_eqb X Y = true -> X = Y.
Proof.
  revert Y. induction X as [|r X IH]; intros [|r' Y]; simpl; try congruence.
  rewrite andb_true_iff. intros [Hr HX].
  apply vec_eqb_eq in Hr. apply IH in HX. congruence.
Qed.


(* ================================================================= *)
(** ** Matrices *)

Section MatrixLemmas.
Local Open Scope Qc_scope.

Lemma lincomb_nil_r (n : nat) (z : list Qc) : lincomb n z [] = zeros n.
Proof. destruct z; reflexivity. Qed.

Lemma length_lincomb (n : nat) (z : list Qc) (M : list (list Qc)) :
  Forall (fun row => length row = n) M -> length (lincomb n z M) = n.
Proof.
  intros HM. revert z. induction HM as [|row M Hrow HM IH]; intros [|a z];
    simpl; try apply length_zeros.
  rewrite length_vadd, length_vscale, IH. lia.
Qed.

Lemma dot_lincomb (n : nat) (z : list Qc) (M : list (list Qc)) (x : list Qc) :
  Forall (fun row => length row = n) M ->
  dot (lincomb n z M) x = dot z (mvmul M x).
Proof.
  intros HM. revert z. induction HM as [|row M Hrow HM IH]; intros [|a z];
    simpl; try apply dot_zeros_l.
  rewrite dot_vadd_l, dot_vscale_l, IH; [reflexivity|].
  rewrite length_vscale, length_lincomb by assumption. assumption.
Qed.

Lemma nth_mvmul (M : list (list Qc)) (x : list Qc) (i : nat) :
  nth i (mvmul M x) 0 = dot (nth i M []) x.
Proof.
  revert i. induction M as [|row M IH]; intros [|i]; simpl; auto.
Qed.

Lemma mvmul_mmul (n : nat) (X Y : list (list Qc)) (x : list Qc) :
  Forall (fun row => length row = n) Y ->
  mvmul (mmul n X Y) x = mvmul X (mvmul Y x).
Proof.
  intros HY. unfold mvmul, mmul. rewrite map_map. apply map_ext.
  intros xrow. apply dot_lincomb. assumption.
Qed.

Lemma mvmul_mul_diag_r (T : list (list Qc)) (d u : list Qc) :
  mvmul (mul_diag_r T d) u = mvmul T (map2 Qcmult d u).
Proof.
  unfold mvmul, mul_diag_r. rewrite map_map. apply map_ext.
  intros row. apply dot_map2_mult.
Qed.

Lemma mvmul_mopp (T : list (list Qc)) (u : list Qc) :
  mvmul (mopp T) u = vopp (mvmul T u).
Proof.
  unfold mvmul, mopp, vopp. rewrite !map_map. apply map_ext.
  intros row. apply dot_vopp_l.
Qed.

Lemma mvmul_mscale (a : Qc) (X : list (list Qc)) (x : list Qc) :
  mvmul (mscale a X) x = vscale a (mvmul X x).
Proof.
  unfold mvmul, mscale, vscale. rewrite !map_map. apply map_ext.
  intros row. apply dot_vscale_l.
Qed.

Lemma mvmul_madd (m n : nat) (X Y : list (list Qc)) (x : list Qc) :
  is_matrix m n X -> is_matrix m n Y ->
  mvmul (madd X Y) x = vadd (mvmul X x) (mvmul Y x).
Proof.
  intros [HX HXr] [HY HYr]. subst m. revert Y HY HYr.
  induction HXr as [|r X Hr HXr IH]; intros [|r' Y] HY HYr;
    try discriminate; simpl; auto.
  inversion HYr; subst. f_equal.
  - apply dot_vadd_l. congruence.
  - apply IH; [simpl in HY; lia | assumption].
Qed.

Lemma mvmul_cons_zero (M : list (list Qc)) (a : Qc) (x : list Qc) :
  mvmul (map (cons 0) M) (a :: x) = mvmul M x.
Proof.
  unfold mvmul. rewrite map_map. apply map_ext. intros row. simpl. ring.
Qed.

Lemma mvmul_identity (x : list Qc) : mvmul (identity (length x)) x = x.
Proof.
  induction x as [|a x IH]; simpl; auto.
  rewrite dot_zeros_l, mvmul_cons_zero, IH. f_equal. ring.
Qed.

Lemma identity_is_matrix (n : nat) : is_matrix n n (identity n).
Proof.
  induction n as [|n [IH1 IH2]]; split; simpl; auto.
  - rewrite length_map. auto.
  - constructor.
    + simpl. rewrite length_zeros. reflexivity.
    + apply Forall_map. eapply Forall_impl; [|exact IH2].
      intros row Hrow. simpl. auto.
Qed.

Lemma mscale_is_matrix (m n : nat) (a : Qc) (X : list (list Qc)) :
  is_matrix m n X -> is_matrix m n (mscale a X).
Proof.
  intros [H1 H2]. split; unfold mscale.
  - rewrite length_map. assumption.
  - apply Forall_map. eapply Forall_impl; [|exact H2].
    intros row Hrow. simpl. rewrite length_vscale. assumption.
Qed.

Lemma madd_is_matrix (m n : nat) (X Y : list (list Qc)) :
  is_matrix m n X -> is_matrix m n Y -> is_matrix m n (madd X Y).
Proof.
  intros [HX HXr] [HY HYr]. subst m. revert Y HY HYr.
  induction HXr as [|r X Hr HXr IH]; intros [|r' Y] HY HYr;
    try discriminate; simpl.
  - split; auto.
  - inversion HYr; subst.
    destruct (IH Y) as [IH1 IH2]; [simpl in HY; lia | assumption |].
    split; simpl.
    + f_equal. exact IH1.
    + constructor; [|assumption]. rewrite length_vadd.
      match goal with H : length r' = _ |- _ => rewrite H end.
      apply Nat.min_id.
Qed.

Lemma mmul_is_matrix (n : nat) (X Y : list (list Qc)) :
  Forall (fun row => length row = n) Y -> is_matrix (length X) n (mmul n X Y).
Proof.
  intros HY. split; unfold mmul.
  - apply length_map.
  - apply Forall_map. apply Forall_forall. intros row _.
    apply length_lincomb. assumption.
Qed.

Lemma mul_diag_r_is_matrix (m n : nat) (T : list (list Qc)) (d : list Qc) :
  is_matrix m n T -> length d = n -> is_matrix m n (mul_diag_r T d).
Proof.
  intros [H1 H2] Hd. split; unfold mul_diag_r.
  - rewrite length_map. assumption.
  - apply Forall_map. eapply Forall_impl; [|exact H2].
    intros row Hrow. simpl in *. rewrite length_map2. lia.
Qed.

Lemma mopp_is_matrix (m n : nat) (T : list (list Qc)) :
  is_matrix m n T -> is_matrix m n (mopp T).
Proof.
  intros [H1 H2]. split; unfold mopp.
  - rewrite length_map. assumption.
  - apply Forall_map. eapply Forall_impl; [|exact H2].
    intros row Hrow. simpl. rewrite length_vopp. assumption.
Qed.

Lemma map2_cons_lengths (k : nat) (row : list Qc) (T : list (list Qc)) :
  Forall (fun c => length c = k) T ->
  Forall (fun c => length c = S k) (map2 cons row T).
Proof.
  intros HT. revert row. induction HT as [|c T Hc HT IH]; intros [|a row];
    simpl; constructor; simpl; auto.
Qed.

Lemma transpose_is_matrix (n : nat) (A : list (list Qc)) :
  Forall (fun row => length row = n) A ->
  is_matrix n (length A) (transpose n A).
Proof.
  induction 1 as [|row A Hrow HA [IH1 IH2]]; simpl.
  - split; [apply repeat_length|]. apply Forall_forall.
    intros r Hr. apply repeat_spec in Hr. subst. reflexivity.
  - split.
    + rewrite length_map2. lia.
    + apply map2_cons_lengths. assumption.
Qed.

Lemma mvmul_map2_cons (row : list Qc) (T : list (list Qc)) (a : Qc)
    (u : list Qc) :
  length row = length T ->
  mvmul (map2 cons row T) (a :: u) = vadd (vscale a row) (mvmul T u).
Proof.
  revert T. induction row as [|r row IH]; intros [|c T] Hl;
    try discriminate; simpl; auto.
  f_equal; [ring|]. apply IH. simpl in Hl. lia.
Qed.

Lemma mvmul_nil_r (M : list (list Qc)) : mvmul M [] = zeros (length M).
Proof.
  induction M as [|row M IH]; simpl; auto.
  rewrite dot_nil_r. unfold zeros in *. simpl. f_equal. assumption.
Qed.

(** [A^T u] is the combination of the rows of [A] with coefficients [u]. *)
Lemma mvmul_transpose (n : nat) (A : list (list Qc)) (u : list Qc) :
  Forall (fun row => length row = n) A ->
  mvmul (transpose n A) u = lincomb n u A.
Proof.
  intros HA. revert u. induction HA as [|row A Hrow HA IH]; intros u.
  - rewrite lincomb_nil_r. simpl. unfold mvmul. rewrite map_repeat.
    reflexivity.
  - destruct u as [|a u]; simpl.
    + rewrite mvmul_nil_r, length_map2.
      destruct (transpose_is_matrix n A HA) as [Hl _]. rewrite Hl.
      f_equal. lia.
    + rewrite mvmul_map2_cons, IH; [reflexivity|].
      destruct (transpose_is_matrix n A HA) as [Hl _]. congruence.
Qed.

(** Two [m] by [n] matrices that act alike on every vector are equal. *)
Lemma mat_ext (m n : nat) (X Y : list (list Qc)) :
  is_matrix m n X -> is_matrix m n Y ->
  (forall x, length x = n -> mvmul X x = mvmul Y x) -> X = Y.
Proof.
  intros [HX HXr] [HY HYr]. subst m. revert Y HY HYr.
  induction HXr as [|r X Hr HXr IH]; intros [|r' Y] HY HYr H;
    try discriminate; auto.
  inversion HYr; subst. f_equal.
  - apply (vec_ext (length r)); auto.
    intros x Hx. specialize (H x Hx). simpl in H. congruence.
  - apply IH; [simpl in HY; lia | assumption |].
    intros x Hx. specialize (H x Hx). simpl in H. congruence.
Qed.

End MatrixLemmas.


(* ================================================================= *)
(** ** The regularised normal equations as a quadratic form *)

Section NormalEquations.
Local Open Scope Qc_scope.

Variables (m n : nat) (A : list (list Qc)) (b : list Qc) (w lam : Qc).
Hypothesis HA : is_matrix m n A.

Lemma normal_matrix_is_matrix :
  is_matrix n n (fst (normal_equations n A b (constant m w) lam)).
Proof.
  destruct HA as [Hm Hr]. simpl. apply madd_is_matrix.
  - pose proof (mmul_is_matrix n
      (mul_diag_r (transpose n A) (constant m w)) A Hr) as H.
    unfold mul_diag_r in H at 1. rewrite length_map in H.
    destruct (transpose_is_matrix n A Hr) as [Hl _]. rewrite Hl in H.
    exact H.
  - apply mscale_is_matrix, identity_is_matrix.
Qed.

Lemma gram_apply (x : list Qc) :
  mvmul (mmul n (mul_diag_r (transpose n A) (constant m w)) A) x
  = lincomb n (vscale w (mvmul A x)) A.
Proof.
  destruct HA as [Hm Hr].
  rewrite mvmul_mmul, mvmul_mul_diag_r, mvmul_transpose by assumption.
  rewrite <- Hm, <- (length_mvmul A x), vscale_constant. reflexivity.
Qed.

Lemma normal_matrix_apply (x : list Qc) :
  length x = n ->
  mvmul (fst (normal_equations n A b (constant m w) lam)) x
  = vadd (lincomb n (vscale w (mvmul A x)) A) (vscale lam x).
Proof.
  intros Hx. pose proof normal_matrix_is_matrix as HM.
  destruct HA as [Hm Hr]. simpl in *.
  rewrite (mvmul_madd n n).
  - rewrite gram_apply, mvmul_mscale. subst n.
    rewrite mvmul_identity. reflexivity.
  - pose proof (mmul_is_matrix n
      (mul_diag_r (transpose n A) (constant m w)) A Hr) as H.
    unfold mul_diag_r in H at 1. rewrite length_map in H.
    destruct (transpose_is_matrix n A Hr) as [Hl _]. rewrite Hl in H.
    exact H.
  - apply mscale_is_matrix, identity_is_matrix.
Qed.

Lemma normal_rhs_eq :
  length b = m ->
  snd (normal_equations n A b (constant m w) lam)
  = vopp (lincomb n (vscale w b) A).
Proof.
  intros Hb. destruct HA as [Hm Hr]. simpl.
  assert (E : mul_diag_r (mopp (transpose n A)) (constant m w)
              = mopp (mul_diag_r (transpose n A) (constant m w))).
  { unfold mul_diag_r, mopp. rewrite !map_map. apply map_ext.
    intros row. unfold vopp. generalize (constant m w).
    induction row as [|a row IH]; intros [|c l]; simpl; auto.
    f_equal; [ring | apply IH]. }
  rewrite E, mvmul_mopp, mvmul_mul_diag_r, mvmul_transpose by assumption.
  rewrite <- Hb, vscale_constant. reflexivity.
Qed.

Lemma length_normal_rhs :
  length (snd (normal_equations n A b (constant m w) lam)) = n.
Proof.
  destruct HA as [Hm Hr]. simpl. rewrite length_mvmul.
  unfold mul_diag_r, mopp. rewrite !length_map.
  destruct (transpose_is_matrix n A Hr) as [Hl _]. exact Hl.
Qed.

(** [z^T M x = w (A x).(A z) + lam x.z]. *)
Lemma normal_form (x z : list Qc) :
  length x = n ->
  dot (mvmul (fst (normal_equations n A b (constant m w) lam)) x) z
  = w * dot (mvmul A x) (mvmul A z) + lam * dot x z.
Proof.
  intros Hx. rewrite normal_matrix_apply by assumption.
  destruct HA as [Hm Hr].
  rewrite dot_vadd_l.
  - rewrite dot_lincomb, !dot_vscale_l by assumption. reflexivity.
  - rewrite length_lincomb, length_vscale by assumption. congruence.
Qed.

(** [rhs.z = - w b.(A z)]. *)
Lemma normal_rhs_form (z : list Qc) :
  length b = m ->
  dot (snd (normal_equations n A b (constant m w) lam)) z
  = - (w * dot b (mvmul A z)).
Proof.
  intros Hb. rewrite normal_rhs_eq by assumption. destruct HA as [Hm Hr].
  rewrite dot_vopp_l, dot_lincomb, dot_vscale_l by assumption.
  reflexivity.
Qed.

End NormalEquations.


(* ================================================================= *)
(** ** The solver returns a solution whenever there is one *)

Section SolverLemmas.
Local Open Scope Qc_scope.

Lemma find_pivot_None (sys : list equation) :
  find_pivot sys = None -> Forall (fun e => hd 0 (fst e) = 0) sys.
Proof.
  induction sys as [|e sys IH]; simpl; intros H; [constructor|].
  destruct (is_zero (hd 0 (fst e))) eqn:Hz; [|discriminate].
  destruct (find_pivot sys) as [[p others]|]; [discriminate|].
  constructor; [apply is_zero_true; assumption | auto].
Qed.

Lemma find_pivot_Some (sys : list equation) (p : equation)
    (others : list equation) :
  find_pivot sys = Some (p, others) ->
  Permutation sys (p :: others) /\ hd 0 (fst p) <> 0.
Proof.
  revert p others. induction sys as [|e sys IH]; simpl; intros p others H;
    [discriminate|].
  destruct (is_zero (hd 0 (fst e))) eqn:Hz.
  - destruct (find_pivot sys) as [[p' others']|]; [|discriminate].
    inversion H; subst. destruct (IH p others' eq_refl) as [HP Hp].
    split; [|assumption].
    apply Permutation_trans with (e :: p :: others');
      [constructor; assumption | apply perm_swap].
  - inversion H; subst. split; [apply Permutation_refl|].
    apply is_zero_false. assumption.
Qed.

Lemma length_solve (n : nat) (sys : list equation) :
  length (solve n sys) = n.
Proof.
  revert sys. induction n as [|n IH]; intros sys; simpl; auto.
  destruct (find_pivot sys) as [[p others]|]; simpl; rewrite IH; auto.
Qed.

Lemma dot_cons_r (row : list Qc) (x1 : Qc) (xs : list Qc) :
  dot row (x1 :: xs) = hd 0 row * x1 + dot (tl row) xs.
Proof. destruct row; simpl; ring. Qed.

Lemma vadd_swap (u v w : list Qc) :
  vadd u (vadd v w) = vadd v (vadd u w).
Proof.
  unfold vadd. revert v w.
  induction u as [|a u IH]; intros [|b v] [|c w]; simpl; auto.
  f_equal; [ring | apply IH].
Qed.

(** Reordering the equations reorders the coefficients of a
    combination. *)
Lemma combination_perm (n : nat) (sys sys' : list equation) :
  Permutation sys sys' ->
  forall z', length z' = length sys' ->
  exists z, length z = length sys /\
    lincomb n z (map fst sys) = lincomb n z' (map fst sys') /\
    dot z (map snd sys) = dot z' (map snd sys').
Proof.
  induction 1 as [| e l l' HP IH | e1 e2 l | l l' l'' HP1 IH1 HP2 IH2];
    intros z' Hz'.
  - exists []. destruct z'; [auto | discriminate].
  - destruct z' as [|a z']; [discriminate|].
    destruct (IH z') as (z & Hl & Hc & Hd); [simpl in Hz'; lia|].
    exists (a :: z). simpl. rewrite Hc, Hd. auto.
  - destruct z' as [|a [|b z']]; try discriminate.
    exists (b :: a :: z'). simpl in *. split; [lia|]. split.
    + apply vadd_swap.
    + ring.
  - destruct (IH2 z' Hz') as (z1 & Hl1 & Hc1 & Hd1).
    destruct (IH1 z1 Hl1) as (z & Hl & Hc & Hd).
    exists z. rewrite Hc, Hd. auto.
Qed.

Lemma certificate_perm (n : nat) (sys sys' : list equation) :
  Permutation sys sys' ->
  (exists z', inconsistency_certificate n sys' z') ->
  exists z, inconsistency_certificate n sys z.
Proof.
  intros HP [z' (Hl' & Hc' & Hd')].
  destruct (combination_perm n sys sys' HP z' Hl') as (z & Hl & Hc & Hd).
  exists z. unfold inconsistency_certificate. rewrite Hc, Hd. auto.
Qed.

Lemma solves_perm (sys sys' : list equation) (x : list Qc) :
  Permutation sys sys' -> solves sys' x -> solves sys x.
Proof.
  intros HP H. unfold solves in *. rewrite Forall_forall in *.
  intros e He. apply H. eapply Permutation_in; eassumption.
Qed.

Lemma lincomb_heads_tails (n : nat) (z : list Qc) (M : list (list Qc)) :
  Forall (fun row => length row = S n) M ->
  lincomb (S n) z M
  = dot z (map (hd 0) M) :: lincomb n z (map (@tl Qc) M).
Proof.
  intros HM. revert z. induction HM as [|row M Hrow HM IH]; intros [|a z];
    simpl; auto.
  rewrite IH. destruct row as [|h t]; [discriminate|]. reflexivity.
Qed.

Lemma lincomb_eliminated (n : nat) (z : list Qc) (p : equation)
    (l : list equation) :
  length (tl (fst p)) = n ->
  Forall (fun e => length (tl (fst e)) = n) l ->
  lincomb n z (map fst (map (eliminate p) l))
  = vsub (lincomb n z (map (fun e => tl (fst e)) l))
         (vscale (dot z (map (fun e => hd 0 (fst e) / hd 0 (fst p)) l))
                 (tl (fst p))).
Proof.
  intros Hp Hl. revert z.
  assert (Hbase : zeros n = vsub (zeros n) (vscale 0 (tl (fst p)))).
  { vec_ring. }
  induction Hl as [|e l He Hl IH]; intros [|a z]; simpl; auto.
  rewrite IH.
  assert (HL : length (lincomb n z (map (fun e => tl (fst e)) l)) = n).
  { apply length_lincomb. apply Forall_map. assumption. }
  apply vec_nth_ext.
  - autorewrite with lengths. rewrite HL. lia.
  - intros i.
    rewrite nth_vadd by (autorewrite with lengths; rewrite HL; lia).
    rewrite nth_vscale.
    rewrite !nth_vsub by (autorewrite with lengths; rewrite ?HL; lia).
    rewrite nth_vadd by (autorewrite with lengths; rewrite HL; lia).
    rewrite !nth_vscale. ring.
Qed.

Lemma dot_eliminated (z : list Qc) (p : equation) (l : list equation) :
  dot z (map snd (map (eliminate p) l))
  = dot z (map snd l)
    - snd p * dot z (map (fun e => hd 0 (fst e) / hd 0 (fst p)) l).
Proof.
  revert z. induction l as [|e l IH]; intros [|a z]; simpl; try ring.
  rewrite IH. ring.
Qed.

Lemma dot_heads (z : list Qc) (a : Qc) (l : list equation) :
  a <> 0 ->
  dot z (map (fun e => hd 0 (fst e)) l)
  = a * dot z (map (fun e => hd 0 (fst e) / a) l).
Proof.
  intros Ha. revert z. induction l as [|e l IH]; intros [|b z]; simpl;
    try ring.
  rewrite IH. field. assumption.
Qed.

Lemma back_substitution (a h pr dp de re : Qc) :
  a <> 0 ->
  de - h / a * dp = re - h / a * pr ->
  h * ((pr - dp) / a) + de = re.
Proof.
  intros Ha H.
  assert (E : de = re - h / a * pr + h / a * dp) by (rewrite <- H; ring).
  rewrite E. field. assumption.
Qed.

Lemma all_zero_or_not (l : list Qc) :
  Forall (fun r => r = 0) l \/
  exists z, length z = length l /\ dot z l <> 0.
Proof.
  induction l as [|r l [IH|[z [Hl Hz]]]].
  - left. constructor.
  - destruct (Qc_eq_dec r 0) as [Hr|Hr].
    + left. constructor; assumption.
    + right. exists (1 :: zeros (length l)). simpl.
      rewrite length_zeros, dot_zeros_l. split; [reflexivity|].
      intros E. apply Hr. rewrite <- E. ring.
  - right. exists (0 :: z). simpl. split; [congruence|].
    intros E. apply Hz. rewrite <- E. ring.
Qed.

(** Either the solver's vector solves the system, or some combination
    of the equations is contradictory. *)
Theorem solve_or_certificate (n : nat) (sys : list equation) :
  system_of_width n sys ->
  solves sys (solve n sys) \/ exists z, inconsistency_certificate n sys z.
Proof.
  revert sys. induction n as [|n IH]; intros sys Hw.
  - simpl. destruct (all_zero_or_not (map snd sys)) as [H|[z [Hl Hz]]].
    + left. unfold solves. rewrite Forall_map in H.
      eapply Forall_impl; [|exact H]. intros e He. simpl in *.
      rewrite dot_nil_r. congruence.
    + right. exists z. rewrite length_map in Hl. repeat split; auto.
      clear Hz Hl. revert z.
      induction Hw as [|e sys He Hw IHs]; intros [|a z]; simpl; auto.
      destruct (fst e); [reflexivity | discriminate].
  - simpl. destruct (find_pivot sys) as [[p others]|] eqn:Hp.
    + destruct (find_pivot_Some _ _ _ Hp) as [HP Ha].
      assert (Hw' : system_of_width (S n) (p :: others)).
      { unfold system_of_width in *. rewrite Forall_forall in *.
        intros e He. apply Hw. eapply Permutation_in;
          [apply Permutation_sym; exact HP | exact He]. }
      inversion Hw' as [|? ? Hpw How]; subst.
      assert (Hpt : length (tl (fst p)) = n).
      { destruct (fst p); [discriminate | simpl in *; lia]. }
      assert (Hot : Forall (fun e => length (tl (fst e)) = n) others).
      { eapply Forall_impl; [|exact How]. intros e He. simpl in *.
        destruct (fst e); [discriminate | simpl in *; lia]. }
      assert (Hr : system_of_width n (map (eliminate p) others)).
      { unfold system_of_width. apply Forall_map.
        eapply Forall_impl; [|exact Hot]. intros e He. simpl in *.
        rewrite length_vsub, length_vscale. lia. }
      destruct (IH _ Hr) as [Hs|[z' (Hl' & Hc' & Hd')]].
      * left. apply (solves_perm _ _ _ HP). constructor.
        -- rewrite dot_cons_r. field. assumption.
        -- unfold solves in Hs. rewrite Forall_map in Hs.
           rewrite Forall_forall in *. intros e He.
           specialize (Hs e He). specialize (Hot e He). simpl in Hs, Hot.
           rewrite dot_cons_r.
           rewrite dot_vsub_l, dot_vscale_l in Hs
             by (rewrite length_vscale; congruence).
           apply back_substitution; assumption.
      * right. apply (certificate_perm _ _ _ HP).
        rewrite length_map in Hl'.
        rewrite lincomb_eliminated in Hc' by assumption.
        rewrite dot_eliminated in Hd'.
        set (s := dot z' (map (fun e => hd 0 (fst e) / hd 0 (fst p)) others))
          in *.
        assert (HL : length (lincomb n z'
                       (map (fun e => tl (fst e)) others)) = n).
        { apply length_lincomb. apply Forall_map. assumption. }
        apply vsub_zeros_eq in Hc';
          [| assumption | rewrite length_vscale; assumption].
        exists (- s :: z'). repeat split.
        -- simpl. congruence.
        -- cbn [map lincomb].
           rewrite lincomb_heads_tails by (rewrite Forall_map; exact How).
           rewrite !map_map, Hc'.
           rewrite (dot_heads z' (hd 0 (fst p))) by assumption.
           fold s.
           destruct (fst p) as [|a pt] eqn:Efp; [discriminate|].
           cbn [hd tl vscale map vadd map2] in *. unfold zeros. simpl.
           f_equal; [ring|]. fold (zeros n).
           fold (vscale (- s) pt). fold (vscale s pt).
           fold (vadd (vscale (- s) pt) (vscale s pt)).
           vec_ring.
        -- simpl. intros E. apply Hd'. rewrite <- E. ring.
    + pose proof (find_pivot_None _ Hp) as Hz.
      assert (Hr : system_of_width n (map drop_column sys)).
      { unfold system_of_width in *. apply Forall_map.
        eapply Forall_impl; [|exact Hw]. intros e He. simpl in *.
        destruct (fst e); [discriminate | simpl in *; lia]. }
      destruct (IH _ Hr) as [Hs|[z (Hl & Hc & Hd)]].
      * left. unfold solves in *. rewrite Forall_map in Hs.
        rewrite Forall_forall in *. intros e He.
        specialize (Hs e He). specialize (Hz e He). simpl in Hs, Hz.
        rewrite dot_cons_r, Hz, Hs. ring.
      * right. exists z. rewrite length_map in Hl.
        rewrite !map_map in Hc, Hd. simpl in Hc, Hd.
        repeat split; auto.
        rewrite lincomb_heads_tails by (rewrite Forall_map; exact Hw).
        rewrite !map_map. rewrite Hc. unfold zeros. simpl. f_equal.
        clear - Hz. revert z.
        induction Hz as [|e sys He Hz IHz]; intros [|a z]; simpl; auto.
        rewrite He, IHz. ring.
Qed.

End SolverLemmas.


Section SolverContract.
Local Open Scope Qc_scope.

Lemma map_fst_combine {X Y : Type} (l : list X) (l' : list Y) :
  length l = length l' -> map fst (combine l l') = l.
Proof.
  revert l'. induction l as [|a l IH]; intros [|b l'] H; try discriminate;
    simpl; auto.
  f_equal. apply IH. simpl in H. lia.
Qed.

Lemma map_snd_combine {X Y : Type} (l : list X) (l' : list Y) :
  length l = length l' -> map snd (combine l l') = l'.
Proof.
  revert l'. induction l as [|a l IH]; intros [|b l'] H; try discriminate;
    simpl; auto.
  f_equal. apply IH. simpl in H. lia.
Qed.

Lemma solves_combine (M : list (list Qc)) (r c : list Qc) :
  length M = length r -> (solves (combine M r) c <-> mvmul M c = r).
Proof.
  revert r. induction M as [|row M IH]; intros [|a r] H; try discriminate.
  - split; [reflexivity | constructor].
  - simpl in H. simpl. split; intros Hs.
    + inversion Hs; subst. simpl in *. f_equal; [assumption|].
      apply IH; [lia | assumption].
    + inversion Hs; subst. constructor; [reflexivity|].
      apply IH; [lia | reflexivity].
Qed.

Lemma system_of_width_combine (m n : nat) (M : list (list Qc)) (r : list Qc) :
  is_matrix m n M -> system_of_width n (combine M r).
Proof.
  intros [_ HM]. revert r. induction HM as [|row M Hrow HM IH]; intros [|a r];
    simpl; constructor; auto. apply IH.
Qed.

Lemma length_colPivHouseholderQr_solve (n : nat) (M : list (list Qc))
    (r : list Qc) :
  length (colPivHouseholderQr_solve n M r) = n.
Proof. apply length_solve. Qed.

(** A certificate of inconsistency of [M c = r]: a vector [z] with
    [z^T M = 0] and [z.r <> 0]. *)
Lemma solve_or_left_kernel (m n : nat) (M : list (list Qc)) (r : list Qc) :
  is_matrix m n M -> length r = m ->
  mvmul M (colPivHouseholderQr_solve n M r) = r \/
  exists z, length z = m /\ lincomb n z M = zeros n /\ dot z r <> 0.
Proof.
  intros HM Hr. pose proof (system_of_width_combine m n M r HM) as Hw.
  destruct HM as [Hm HM].
  destruct (solve_or_certificate n _ Hw) as [Hs|[z (Hl & Hc & Hd)]].
  - left. apply solves_combine; [congruence | exact Hs].
  - right. exists z.
    rewrite map_fst_combine in Hc by congruence.
    rewrite map_snd_combine in Hd by congruence.
    rewrite length_combine in Hl. repeat split; auto. lia.
Qed.

(** The solver solves every system that has a solution. *)
Theorem solve_consistent (m n : nat) (M : list (list Qc)) (r c : list Qc) :
  is_matrix m n M -> mvmul M c = r ->
  mvmul M (colPivHouseholderQr_solve n M r) = r.
Proof.
  intros HM Hc.
  assert (Hr : length r = m).
  { rewrite <- Hc, length_mvmul. apply HM. }
  destruct (solve_or_left_kernel m n M r HM Hr) as [Hs|[z (Hl & Hz & Hd)]];
    [assumption|].
  exfalso. apply Hd. rewrite <- Hc, <- (dot_lincomb n) by apply HM.
  rewrite Hz. apply dot_zeros_l.
Qed.

(** The solver solves a symmetric system whose right-hand side is
    orthogonal to the kernel of the matrix. *)
Theorem solve_symmetric (n : nat) (M : list (list Qc)) (r : list Qc) :
  is_matrix n n M -> length r = n ->
  (forall x z, length x = n -> length z = n ->
               dot (mvmul M x) z = dot (mvmul M z) x) ->
  (forall z, length z = n -> mvmul M z = zeros n -> dot r z = 0) ->
  mvmul M (colPivHouseholderQr_solve n M r) = r.
Proof.
  intros HM Hr Hsym Hker.
  destruct (solve_or_left_kernel n n M r HM Hr) as [Hs|[z (Hl & Hz & Hd)]];
    [assumption|].
  exfalso. apply Hd. rewrite dot_comm. apply Hker; [assumption|].
  apply (vec_ext n).
  - rewrite length_mvmul. apply HM.
  - apply length_zeros.
  - intros x Hx. rewrite Hsym, dot_zeros_l by assumption.
    rewrite dot_comm, <- (dot_lincomb n) by apply HM.
    rewrite Hz. apply dot_zeros_l.
Qed.

(** Uniqueness: a matrix with trivial kernel has at most one solution. *)
Lemma solution_unique (m n : nat) (M : list (list Qc)) (c c' : list Qc) :
  is_matrix m n M -> length c = n -> length c' = n ->
  (forall z, length z = n -> mvmul M z = zeros m -> z = zeros n) ->
  mvmul M c = mvmul M c' -> c = c'.
Proof.
  intros [Hm HM] Hc Hc' Hker H.
  apply (vsub_zeros_eq n); auto. apply Hker.
  - rewrite length_vsub. lia.
  - apply vec_nth_ext.
    + rewrite length_mvmul, length_zeros. assumption.
    + intros i. rewrite nth_zeros, nth_mvmul.
      rewrite dot_vsub_r by congruence.
      rewrite <- !nth_mvmul, H. ring.
Qed.

Lemma find_pivot_scale (s : Qc) (sys : list equation) :
  s <> 0 ->
  find_pivot (map (scale_equation s) sys)
  = match find_pivot sys with
    | Some (p, others) =>
        Some (scale_equation s p, map (scale_equation s) others)
    | None => None
    end.
Proof.
  intros Hs. induction sys as [|e sys IH]; simpl; auto.
  assert (E : is_zero (hd 0 (vscale s (fst e))) = is_zero (hd 0 (fst e))).
  { destruct (fst e) as [|h t]; simpl; auto.
    destruct (is_zero h) eqn:Hh.
    - apply is_zero_true in Hh. apply is_zero_true. rewrite Hh. ring.
    - apply is_zero_false in Hh. apply is_zero_false. intros E.
      apply Qcmult_integral in E. tauto. }
  rewrite E. destruct (is_zero (hd 0 (fst e))); [|reflexivity].
  rewrite IH. destruct (find_pivot sys) as [[p others]|]; reflexivity.
Qed.

Lemma hd_vscale (s : Qc) (v : list Qc) : hd 0 (vscale s v) = s * hd 0 v.
Proof. destruct v; simpl; ring. Qed.

Lemma tl_vscale (s : Qc) (v : list Qc) : tl (vscale s v) = vscale s (tl v).
Proof. destruct v; reflexivity. Qed.

Lemma vsub_vscale_vscale (s f : Qc) (u v : list Qc) :
  vsub (vscale s u) (vscale f (vscale s v))
  = vscale s (vsub u (vscale f v)).
Proof.
  unfold vsub, vscale. revert v.
  induction u as [|a u IH]; intros [|b v]; simpl; auto.
  f_equal; [ring | apply IH].
Qed.

Lemma eliminate_scale (s : Qc) (p e : equation) :
  s <> 0 -> hd 0 (fst p) <> 0 ->
  eliminate (scale_equation s p) (scale_equation s e)
  = scale_equation s (eliminate p e).
Proof.
  intros Hs Hp. unfold eliminate, scale_equation. cbn [fst snd].
  rewrite !hd_vscale, !tl_vscale.
  assert (E : s * hd 0 (fst e) / (s * hd 0 (fst p))
              = hd 0 (fst e) / hd 0 (fst p)) by (field; auto).
  rewrite E, vsub_vscale_vscale. f_equal. ring.
Qed.

(** Scaling all equations by a non-zero factor does not change what the
    solver returns. *)
Lemma solve_scale (s : Qc) (n : nat) (sys : list equation) :
  s <> 0 -> solve n (map (scale_equation s) sys) = solve n sys.
Proof.
  intros Hs. revert sys. induction n as [|n IH]; intros sys; simpl; auto.
  rewrite find_pivot_scale by assumption.
  destruct (find_pivot sys) as [[p others]|] eqn:Hp.
  - destruct (find_pivot_Some _ _ _ Hp) as [_ Ha].
    rewrite map_map.
    rewrite (map_ext_in _ (fun e => scale_equation s (eliminate p e)))
      by (intros; apply eliminate_scale; assumption).
    rewrite <- (map_map (eliminate p) (scale_equation s)), IH.
    f_equal. unfold scale_equation. cbn [fst snd].
    rewrite hd_vscale, tl_vscale, dot_vscale_l. field. auto.
  - f_equal. rewrite map_map.
    rewrite (map_ext _ (fun e => scale_equation s (drop_column e)))
      by (intros e; unfold drop_column, scale_equation; cbn [fst snd];
          rewrite tl_vscale; reflexivity).
    rewrite <- (map_map drop_column (scale_equation s)). apply IH.
Qed.

Lemma colPivHouseholderQr_solve_scale (s : Qc) (n : nat)
    (M : list (list Qc)) (r : list Qc) :
  s <> 0 ->
  colPivHouseholderQr_solve n (mscale s M) (vscale s r)
  = colPivHouseholderQr_solve n M r.
Proof.
  intros Hs. unfold colPivHouseholderQr_solve.
  rewrite <- (solve_scale s n (combine M r) Hs). f_equal.
  unfold mscale, vscale. revert r.
  induction M as [|row M IH]; intros [|a r]; simpl; auto.
  rewrite IH. reflexivity.
Qed.

End SolverContract.


(* ================================================================= *)
(** ** Solving the regularised normal equations *)

Section RidgeRegression.
Local Open Scope Qc_scope.

Variables (m n : nat) (A : list (list Qc)) (b : list Qc) (w : Qc).
Hypothesis HA : is_matrix m n A.
Hypothesis Hb : length b = m.

Lemma normal_form_symmetric (lam : Qc) (x z : list Qc) :
  length x = n -> length z = n ->
  dot (mvmul (fst (normal_equations n A b (constant m w) lam)) x) z
  = dot (mvmul (fst (normal_equations n A b (constant m w) lam)) z) x.
Proof.
  intros Hx Hz. rewrite !(normal_form m n A b w lam HA) by assumption.
  rewrite (dot_comm (mvmul A x)), (dot_comm x). reflexivity.
Qed.

Lemma mvmul_zero_rows (z : list Qc) :
  norm2 (mvmul A z) = 0 -> mvmul A z = zeros m.
Proof.
  intros H. apply norm2_zero in H. rewrite length_mvmul in H.
  destruct HA as [Hm _]. congruence.
Qed.

(** For non-negative weights the right-hand side is orthogonal to the
    kernel of the matrix. *)
Lemma normal_rhs_orthogonal (lam : Qc) (z : list Qc) :
  0 <= w -> 0 <= lam -> length z = n ->
  mvmul (fst (normal_equations n A b (constant m w) lam)) z = zeros n ->
  dot (snd (normal_equations n A b (constant m w) lam)) z = 0.
Proof.
  intros Hw Hlam Hz Hk.
  assert (E : dot (mvmul (fst (normal_equations n A b (constant m w) lam)) z) z
              = 0) by (rewrite Hk; apply dot_zeros_l).
  rewrite (normal_form m n A b w lam HA) in E by assumption.
  rewrite (normal_rhs_form m n A b w lam HA) by assumption.
  pose proof (norm2_nonneg (mvmul A z)) as H1.
  pose proof (norm2_nonneg z) as H2. unfold norm2 in *.
  destruct (Qc_eq_dec w 0) as [Hw0|Hw0].
  - rewrite Hw0. ring.
  - assert (E' : dot (mvmul A z) (mvmul A z) = 0).
    { set (p := dot (mvmul A z) (mvmul A z)) in *.
      set (q := dot z z) in *. clearbody p q.
      assert (Hp : w * p = 0) by (qc_to_q; nra).
      apply Qcmult_integral in Hp. tauto. }
    rewrite (mvmul_zero_rows z E'), dot_zeros_r. ring.
Qed.

(** The vector that the solver returns solves the normal equations, for
    all non-negative weights, invertible matrix or not. *)
Theorem normal_equations_solved (lam : Qc) :
  0 <= w -> 0 <= lam ->
  let (M, r) := normal_equations n A b (constant m w) lam in
  mvmul M (colPivHouseholderQr_solve n M r) = r.
Proof.
  intros Hw Hlam.
  destruct (normal_equations n A b (constant m w) lam) as [M r] eqn:E.
  pose proof (normal_matrix_is_matrix m n A b w lam HA) as HM.
  pose proof (length_normal_rhs m n A b w lam HA) as Hr.
  pose proof (normal_form_symmetric lam) as Hs.
  pose proof (normal_rhs_orthogonal lam) as Ho.
  rewrite E in *. cbn [fst snd] in *.
  apply solve_symmetric; auto.
Qed.

(** Without regularisation and with a non-zero weight, the kernel of the
    matrix of the normal equations is the kernel of [A]. *)
Lemma normal_kernel (z : list Qc) :
  w <> 0 -> length z = n ->
  (forall x, length x = n -> mvmul A x = zeros m -> x = zeros n) ->
  mvmul (fst (normal_equations n A b (constant m w) 0)) z = zeros n ->
  z = zeros n.
Proof.
  intros Hw Hz Hker Hk. apply Hker; [assumption|].
  apply mvmul_zero_rows.
  assert (E : dot (mvmul (fst (normal_equations n A b (constant m w) 0)) z) z
              = 0) by (rewrite Hk; apply dot_zeros_l).
  rewrite (normal_form m n A b w 0 HA) in E by assumption.
  unfold norm2.
  set (p := dot (mvmul A z) (mvmul A z)) in *. clearbody p.
  assert (Hp : w * p = 0) by (rewrite <- E; ring).
  apply Qcmult_integral in Hp. tauto.
Qed.

Lemma norm2_vsub (u v : list Qc) :
  length u = length v ->
  norm2 (vsub u v) = dot u u - (dot u v + dot u v) + dot v v.
Proof.
  intros H. unfold norm2.
  rewrite dot_vsub_l, !dot_vsub_r by assumption.
  rewrite (dot_comm v u). ring.
Qed.

Lemma ridge_scalars (p11 p12 p22 n11 n12 n22 l1 l2 R1 R2 : Qc) :
  0 <= w -> 0 <= l1 -> l1 < l2 ->
  0 <= p11 - (p12 + p12) + p22 ->
  0 <= n11 - (n12 + n12) + n22 ->
  w * p11 + l1 * n11 = R1 ->
  w * p12 + l1 * n12 = R2 ->
  w * p12 + l2 * n12 = R1 ->
  w * p22 + l2 * n22 = R2 ->
  n22 <= n11.
Proof.
  intros Hw Hl1 Hl Hp Hn E1 E2 E3 E4. qc_to_q.
  set (W := this w) in *. set (L1 := this l1) in *. set (L2 := this l2) in *.
  set (P11 := this p11) in *. set (P12 := this p12) in *.
  set (P22 := this p22) in *. set (N11 := this n11) in *.
  set (N12 := this n12) in *. set (N22 := this n22) in *.
  clearbody W L1 L2 P11 P12 P22 N11 N12 N22.
  assert (H1 : (0 <= W * (P11 - (P12 + P12) + P22))%Q)
    by (apply Qmult_le_0_compat; assumption).
  assert (H2 : (0 <= L1 * (N11 - (N12 + N12) + N22))%Q)
    by (apply Qmult_le_0_compat; assumption).
  assert (H3 : ((L2 - L1) * (N12 - N22)
                == W * (P11 - (P12 + P12) + P22)
                   + L1 * (N11 - (N12 + N12) + N22))%Q) by lra.
  assert (H4 : (0 <= N12 - N22)%Q) by nra.
  lra.
Qed.

(** Two ridge solutions for the same data: the one with the larger
    regularisation weight has the smaller norm. *)
Theorem ridge_monotone (l1 l2 : Qc) (c1 c2 : list Qc) :
  0 <= w -> 0 <= l1 -> l1 < l2 ->
  length c1 = n -> length c2 = n ->
  mvmul (fst (normal_equations n A b (constant m w) l1)) c1
  = snd (normal_equations n A b (constant m w) l1) ->
  mvmul (fst (normal_equations n A b (constant m w) l2)) c2
  = snd (normal_equations n A b (constant m w) l2) ->
  norm2 c2 <= norm2 c1.
Proof.
  intros Hw Hl1 Hl Hc1 Hc2 E1 E2.
  assert (Er : snd (normal_equations n A b (constant m w) l1)
               = snd (normal_equations n A b (constant m w) l2))
    by reflexivity.
  pose proof (f_equal (fun v => dot v c1) E1) as E11.
  pose proof (f_equal (fun v => dot v c2) E1) as E12.
  pose proof (f_equal (fun v => dot v c1) E2) as E21.
  pose proof (f_equal (fun v => dot v c2) E2) as E22.
  cbv beta in *. rewrite <- Er in E21, E22.
  rewrite (normal_form m n A b w l1 HA) in E11, E12 by assumption.
  rewrite (normal_form m n A b w l2 HA) in E21, E22 by assumption.
  rewrite (dot_comm (mvmul A c2) (mvmul A c1)), (dot_comm c2 c1) in E21.
  pose proof (norm2_nonneg (vsub (mvmul A c1) (mvmul A c2))) as Hp.
  pose proof (norm2_nonneg (vsub c1 c2)) as Hn.
  rewrite norm2_vsub in Hp by (rewrite !length_mvmul; reflexivity).
  rewrite norm2_vsub in Hn by congruence.
  unfold norm2.
  exact (ridge_scalars _ _ _ _ _ _ l1 l2 _ _ Hw Hl1 Hl Hp Hn E11 E12 E21 E22).
Qed.

(** Exact recovery: data generated by [c_star], no regularisation, [A]
    with independent columns. *)
Theorem exact_recovery (c_star : list Qc) :
  w <> 0 -> length c_star = n ->
  b = vopp (mvmul A c_star) ->
  (forall x, length x = n -> mvmul A x = zeros m -> x = zeros n) ->
  let (M, r) := normal_equations n A b (constant m w) 0 in
  colPivHouseholderQr_solve n M r = c_star.
Proof.
  intros Hw Hc Hbc Hker.
  destruct (normal_equations n A b (constant m w) 0) as [M r] eqn:E.
  pose proof (normal_matrix_is_matrix m n A b w 0 HA) as HM.
  pose proof (length_normal_rhs m n A b w 0 HA) as Hr.
  pose proof (fun x z => normal_form m n A b w 0 HA x z) as Hf.
  pose proof (fun z => normal_rhs_form m n A b w 0 HA z Hb) as Hrf.
  pose proof normal_kernel as Hk.
  rewrite E in *. cbn [fst snd] in *.
  assert (Hs : mvmul M c_star = r).
  { apply (vec_ext n).
    - rewrite length_mvmul. apply HM.
    - assumption.
    - intros z Hz. rewrite Hf, Hrf by assumption.
      rewrite Hbc, dot_vopp_l. ring. }
  apply (solution_unique n n M); auto.
  - apply length_colPivHouseholderQr_solve.
  - rewrite Hs. eapply solve_consistent; eassumption.
Qed.

End RidgeRegression.


(* ================================================================= *)
(** ** The loop over the images fills the matrices of the specification *)

Section ListLemmas.
Context {X : Type}.

Lemma firstn_length_app (l l' : list X) : firstn (length l) (l ++ l') = l.
Proof.
  rewrite firstn_app, Nat.sub_diag, firstn_all. simpl. apply app_nil_r.
Qed.

Lemma skipn_length_app (k : nat) (l l' : list X) :
  skipn (length l + k) (l ++ l') = skipn k l'.
Proof.
  rewrite skipn_app, skipn_all2 by lia. simpl. f_equal. lia.
Qed.

Lemma nth_error_length_app (k : nat) (l l' : list X) :
  nth_error (l ++ l') (length l + k) = nth_error l' k.
Proof.
  rewrite nth_error_app2 by lia. f_equal. lia.
Qed.
End ListLemmas.

Lemma write_rows_app (done old blk rest : list (list Qc)) :
  length old = length blk ->
  write_rows (length done) blk (done ++ old ++ rest)
  = Some (done ++ blk ++ rest).
Proof.
  intros H. unfold write_rows.
  assert (E : (length done + length blk <=? length (done ++ old ++ rest)) = true).
  { apply Nat.leb_le. rewrite !length_app. lia. }
  rewrite E, firstn_length_app, skipn_length_app.
  rewrite <- H, <- (Nat.add_0_r (length old)), skipn_length_app.
  reflexivity.
Qed.

Lemma write_coeff_app (done : list Qc) (a x : Qc) (rest : list Qc) :
  write_coeff (length done) x (done ++ a :: rest) = Some (done ++ x :: rest).
Proof.
  unfold write_coeff.
  assert (E : (length done <? length (done ++ a :: rest)) = true).
  { apply Nat.ltb_lt. rewrite length_app. simpl. lia. }
  rewrite E, firstn_length_app.
  replace (S (length done)) with (length done + 1) by lia.
  rewrite skipn_length_app. reflexivity.
Qed.

Lemma length_write_rows (r : nat) (blk V V' : list (list Qc)) :
  write_rows r blk V = Some V' -> length V' = length V.
Proof.
  unfold write_rows. destruct (r + length blk <=? length V) eqn:E;
    [|discriminate].
  apply Nat.leb_le in E. intros H. inversion H; subst.
  rewrite !length_app, length_firstn, length_skipn. lia.
Qed.

Lemma write_rows_widths (n r : nat) (blk V V' : list (list Qc)) :
  Forall (fun row => length row = n) blk ->
  Forall (fun row => length row = n) V ->
  write_rows r blk V = Some V' ->
  Forall (fun row => length row = n) V'.
Proof.
  unfold write_rows. intros Hb HV.
  destruct (r + length blk <=? length V); [|discriminate].
  intros H. inversion H; subst.
  pose proof HV as HV1. pose proof HV as HV2.
  rewrite <- (firstn_skipn r V) in HV1.
  rewrite <- (firstn_skipn (r + length blk) V) in HV2.
  apply Forall_app in HV1, HV2.
  rewrite !Forall_app. tauto.
Qed.

Lemma length_write_coeff (i : nat) (x : Qc) (v v' : list Qc) :
  write_coeff i x v = Some v' -> length v' = length v.
Proof.
  unfold write_coeff. destruct (i <? length v) eqn:E; [|discriminate].
  apply Nat.ltb_lt in E. intros H. injection H as <-.
  rewrite length_app, length_firstn.
  destruct v as [|a v]; simpl in *; [lia|]. rewrite length_skipn. lia.
Qed.

Lemma mzeros_four (k n : nat) :
  mzeros (4 * S k) n
  = [zeros n; zeros n; zeros n] ++ zeros n :: mzeros (4 * k) n.
Proof.
  unfold mzeros. replace (4 * S k) with (S (S (S (S (4 * k))))) by lia.
  reflexivity.
Qed.

Lemma ones_three (k : nat) :
  ones (3 * S k) = Q2Qc 1 :: Q2Qc 1 :: Q2Qc 1 :: ones (3 * k).
Proof.
  unfold ones. replace (3 * S k) with (S (S (S (3 * k)))) by lia.
  reflexivity.
Qed.

Lemma ones_four (k : nat) :
  ones (4 * S k) = Q2Qc 1 :: Q2Qc 1 :: Q2Qc 1 :: Q2Qc 1 :: ones (4 * k).
Proof.
  unfold ones. replace (4 * S k) with (S (S (S (S (4 * k))))) by lia.
  reflexivity.
Qed.

Lemma length_basis_rows (mm : MorphableModel) (n id : nat) :
  length (basis_rows mm n id) = 3.
Proof. unfold basis_rows. rewrite length_map. reflexivity. Qed.

Section FillLoops.
Variables (mm : MorphableModel) (n : nat).
Hypothesis Hn : n <= get_num_principal_components (get_shape_model mm).

Lemma basis_rows_widths (id : nat) :
  Forall (fun row => length row = n) (basis_rows mm n id).
Proof.
  unfold basis_rows. apply Forall_map. apply Forall_forall. intros x _.
  rewrite length_firstn. unfold Mat_row. rewrite length_map, length_seq.
  unfold get_num_principal_components in Hn. lia.
Qed.

Lemma fill_V_hat_h_ok (ids : list nat) :
  Forall (fun id =>
            3 * id + 3 <= rows (rescaled_pca_basis (get_shape_model mm)))
         ids ->
  forall (done : list (list Qc)) (r : nat),
  fill_V_hat_h mm n ids (done ++ mzeros (4 * (length ids + r)) n)
    (length done)
  = inl (done
         ++ flat_map (fun id => basis_rows mm n id ++ [zeros n]) ids
         ++ mzeros (4 * r) n,
         length done + 4 * length ids).
Proof.
  induction 1 as [|id ids Hid Hids IH]; intros done r.
  - cbn [fill_V_hat_h flat_map length app Nat.add].
    rewrite Nat.mul_0_r, Nat.add_0_r. reflexivity.
  - cbn [fill_V_hat_h]. unfold get_rescaled_pca_basis_at_point.
    apply Nat.leb_le in Hid. rewrite Hid. unfold block.
    apply Nat.leb_le in Hn. rewrite Hn. rewrite map_map.
    fold (basis_rows mm n id).
    cbn [length Nat.add]. rewrite mzeros_four.
    rewrite write_rows_app by (rewrite length_basis_rows; reflexivity).
    replace (done ++ basis_rows mm n id
             ++ zeros n :: mzeros (4 * (length ids + r)) n)
      with ((done ++ basis_rows mm n id ++ [zeros n])
            ++ mzeros (4 * (length ids + r)) n)
      by (rewrite <- !app_assoc; reflexivity).
    replace (length done + 4)
      with (length (done ++ basis_rows mm n id ++ [zeros n]))
      by (rewrite !length_app, length_basis_rows; simpl; lia).
    rewrite IH. f_equal. f_equal.
    + cbn [flat_map]. rewrite <- !app_assoc. reflexivity.
    + rewrite !length_app, length_basis_rows. simpl. lia.
Qed.

End FillLoops.

Section FillVectors.

Lemma fill_P_ok (cam : Mat) (k : nat) :
  forall (T : list (nat * nat * Qc)) (index : nat),
  fill_P cam k T index
  = (T ++ triplets_from index (repeat cam k), index + k).
Proof.
  induction k as [|k IH]; intros T index; simpl.
  - rewrite app_nil_r, Nat.add_0_r. reflexivity.
  - rewrite IH, <- app_assoc. f_equal. lia.
Qed.

Lemma fill_y_ok (ls : list Vec2f) :
  forall (done : list Qc) (index r : nat),
  length done = 3 * index ->
  fill_y ls (done ++ ones (3 * (length ls + r))) index
  = inl (done ++ flat_map (fun l => [fst l; snd l; Q2Qc 1]) ls
              ++ ones (3 * r),
         index + length ls).
Proof.
  induction ls as [|l ls IH]; intros done index r Hd.
  - cbn [fill_y flat_map length app Nat.add].
    rewrite Nat.add_0_r. reflexivity.
  - cbn [fill_y length Nat.add]. rewrite ones_three.
    rewrite <- Hd, write_coeff_app.
    replace (done ++ fst l :: Q2Qc 1 :: Q2Qc 1 :: ones (3 * (length ls + r)))
      with ((done ++ [fst l]) ++ Q2Qc 1 :: Q2Qc 1
                              :: ones (3 * (length ls + r)))
      by (rewrite <- app_assoc; reflexivity).
    replace (length done + 1) with (length (done ++ [fst l]))
      by (rewrite length_app; reflexivity).
    rewrite write_coeff_app.
    replace ((done ++ [fst l]) ++ snd l :: Q2Qc 1
                                :: ones (3 * (length ls + r)))
      with ((done ++ [fst l; snd l; Q2Qc 1])
            ++ ones (3 * (length ls + r)))
      by (rewrite <- !app_assoc; reflexivity).
    rewrite IH by (rewrite length_app; simpl; lia).
    f_equal. f_equal.
    + cbn [flat_map]. rewrite <- !app_assoc. reflexivity.
    + lia.
Qed.

Lemma copy_coordinate_ok (face : list Qc) (id index j : nat)
    (done : list Qc) (a : Qc) (rest : list Qc) :
  id * 3 + j < length face ->
  length done = 4 * index + j ->
  copy_coordinate face id index j (done ++ a :: rest)
  = inl (done ++ nth (id * 3 + j) face (Q2Qc 0) :: rest).
Proof.
  intros Hf Hd. unfold copy_coordinate.
  rewrite (nth_error_nth' face (Q2Qc 0) Hf), <- Hd, write_coeff_app.
  reflexivity.
Qed.

Lemma fill_v_bar_ok (face : list Qc) (ids : list nat) :
  Forall (fun id => id * 3 + 3 <= length face) ids ->
  forall (done : list Qc) (index r : nat),
  length done = 4 * index ->
  fill_v_bar face ids (done ++ ones (4 * (length ids + r))) index
  = inl (done
         ++ flat_map (fun id => [nth (id * 3) face (Q2Qc 0);
                                 nth (id * 3 + 1) face (Q2Qc 0);
                                 nth (id * 3 + 2) face (Q2Qc 0);
                                 Q2Qc 1]) ids
         ++ ones (4 * r),
         index + length ids).
Proof.
  induction 1 as [|id ids Hid Hids IH]; intros done index r Hd.
  - cbn [fill_v_bar flat_map length app Nat.add].
    rewrite Nat.add_0_r. reflexivity.
  - cbn [fill_v_bar length Nat.add]. rewrite ones_four.
    rewrite copy_coordinate_ok by lia.
    rewrite Nat.add_0_r.
    replace (done ++ nth (id * 3) face (Q2Qc 0) :: Q2Qc 1 :: Q2Qc 1
               :: Q2Qc 1 :: ones (4 * (length ids + r)))
      with ((done ++ [nth (id * 3) face (Q2Qc 0)])
            ++ Q2Qc 1 :: Q2Qc 1 :: Q2Qc 1 :: ones (4 * (length ids + r)))
      by (rewrite <- app_assoc; reflexivity).
    rewrite copy_coordinate_ok by (rewrite ?length_app; simpl; lia).
    replace ((done ++ [nth (id * 3) face (Q2Qc 0)])
             ++ nth (id * 3 + 1) face (Q2Qc 0) :: Q2Qc 1 :: Q2Qc 1
             :: ones (4 * (length ids + r)))
      with ((done ++ [nth (id * 3) face (Q2Qc 0);
                      nth (id * 3 + 1) face (Q2Qc 0)])
            ++ Q2Qc 1 :: Q2Qc 1 :: ones (4 * (length ids + r)))
      by (rewrite <- !app_assoc; reflexivity).
    rewrite copy_coordinate_ok by (rewrite ?length_app; simpl; lia).
    replace ((done ++ [nth (id * 3) face (Q2Qc 0);
                       nth (id * 3 + 1) face (Q2Qc 0)])
             ++ nth (id * 3 + 2) face (Q2Qc 0) :: Q2Qc 1
             :: ones (4 * (length ids + r)))
      with ((done ++ [nth (id * 3) face (Q2Qc 0);
                      nth (id * 3 + 1) face (Q2Qc 0);
                      nth (id * 3 + 2) face (Q2Qc 0); Q2Qc 1])
            ++ ones (4 * (length ids + r)))
      by (rewrite <- !app_assoc; reflexivity).
    rewrite IH by (rewrite length_app; simpl; lia).
    f_equal. f_equal.
    + cbn [flat_map]. rewrite <- !app_assoc. reflexivity.
    + lia.
Qed.

End FillVectors.


Ltac simpl_assembly :=
  cbn [V_hat_h V_hat_h_row_index P_coefficients P_index y y_index v_bar
       v_bar_index set_V_hat_h set_P set_y set_v_bar fst snd].

Lemma landmark_count_app (l1 l2 : list image) :
  landmark_count (l1 ++ l2) = landmark_count l1 + landmark_count l2.
Proof. unfold landmark_count. rewrite map_app, list_sum_app. reflexivity. Qed.

Lemma landmark_count_cons (img : image) (imgs : list image) :
  landmark_count (img :: imgs)
  = length (image_landmarks img) + landmark_count imgs.
Proof. reflexivity. Qed.

Lemma length_cameras_per_landmark (imgs : list image) :
  length (cameras_per_landmark imgs) = landmark_count imgs.
Proof.
  unfold cameras_per_landmark.
  induction imgs as [|img imgs IH]; [reflexivity|].
  rewrite landmark_count_cons. cbn [flat_map].
  rewrite length_app, repeat_length, IH. reflexivity.
Qed.

Lemma length_flat_map_blocks {X Y : Type} (f : X -> list Y) (k : nat)
    (l : list X) :
  (forall x, length (f x) = k) -> length (flat_map f l) = k * length l.
Proof.
  intros Hf. induction l as [|x l IH]; cbn [flat_map length]; [lia|].
  rewrite length_app, Hf, IH. lia.
Qed.

Lemma length_y_spec (imgs : list image) :
  length (y_spec imgs) = 3 * landmark_count imgs.
Proof.
  unfold y_spec.
  induction imgs as [|img imgs IH]; [reflexivity|].
  rewrite landmark_count_cons. cbn [flat_map].
  rewrite length_app, IH, (length_flat_map_blocks _ 3) by reflexivity. lia.
Qed.

Lemma length_V_hat_h_spec (mm : MorphableModel) (n : nat)
    (imgs : list image) :
  Forall (image_ok mm) imgs ->
  length (V_hat_h_spec mm n imgs) = 4 * landmark_count imgs.
Proof.
  unfold V_hat_h_spec.
  induction 1 as [|img imgs Himg Himgs IH]; [reflexivity|].
  rewrite landmark_count_cons. cbn [flat_map].
  rewrite length_app, IH, (same_count mm img Himg).
  rewrite (length_flat_map_blocks _ 4); [lia|].
  intros id. rewrite length_app, length_basis_rows. reflexivity.
Qed.

Lemma length_v_bar_spec (mm : MorphableModel) (imgs : list image) :
  Forall (image_ok mm) imgs ->
  length (v_bar_spec mm imgs) = 4 * landmark_count imgs.
Proof.
  unfold v_bar_spec.
  induction 1 as [|img imgs Himg Himgs IH]; [reflexivity|].
  rewrite landmark_count_cons. cbn [flat_map].
  rewrite length_app, IH, (same_count mm img Himg).
  rewrite (length_flat_map_blocks _ 4) by reflexivity. lia.
Qed.

Lemma triplets_from_app (cams1 cams2 : list Mat) :
  forall index,
  triplets_from index (cams1 ++ cams2)
  = triplets_from index cams1
    ++ triplets_from (index + length cams1) cams2.
Proof.
  induction cams1 as [|cam cams1 IH]; intros index; simpl.
  - rewrite Nat.add_0_r. reflexivity.
  - rewrite IH, <- app_assoc. do 3 f_equal. lia.
Qed.

Section ImageLoop.
Variables (mm : MorphableModel) (n : nat).
Hypothesis Hn : n <= get_num_principal_components (get_shape_model mm).

Lemma image_iteration_ok (done : list image) (img : image) (r : nat) :
  Forall (image_ok mm) done -> image_ok mm img ->
  image_iteration mm n img
    (assembled mm n done (length (image_landmarks img) + r))
  = inl (assembled mm n (done ++ [img]) r).
Proof.
  intros Hdone Himg. unfold image_iteration.
  pose proof (same_count mm img Himg) as Hcount.
  rewrite Hcount, Nat.eqb_refl. cbn [negb].
  pose proof (vertices_in_base_face mm img Himg) as Hface.
  rewrite effective_base_face_eq in Hface.
  destruct (image_base_face img) as [face|] eqn:Eface;
    [| exfalso; apply (base_face_supplied mm img Himg); assumption].
  remember (assembled mm n (done ++ [img]) r) as target eqn:Etarget.
  unfold assembled. simpl_assembly.
  rewrite <- (length_V_hat_h_spec mm n done Hdone).
  rewrite (fill_V_hat_h_ok mm n Hn _ (vertices_in_model mm img Himg)).
  simpl_assembly. rewrite fill_P_ok. simpl_assembly.
  rewrite <- Hcount.
  rewrite fill_y_ok by apply length_y_spec.
  simpl_assembly. rewrite Hcount.
  rewrite (fill_v_bar_ok _ _ Hface)
    by (apply length_v_bar_spec; assumption).
  f_equal. subst target. unfold assembled, set_v_bar. simpl_assembly.
  rewrite landmark_count_app, (landmark_count_cons img []).
  change (landmark_count []) with 0.
  unfold V_hat_h_spec, y_spec, v_bar_spec, cameras_per_landmark.
  rewrite !flat_map_app. cbn [flat_map]. rewrite !app_nil_r.
  fold (cameras_per_landmark done).
  rewrite triplets_from_app, length_cameras_per_landmark.
  rewrite effective_base_face_eq, Eface.
  fold (V_hat_h_spec mm n done) (y_spec done) (v_bar_spec mm done).
  rewrite (length_V_hat_h_spec mm n done Hdone).
  rewrite Nat.add_0_r, Hcount.
  rewrite <- !app_assoc. f_equal. lia.
Qed.

Lemma image_loop_ok (imgs : list image) :
  Forall (image_ok mm) imgs ->
  forall (done : list image) (r : nat),
  Forall (image_ok mm) done ->
  image_loop mm n imgs (assembled mm n done (landmark_count imgs + r))
  = inl (assembled mm n (done ++ imgs) r).
Proof.
  induction 1 as [|img imgs Himg Himgs IH]; intros done r Hdone.
  - simpl. rewrite app_nil_r. reflexivity.
  - cbn [image_loop]. rewrite landmark_count_cons, <- Nat.add_assoc.
    rewrite image_iteration_ok by assumption.
    rewrite IH by (apply Forall_app; auto).
    rewrite <- app_assoc. reflexivity.
Qed.

End ImageLoop.


(* ================================================================= *)
(** ** The sparse camera matrix is the block-diagonal matrix *)

Section SparseLemmas.

Lemma camera_triplets_3x4 (C : Mat) (o : nat) :
  is_3x4 C ->
  camera_triplets C o
  = flat_map (fun x => map (fun y => (3 * o + x, 4 * o + y, at_ C x y))
                           [0; 1; 2; 3])
             [0; 1; 2].
Proof. intros [Hr Hc]. unfold camera_triplets. rewrite Hr, Hc. reflexivity. Qed.

Lemma eqb_add_l (k a b : nat) : (k + a =? k + b) = (a =? b).
Proof.
  destruct (Nat.eqb_spec a b) as [E|E].
  - subst. apply Nat.eqb_refl.
  - apply Nat.eqb_neq. lia.
Qed.

Lemma filter_none {X : Type} (f : X -> bool) (l : list X) :
  Forall (fun t => f t = false) l -> filter f l = [].
Proof.
  induction 1 as [|t l Ht Hl IH]; simpl; auto. rewrite Ht. assumption.
Qed.

Lemma camera_triplets_rows (C : Mat) (o : nat) :
  Forall (fun t => 3 * o <= triplet_row t) (camera_triplets C o).
Proof.
  unfold camera_triplets. apply Forall_flat_map. apply Forall_forall.
  intros x _. apply Forall_map. apply Forall_forall. intros y0 _.
  unfold triplet_row. simpl. lia.
Qed.

Lemma triplets_from_rows (cams : list Mat) :
  forall o, Forall (fun t => 3 * o <= triplet_row t) (triplets_from o cams).
Proof.
  induction cams as [|C cams IH]; intros o; simpl; [constructor|].
  apply Forall_app. split; [apply camera_triplets_rows|].
  eapply Forall_impl; [|apply IH]. intros t Ht. simpl in Ht. lia.
Qed.

Lemma camera_triplets_range (C : Mat) (o : nat) :
  is_3x4 C ->
  Forall (fun t => triplet_row t < 3 * S o /\ triplet_col t < 4 * S o)
         (camera_triplets C o).
Proof.
  intros HC. rewrite camera_triplets_3x4 by assumption.
  unfold triplet_row, triplet_col. cbn [flat_map map app].
  repeat (apply Forall_cons; [cbn [fst snd]; lia|]). apply Forall_nil.
Qed.

Lemma triplets_from_range (cams : list Mat) :
  Forall is_3x4 cams ->
  forall o,
  Forall (fun t => triplet_row t < 3 * (o + length cams)
                   /\ triplet_col t < 4 * (o + length cams))
         (triplets_from o cams).
Proof.
  induction 1 as [|C cams HC Hcams IH]; intros o; simpl; [constructor|].
  apply Forall_app. split.
  - eapply Forall_impl; [|apply camera_triplets_range; assumption].
    intros t Ht. simpl in Ht. lia.
  - eapply Forall_impl; [|apply IH]. intros t Ht. simpl in Ht. lia.
Qed.

Lemma setFromTriplets_ok (cams : list Mat) :
  Forall is_3x4 cams ->
  setFromTriplets (3 * length cams) (4 * length cams) (triplets_from 0 cams)
  = Some {| sparse_rows := 3 * length cams;
            sparse_cols := 4 * length cams;
            triplets := triplets_from 0 cams |}.
Proof.
  intros H. unfold setFromTriplets.
  assert (E : forallb (fun t => (triplet_row t <? 3 * length cams)
                                && (triplet_col t <? 4 * length cams))
                      (triplets_from 0 cams) = true).
  { apply forallb_forall. pose proof (triplets_from_range cams H 0) as HR.
    rewrite Forall_forall in HR. intros t Ht. specialize (HR t Ht).
    simpl in HR. apply andb_true_iff. split; apply Nat.ltb_lt; lia. }
  rewrite E. reflexivity.
Qed.

(** The triplets of row [3 * o + x]: row [x] of the camera matrix of
    landmark [o]. *)
Lemma row_selection (C : Mat) (cams : list Mat) (o x : nat)
    (Tpre : list (nat * nat * Qc)) :
  is_3x4 C -> x < 3 ->
  Forall (fun t => triplet_row t < 3 * o) Tpre ->
  filter (fun t => triplet_row t =? 3 * o + x)
         (Tpre ++ triplets_from o (C :: cams))
  = map (fun y => (3 * o + x, 4 * o + y, at_ C x y)) [0; 1; 2; 3].
Proof.
  intros HC Hx Hpre. cbn [triplets_from].
  rewrite !filter_app.
  rewrite (filter_none _ Tpre).
  2:{ eapply Forall_impl; [|exact Hpre]. intros t Ht. simpl in Ht.
      apply Nat.eqb_neq. lia. }
  rewrite (filter_none _ (triplets_from (S o) cams)).
  2:{ eapply Forall_impl; [|apply triplets_from_rows]. intros t Ht.
      simpl in Ht. apply Nat.eqb_neq. lia. }
  rewrite camera_triplets_3x4 by assumption.
  rewrite app_nil_r. cbn [app].
  unfold triplet_row. cbn [flat_map map app filter fst snd].
  rewrite !eqb_add_l.
  destruct x as [|[|[|x]]]; [reflexivity | reflexivity | reflexivity | lia].
Qed.

Lemma four_rows {X : Type} (k : nat) (V : list X) :
  length V = 4 * S k ->
  exists b0 b1 b2 b3 V', V = [b0; b1; b2; b3] ++ V' /\ length V' = 4 * k.
Proof.
  intros H. destruct V as [|b0 [|b1 [|b2 [|b3 V']]]]; simpl in H; try lia.
  exists b0, b1, b2, b3, V'. split; [reflexivity | lia].
Qed.

Lemma nth_block {X : Type} (Vpre : list X) (b0 b1 b2 b3 : X) (V' : list X)
    (o r : nat) (f : nat -> Qc) (d : X) :
  length Vpre = 4 * o ->
  map (fun t : nat * nat * Qc => nth (triplet_col t)
                                   (Vpre ++ [b0; b1; b2; b3] ++ V') d)
      (map (fun y => (r, 4 * o + y, f y)) [0; 1; 2; 3])
  = [b0; b1; b2; b3].
Proof.
  intros H. unfold triplet_col. cbn [map fst snd]. rewrite <- H.
  rewrite !app_nth2_plus. reflexivity.
Qed.

Lemma Mat_row_3x4 (C : Mat) (x : nat) :
  is_3x4 C ->
  Mat_row C x = map (fun y => at_ C x y) [0; 1; 2; 3].
Proof. intros [_ Hc]. unfold Mat_row. rewrite Hc. reflexivity. Qed.

Lemma dense_3x4 (C : Mat) :
  is_3x4 C -> dense C = [Mat_row C 0; Mat_row C 1; Mat_row C 2].
Proof. intros [Hr _]. unfold dense. rewrite Hr. reflexivity. Qed.

Lemma seq_three (o k : nat) :
  seq (3 * o) (3 * S k)
  = [3 * o + 0; 3 * o + 1; 3 * o + 2] ++ seq (3 * S o) (3 * k).
Proof.
  replace (3 * S k) with (3 + 3 * k) by lia. rewrite seq_app.
  replace (3 * o + 0) with (3 * o) by lia.
  replace (3 * o + 1) with (S (3 * o)) by lia.
  replace (3 * o + 2) with (S (S (3 * o))) by lia.
  replace (3 * o + 3) with (3 * S o) by lia. reflexivity.
Qed.

Variable n : nat.

(** [P * V], row by row, from landmark [o] on. *)
Lemma sparse_blockwise (cams : list Mat) :
  Forall is_3x4 cams ->
  forall (o : nat) (Tpre : list (nat * nat * Qc)) (Vpre V : list (list Qc)),
  Forall (fun t => triplet_row t < 3 * o) Tpre ->
  length Vpre = 4 * o ->
  length V = 4 * length cams ->
  map (fun i =>
         lincomb n
           (map triplet_value
              (filter (fun t => triplet_row t =? i)
                      (Tpre ++ triplets_from o cams)))
           (map (fun t => nth (triplet_col t) (Vpre ++ V) (zeros n))
              (filter (fun t => triplet_row t =? i)
                      (Tpre ++ triplets_from o cams))))
      (seq (3 * o) (3 * length cams))
  = blockwise n cams V.
Proof.
  induction 1 as [|C cams HC Hcams IH]; intros o Tpre Vpre V Hpre HVpre HV.
  - reflexivity.
  - cbn [length] in *.
    destruct (four_rows _ V HV) as (b0 & b1 & b2 & b3 & V' & -> & HV').
    rewrite seq_three, map_app. cbn [blockwise]. f_equal.
    + cbn [map]. rewrite !row_selection by (assumption || lia).
      rewrite !nth_block by assumption.
      rewrite dense_3x4, !Mat_row_3x4 by assumption.
      rewrite !map_map. reflexivity.
    + cbn [triplets_from]. rewrite app_assoc.
      replace (Vpre ++ [b0; b1; b2; b3] ++ V')
        with ((Vpre ++ [b0; b1; b2; b3]) ++ V')
        by (rewrite <- app_assoc; reflexivity).
      apply IH.
      * apply Forall_app. split.
        -- eapply Forall_impl; [|exact Hpre]. intros t Ht. simpl in Ht. lia.
        -- eapply Forall_impl; [|apply camera_triplets_range; assumption].
           intros t Ht. simpl in Ht. lia.
      * rewrite length_app. simpl. lia.
      * assumption.
Qed.

(** [P * v], row by row, from landmark [o] on. *)
Lemma sparse_blockwise_vector (cams : list Mat) :
  Forall is_3x4 cams ->
  forall (o : nat) (Tpre : list (nat * nat * Qc)) (vpre v : list Qc),
  Forall (fun t => triplet_row t < 3 * o) Tpre ->
  length vpre = 4 * o ->
  length v = 4 * length cams ->
  map (fun i =>
         dot
           (map triplet_value
              (filter (fun t => triplet_row t =? i)
                      (Tpre ++ triplets_from o cams)))
           (map (fun t => nth (triplet_col t) (vpre ++ v) (Q2Qc 0))
              (filter (fun t => triplet_row t =? i)
                      (Tpre ++ triplets_from o cams))))
      (seq (3 * o) (3 * length cams))
  = blockwise_vector cams v.
Proof.
  induction 1 as [|C cams HC Hcams IH]; intros o Tpre vpre v Hpre Hvpre Hv.
  - reflexivity.
  - cbn [length] in *.
    destruct (four_rows _ v Hv) as (b0 & b1 & b2 & b3 & v' & -> & Hv').
    rewrite seq_three, map_app. cbn [blockwise_vector]. f_equal.
    + cbn [map]. rewrite !row_selection by (assumption || lia).
      rewrite !nth_block by assumption.
      rewrite dense_3x4, !Mat_row_3x4 by assumption.
      rewrite !map_map. reflexivity.
    + cbn [triplets_from]. rewrite app_assoc.
      replace (vpre ++ [b0; b1; b2; b3] ++ v')
        with ((vpre ++ [b0; b1; b2; b3]) ++ v')
        by (rewrite <- app_assoc; reflexivity).
      apply IH.
      * apply Forall_app. split.
        -- eapply Forall_impl; [|exact Hpre]. intros t Ht. simpl in Ht. lia.
        -- eapply Forall_impl; [|apply camera_triplets_range; assumption].
           intros t Ht. simpl in Ht. lia.
      * rewrite length_app. simpl. lia.
      * assumption.
Qed.

End SparseLemmas.


Section BlockDiagonal.
Local Open Scope Qc_scope.
Variable n : nat.

Lemma vadd_zeros_l (u : list Qc) : length u = n -> vadd (zeros n) u = u.
Proof. intros H. vec_ring. Qed.

Lemma vadd_zeros_r (u : list Qc) : length u = n -> vadd u (zeros n) = u.
Proof. intros H. vec_ring. Qed.

Lemma vadd_assoc (u v w : list Qc) :
  vadd u (vadd v w) = vadd (vadd u v) w.
Proof.
  unfold vadd. revert v w.
  induction u as [|a u IH]; intros [|b v] [|c w]; simpl; auto.
  f_equal; [ring | apply IH].
Qed.

Lemma lincomb_zeros (k : nat) (M : list (list Qc)) :
  Forall (fun row => length row = n) M -> lincomb n (zeros k) M = zeros n.
Proof.
  intros HM. revert k. induction HM as [|row M Hrow HM IH]; intros [|k];
    try reflexivity.
  change (zeros (S k)) with (0 :: zeros k). cbn [lincomb]. rewrite IH.
  vec_ring.
Qed.

Lemma lincomb_app (z1 z2 : list Qc) (M1 M2 : list (list Qc)) :
  length z1 = length M1 ->
  Forall (fun row => length row = n) M2 ->
  lincomb n (z1 ++ z2) (M1 ++ M2)
  = vadd (lincomb n z1 M1) (lincomb n z2 M2).
Proof.
  intros Hl H2. revert M1 Hl.
  induction z1 as [|a z1 IH]; intros [|row M1] Hl; try discriminate.
  - simpl. rewrite vadd_zeros_l; [reflexivity|].
    apply length_lincomb. assumption.
  - cbn [app lincomb]. rewrite IH by (simpl in Hl; lia).
    apply vadd_assoc.
Qed.

Lemma length_Mat_row (C : Mat) (x : nat) : length (Mat_row C x) = cols C.
Proof. unfold Mat_row. rewrite length_map, length_seq. reflexivity. Qed.

Lemma length_block_diagonal (cams : list Mat) :
  Forall is_3x4 cams -> length (block_diagonal cams) = (3 * length cams)%nat.
Proof.
  induction 1 as [|C cams HC Hcams IH]; [reflexivity|].
  cbn [block_diagonal length]. rewrite length_app, !length_map, IH.
  unfold dense. rewrite length_map, length_seq. destruct HC as [Hr _]. lia.
Qed.

Lemma block_diagonal_blockwise (cams : list Mat) :
  Forall is_3x4 cams ->
  forall V : list (list Qc),
  length V = (4 * length cams)%nat ->
  Forall (fun row => length row = n) V ->
  mmul n (block_diagonal cams) V = blockwise n cams V.
Proof.
  induction 1 as [|C cams HC Hcams IH]; intros V HV HVn; [reflexivity|].
  cbn [length] in HV.
  destruct (four_rows _ V HV) as (b0 & b1 & b2 & b3 & V' & -> & HV').
  apply Forall_app in HVn. destruct HVn as [HB HV'n].
  cbn [block_diagonal blockwise].
  change (skipn 4 ([b0; b1; b2; b3] ++ V')) with V'.
  change (firstn 4 ([b0; b1; b2; b3] ++ V')) with [b0; b1; b2; b3].
  unfold mmul at 1. rewrite map_app. f_equal.
  - unfold mmul. rewrite map_map. apply map_ext_in. intros r Hr.
    assert (Hlen : length r = 4).
    { unfold dense in Hr. apply in_map_iff in Hr. destruct Hr as [x [<- _]].
      rewrite length_Mat_row. apply HC. }
    rewrite lincomb_app by assumption.
    rewrite lincomb_zeros by assumption.
    rewrite vadd_zeros_r; [reflexivity|].
    apply length_lincomb. assumption.
  - rewrite map_map.
    rewrite <- (IH V' HV' HV'n). unfold mmul. apply map_ext. intros r.
    change (zeros 4 ++ r) with ([0; 0; 0; 0] ++ r).
    rewrite lincomb_app by (reflexivity || assumption).
    change [0; 0; 0; 0] with (zeros 4).
    rewrite lincomb_zeros by assumption.
    rewrite vadd_zeros_l; [reflexivity|].
    apply length_lincomb. assumption.
Qed.

Lemma block_diagonal_blockwise_vector (cams : list Mat) :
  Forall is_3x4 cams ->
  forall v : list Qc,
  length v = (4 * length cams)%nat ->
  mvmul (block_diagonal cams) v = blockwise_vector cams v.
Proof.
  induction 1 as [|C cams HC Hcams IH]; intros v Hv; [reflexivity|].
  cbn [length] in Hv.
  destruct (four_rows _ v Hv) as (b0 & b1 & b2 & b3 & v' & -> & Hv').
  cbn [block_diagonal blockwise_vector].
  change (skipn 4 ([b0; b1; b2; b3] ++ v')) with v'.
  change (firstn 4 ([b0; b1; b2; b3] ++ v')) with [b0; b1; b2; b3].
  unfold mvmul at 1. rewrite map_app. f_equal.
  - unfold mvmul. rewrite map_map. apply map_ext_in. intros r Hr.
    assert (Hlen : length r = 4).
    { unfold dense in Hr. apply in_map_iff in Hr. destruct Hr as [x [<- _]].
      rewrite length_Mat_row. apply HC. }
    rewrite dot_app by assumption. rewrite dot_zeros_l. ring.
  - rewrite map_map. rewrite <- (IH v' Hv'). unfold mvmul.
    apply map_ext. intros r.
    change (zeros 4 ++ r) with ([0; 0; 0; 0] ++ r).
    rewrite dot_app by reflexivity. simpl. ring.
Qed.

End BlockDiagonal.


(* ================================================================= *)
(** ** The call on inputs whose accesses are all in range *)

Section DiagonalWeights.
Local Open Scope Qc_scope.

Lemma lincomb_cons_zero (k : nat) (z : list Qc) (M : list (list Qc)) :
  lincomb (S k) z (map (cons 0) M) = 0 :: lincomb k z M.
Proof.
  revert z. induction M as [|row M IH]; intros [|a z]; try reflexivity.
  cbn [map lincomb]. rewrite IH. cbn. f_equal. ring.
Qed.

Lemma vscale_zeros (a : Qc) (k : nat) : vscale a (zeros k) = zeros k.
Proof.
  induction k as [|k IH]; [reflexivity|].
  change (zeros (S k)) with (0 :: zeros k). cbn [vscale map].
  fold (vscale a (zeros k)). rewrite IH. f_equal. ring.
Qed.

Lemma lincomb_diag (d z : list Qc) :
  length z = length d -> lincomb (length d) z (diag d) = map2 Qcmult z d.
Proof.
  revert z. induction d as [|d0 d IH]; intros [|a z] H; try discriminate;
    [reflexivity|].
  cbn [diag length lincomb map2]. rewrite lincomb_cons_zero, IH
    by (simpl in H; lia).
  cbn [vscale map]. fold (vscale a (zeros (length d))).
  rewrite vscale_zeros. cbn [vadd map2].
  fold (vadd (zeros (length d)) (map2 Qcmult z d)).
  rewrite vadd_zeros_l by (rewrite length_map2; simpl in H; lia).
  f_equal. ring.
Qed.

Lemma mmul_diag (k : nat) (T : list (list Qc)) (d : list Qc) :
  is_matrix k (length d) T -> mmul (length d) T (diag d) = mul_diag_r T d.
Proof.
  intros [_ HT]. unfold mmul, mul_diag_r. apply map_ext_in.
  intros row Hrow. rewrite Forall_forall in HT.
  apply lincomb_diag. apply HT. assumption.
Qed.

(** The normal equations in the words of the specification are those
    that the code sets up. *)
Lemma spec_normal_equations (m n : nat) (A : list (list Qc)) (b : list Qc)
    (w lam : Qc) :
  is_matrix m n A -> length b = m ->
  normal_matrix n A (diag (constant m w)) lam
  = fst (normal_equations n A b (constant m w) lam)
  /\ vopp (mvmul (mmul (length A) (transpose n A) (diag (constant m w))) b)
     = snd (normal_equations n A b (constant m w) lam).
Proof.
  intros HA Hb. pose proof HA as [Hm Hr].
  assert (E : mmul (length A) (transpose n A) (diag (constant m w))
              = mul_diag_r (transpose n A) (constant m w)).
  { pose proof (transpose_is_matrix n A Hr) as HT.
    rewrite Hm in *.
    assert (Hl : length (constant m w) = m) by apply repeat_length.
    rewrite <- Hl at 1. apply (mmul_diag n). rewrite Hl. assumption. }
  unfold normal_matrix. rewrite E. split; [reflexivity|].
  rewrite (normal_rhs_eq m n A b w lam HA Hb).
  rewrite mvmul_mul_diag_r, mvmul_transpose by assumption.
  rewrite <- Hb, vscale_constant. reflexivity.
Qed.

Lemma sigma_squared_2D_nonneg (d m : option Qc) :
  0 <= sigma_squared_2D d m.
Proof.
  unfold sigma_squared_2D. apply Qc_sum_nonneg.
  - destruct d; [apply Qc_square_nonneg | apply of_nat_nonneg].
  - destruct m; [apply Qc_square_nonneg | apply Qcle_refl].
Qed.

Lemma Qc_inv_nonneg (a : Qc) : 0 <= a -> 0 <= 1 / a.
Proof.
  intros Ha. unfold Qcdiv. rewrite Qcmult_1_l.
  assert (E : (this (/ a) == / this a)%Q)
    by (unfold Qcinv, Q2Qc; cbn [this]; apply Qred_correct).
  unfold Qcle in *. rewrite E.
  change (this (Q2Qc 0)) with 0%Q in *.
  apply Qinv_le_0_compat. assumption.
Qed.

Lemma Omega_weight_nonneg (d m : option Qc) :
  0 <= 1 / sigma_squared_2D d m.
Proof. apply Qc_inv_nonneg, sigma_squared_2D_nonneg. Qed.

Lemma Omega_weight_nonzero (d m : option Qc) :
  sigma_squared_2D d m <> 0 -> 1 / sigma_squared_2D d m <> 0.
Proof.
  intros H E. apply H.
  assert (E' : sigma_squared_2D d m * (1 / sigma_squared_2D d m) = 1)
    by (field; assumption).
  rewrite E in E'. rewrite Qcmult_0_r in E'. discriminate.
Qed.

End DiagonalWeights.

Lemma fold_left_total (ls : list (list Vec2f)) (a : nat) :
  fold_left (fun total l => total + length l) ls a
  = a + list_sum (map (@length Vec2f) ls).
Proof.
  revert a. induction ls as [|l ls IH]; intros a; simpl; [lia|].
  rewrite IH. lia.
Qed.

Lemma total_num_landmarks (cams : list Mat) (ls : list (list Vec2f))
    (ids : list (list nat)) (faces : list (list Qc)) :
  length cams = length ls -> length ls = length ids ->
  total_num_landmarks_dimension ls
  = landmark_count (images_of cams ls ids faces).
Proof.
  unfold total_num_landmarks_dimension. rewrite fold_left_total.
  cbn [Nat.add]. revert ls ids faces.
  induction cams as [|C cams IH]; intros [|l ls] [|id ids] faces H1 H2;
    try discriminate; [reflexivity|].
  cbn [images_of]. rewrite landmark_count_cons. cbn [map list_sum].
  simpl in H1, H2. rewrite <- IH by lia. reflexivity.
Qed.

Lemma length_images_of (cams : list Mat) (ls : list (list Vec2f))
    (ids : list (list nat)) (faces : list (list Qc)) :
  length cams = length ls -> length ls = length ids ->
  length (images_of cams ls ids faces) = length cams.
Proof.
  revert ls ids faces.
  induction cams as [|C cams IH]; intros [|l ls] [|id ids] faces H1 H2;
    try discriminate; [reflexivity|].
  cbn [images_of length]. simpl in H1, H2. rewrite IH by lia. reflexivity.
Qed.

Lemma cameras_are_3x4 (mm : MorphableModel) (imgs : list image) :
  Forall (image_ok mm) imgs -> Forall is_3x4 (cameras_per_landmark imgs).
Proof.
  unfold cameras_per_landmark. intros H. apply Forall_flat_map.
  eapply Forall_impl; [|exact H]. intros img Himg.
  apply Forall_forall. intros C HC. apply repeat_spec in HC. subst.
  split; [apply (camera_rows mm img Himg) | apply (camera_cols mm img Himg)].
Qed.

Lemma length_b_spec (mm : MorphableModel) (imgs : list image) :
  Forall (image_ok mm) imgs ->
  length (b_spec mm imgs) = 3 * landmark_count imgs.
Proof.
  intros H. unfold b_spec, P_spec.
  rewrite length_vsub, length_mvmul, length_y_spec.
  rewrite length_block_diagonal by (apply (cameras_are_3x4 mm); assumption).
  rewrite length_cameras_per_landmark. lia.
Qed.

Section WellFormedCall.
Variables (mm : MorphableModel) (n : nat).
Hypothesis Hn : n <= get_num_principal_components (get_shape_model mm).

Lemma V_hat_h_spec_widths (imgs : list image) :
  Forall (fun row => length row = n) (V_hat_h_spec mm n imgs).
Proof.
  unfold V_hat_h_spec. apply Forall_flat_map. apply Forall_forall.
  intros img _. apply Forall_flat_map. apply Forall_forall. intros id _.
  apply Forall_app. split.
  - apply basis_rows_widths. assumption.
  - constructor; [apply length_zeros | constructor].
Qed.

(** After the loop, [A = P * V_hat_h] and [b = P * v_bar - y] are the
    matrices of the specification. *)
Lemma products_of_assembled (imgs : list image) (P : SparseMatrix) :
  Forall (image_ok mm) imgs ->
  P = {| sparse_rows := 3 * landmark_count imgs;
         sparse_cols := 4 * landmark_count imgs;
         triplets := triplets_from 0 (cameras_per_landmark imgs) |} ->
  sparse_times_dense n P (V_hat_h_spec mm n imgs) = A_spec mm n imgs
  /\ vsub (sparse_times_vector P (v_bar_spec mm imgs)) (y_spec imgs)
     = b_spec mm imgs.
Proof.
  intros Himgs ->. pose proof (cameras_are_3x4 mm imgs Himgs) as H34.
  pose proof (length_cameras_per_landmark imgs) as Hl.
  unfold A_spec, b_spec, P_spec, sparse_times_dense, sparse_times_vector,
    row_triplets. cbn [sparse_rows triplets]. split.
  - rewrite block_diagonal_blockwise;
      [| assumption
       | rewrite Hl; apply length_V_hat_h_spec; assumption
       | apply V_hat_h_spec_widths ].
    rewrite <- (sparse_blockwise n _ H34 0 [] [] (V_hat_h_spec mm n imgs));
      [ rewrite Hl; reflexivity
      | constructor
      | reflexivity
      | rewrite Hl; apply length_V_hat_h_spec; assumption ].
  - f_equal.
    rewrite block_diagonal_blockwise_vector;
      [| assumption | rewrite Hl; apply length_v_bar_spec; assumption ].
    rewrite <- (sparse_blockwise_vector _ H34 0 [] [] (v_bar_spec mm imgs));
      [ rewrite Hl; reflexivity
      | constructor
      | reflexivity
      | rewrite Hl; apply length_v_bar_spec; assumption ].
Qed.

Lemma A_spec_is_matrix (imgs : list image) :
  Forall (image_ok mm) imgs ->
  is_matrix (3 * landmark_count imgs) n (A_spec mm n imgs).
Proof.
  intros H. unfold A_spec.
  pose proof (mmul_is_matrix n (P_spec imgs) (V_hat_h_spec mm n imgs)
                (V_hat_h_spec_widths imgs)) as HM.
  unfold P_spec in HM at 1.
  rewrite length_block_diagonal in HM
    by (apply (cameras_are_3x4 mm); assumption).
  rewrite length_cameras_per_landmark in HM. exact HM.
Qed.

End WellFormedCall.


Lemma allocate_assembled (mm : MorphableModel) (n total : nat) :
  allocate n total = assembled mm n [] total.
Proof. reflexivity. Qed.

(** What the call returns on an input whose accesses are all in range. *)
Theorem fit_of_input_ok (mm : MorphableModel) (cams : list Mat)
    (ls : list (list Vec2f)) (ids : list (list nat)) (faces : list (list Qc))
    (lambda : Qc) (nco : option nat) (d m : option Qc) :
  input_ok mm cams ls ids faces nco ->
  fit_shape_to_landmarks_linear_multi mm cams ls ids faces lambda nco d m
  = Returned
      (let imgs := images_of cams ls ids faces in
       let n := num_coeffs mm nco in
       let (M, r) :=
         normal_equations n (A_spec mm n imgs) (b_spec mm imgs)
           (constant (3 * landmark_count imgs)
                     (Q2Qc 1 / sigma_squared_2D d m)%Qc)
           (lambda * of_nat (length cams))%Qc in
       colPivHouseholderQr_solve n M r).
Proof.
  intros [H1 H2 Hn Himgs]. unfold fit_shape_to_landmarks_linear_multi.
  rewrite H1, H2, !Nat.eqb_refl. cbn [andb negb].
  fold (num_coeffs mm nco).
  rewrite (total_num_landmarks cams ls ids faces) by congruence.
  set (imgs := images_of cams ls ids faces) in *.
  set (n := num_coeffs mm nco) in *.
  rewrite (allocate_assembled mm).
  pose proof (image_loop_ok mm n Hn imgs Himgs [] 0 (Forall_nil _)) as Hloop.
  rewrite Nat.add_0_r in Hloop. cbn [app] in Hloop. rewrite Hloop.
  unfold assembled. cbn [P_coefficients V_hat_h v_bar y].
  rewrite <- (length_cameras_per_landmark imgs) at 1 2.
  rewrite setFromTriplets_ok by (apply (cameras_are_3x4 mm); assumption).
  rewrite (length_cameras_per_landmark imgs).
  change (mzeros (4 * 0) n) with (@nil (list Qc)).
  change (ones (3 * 0)) with (@nil Qc). change (ones (4 * 0)) with (@nil Qc).
  rewrite !app_nil_r.
  destruct (products_of_assembled mm n Hn imgs _ Himgs eq_refl) as [EA Eb].
  rewrite EA, Eb. reflexivity.
Qed.


(* ================================================================= *)
(** * Properties of the fitting functions *)

Lemma sample_input_ok (mm : MorphableModel) (face : list Qc) :
  mm = sample_model ->
  face = [] \/ length face = 3 ->
  input_ok mm [sample_camera] [[(q 1 1, q 0 1)]] [[0]] [face] None.
Proof.
  intros -> Hface. constructor; try reflexivity.
  constructor; [|constructor].
  constructor; cbn; try reflexivity; try discriminate.
  - repeat constructor.
  - constructor; [|constructor].
    unfold effective_base_face, base_face_or_mean. cbn.
    destruct Hface as [->|H]; cbn; [lia|].
    destruct face; [discriminate|]. cbn. simpl in H. lia.
Qed.

(** Comparing the call's result with an expected vector by evaluation. *)
Lemma Returned_eqb (o : outcome) (c c' : list Qc) :
  o = Returned c -> vec_eqb c c' = true -> o = Returned c'.
Proof. intros -> H. apply vec_eqb_eq in H. congruence. Qed.

(** C1, as stated, fails for a negative regularisation parameter: with
    one landmark, the default variance 3 and [lambda = -1/3] the matrix
    [A^T Omega A + lambda' I] is zero and the right-hand side is [1/3].
    No vector solves these equations; the call returns [(0)]. *)
Lemma C1_counterexample :
  let imgs := images_of [sample_camera] [[(q 1 1, q 0 1)]] [[0]] [[]] in
  let A := A_spec sample_model 1 imgs in
  let b := b_spec sample_model imgs in
  let Omega := Omega_spec (landmark_count imgs) None None in
  let weight := (q (-1) 3 * of_nat 1)%Qc in
  input_ok sample_model [sample_camera] [[(q 1 1, q 0 1)]] [[0]] [[]] None
  /\ fit_shape_to_landmarks_linear_multi sample_model [sample_camera]
       [[(q 1 1, q 0 1)]] [[0]] [[]] (q (-1) 3) None None None
     = Returned [q 0 1]
  /\ ~ solves_normal_equations 1 A Omega b weight [q 0 1]
  /\ forall c, length c = 1 -> ~ solves_normal_equations 1 A Omega b weight c.
Proof.
  cbv zeta.
  assert (EM : normal_matrix 1
                 (A_spec sample_model 1
                    (images_of [sample_camera] [[(q 1 1, q 0 1)]] [[0]] [[]]))
                 (Omega_spec
                    (landmark_count
                       (images_of [sample_camera] [[(q 1 1, q 0 1)]] [[0]]
                          [[]])) None None)
                 (q (-1) 3 * of_nat 1)%Qc
               = [[Q2Qc 0]])
    by (apply mat_eqb_eq; vm_compute; reflexivity).
  assert (Er : vopp (mvmul
                       (mmul (length
                                (A_spec sample_model 1
                                   (images_of [sample_camera]
                                      [[(q 1 1, q 0 1)]] [[0]] [[]])))
                          (transpose 1
                             (A_spec sample_model 1
                                (images_of [sample_camera]
                                   [[(q 1 1, q 0 1)]] [[0]] [[]])))
                          (Omega_spec
                             (landmark_count
                                (images_of [sample_camera]
                                   [[(q 1 1, q 0 1)]] [[0]] [[]]))
                             None None))
                       (b_spec sample_model
                          (images_of [sample_camera] [[(q 1 1, q 0 1)]]
                             [[0]] [[]])))
               = [q 1 3])
    by (apply vec_eqb_eq; vm_compute; reflexivity).
  assert (Hnone : forall c, length c = 1 ->
            ~ solves_normal_equations 1
                (A_spec sample_model 1
                   (images_of [sample_camera] [[(q 1 1, q 0 1)]] [[0]] [[]]))
                (Omega_spec
                   (landmark_count
                      (images_of [sample_camera] [[(q 1 1, q 0 1)]] [[0]]
                         [[]])) None None)
                (b_spec sample_model
                   (images_of [sample_camera] [[(q 1 1, q 0 1)]] [[0]] [[]]))
                (q (-1) 3 * of_nat 1)%Qc c).
  { intros c Hc H. unfold solves_normal_equations in H.
    rewrite EM, Er in H.
    destruct c as [|x [|? ?]]; discriminate. }
  split; [apply sample_input_ok; [reflexivity | left; reflexivity]|].
  split; [eapply Returned_eqb; [vm_compute; reflexivity
                               | vm_compute; reflexivity]|].
  split; [apply Hnone; reflexivity | exact Hnone].
Qed.

(** C1, amended.  On every input whose per-image lists have matching
    lengths, whose base faces are supplied and whose accesses are in
    range, with a non-zero variance and a non-negative regularisation
    parameter, the call returns a vector [c] that solves the regularised
    normal equations [(A^T Omega A + lambda' I) c = - A^T Omega b], where
    [A = P V_hat_h], [b = P v_bar - y] are built from the matrices
    described in the specification, [Omega] is diagonal with entries
    [1 / (sigma_detector^2 + sigma_model^2)] and [lambda'] is
    [lambda] times the number of images; when the matrix of the
    equations has a trivial kernel, [c] is their only solution. *)
Theorem C1_returns_solution_of_normal_equations (mm : MorphableModel)
    (cams : list Mat) (ls : list (list Vec2f)) (ids : list (list nat))
    (faces : list (list Qc)) (lambda : Qc) (nco : option nat)
    (d m : option Qc) :
  input_ok mm cams ls ids faces nco ->
  (detector_variance d + model_variance m)%Qc <> Q2Qc 0 ->
  (Q2Qc 0 <= lambda)%Qc ->
  let imgs := images_of cams ls ids faces in
  let n := num_coeffs mm nco in
  let A := A_spec mm n imgs in
  let b := b_spec mm imgs in
  let Omega := Omega_spec (landmark_count imgs) d m in
  let weight := (lambda * of_nat (length cams))%Qc in
  exists c,
    fit_shape_to_landmarks_linear_multi mm cams ls ids faces lambda nco d m
    = Returned c
    /\ length c = n
    /\ solves_normal_equations n A Omega b weight c
    /\ (trivial_kernel n (normal_matrix n A Omega weight) ->
        forall c', length c' = n ->
          solves_normal_equations n A Omega b weight c' -> c' = c).
Proof.
  intros Hok Hsigma Hlambda. cbv zeta.
  rewrite (fit_of_input_ok mm cams ls ids faces lambda nco d m Hok).
  cbv zeta. unfold Omega_spec. rewrite variance_eq.
  pose proof (images_ok _ _ _ _ _ _ Hok) as Himgs.
  pose proof (coefficients_in_model _ _ _ _ _ _ Hok) as Hn.
  set (imgs := images_of cams ls ids faces) in *.
  set (n := num_coeffs mm nco) in *.
  set (w := (Q2Qc 1 / sigma_squared_2D d m)%Qc).
  set (weight := (lambda * of_nat (length cams))%Qc).
  pose proof (A_spec_is_matrix mm n Hn imgs Himgs) as HA.
  pose proof (length_b_spec mm imgs Himgs) as Hb.
  set (A := A_spec mm n imgs) in *. set (b := b_spec mm imgs) in *.
  destruct (spec_normal_equations _ n A b w weight HA Hb) as [EM Er].
  assert (Hw : (Q2Qc 0 <= w)%Qc) by apply Omega_weight_nonneg.
  assert (Hweight : (Q2Qc 0 <= weight)%Qc).
  { unfold weight. pose proof (of_nat_nonneg (length cams)) as Hk.
    set (k := of_nat (length cams)) in *. clearbody k. clear - Hlambda Hk.
    qc_to_q. nra. }
  pose proof (normal_equations_solved _ n A b w HA Hb weight Hw Hweight) as Hs.
  pose proof (normal_matrix_is_matrix _ n A b w weight HA) as HM.
  unfold solves_normal_equations. rewrite EM, Er.
  destruct (normal_equations n A b
              (constant (3 * landmark_count imgs) w) weight) as [M r].
  cbn [fst snd] in *.
  exists (colPivHouseholderQr_solve n M r).
  split; [reflexivity|]. split; [apply length_colPivHouseholderQr_solve|].
  split; [assumption|].
  intros Hker c' Hc' Hs'. unfold trivial_kernel in Hker.
  pose proof HM as [HMl HMr]. rewrite HMl in Hker.
  apply (solution_unique n n M); auto.
  - apply length_colPivHouseholderQr_solve.
  - congruence.
Qed.

Lemma C1_witness :
  let imgs := images_of [sample_camera] [[(q 1 1, q 0 1)]] [[0]] [[]] in
  let A := A_spec sample_model 1 imgs in
  let b := b_spec sample_model imgs in
  let Omega := Omega_spec (landmark_count imgs) None None in
  let weight := (q 1 1 * of_nat 1)%Qc in
  exists c,
    fit_shape_to_landmarks_linear_multi sample_model [sample_camera]
      [[(q 1 1, q 0 1)]] [[0]] [[]] (q 1 1) None None None
    = Returned c
    /\ length c = 1
    /\ solves_normal_equations 1 A Omega b weight c
    /\ (trivial_kernel 1 (normal_matrix 1 A Omega weight) ->
        forall c', length c' = 1 ->
          solves_normal_equations 1 A Omega b weight c' -> c' = c).
Proof.
  apply (C1_returns_solution_of_normal_equations sample_model
           [sample_camera] [[(q 1 1, q 0 1)]] [[0]] [[]] (q 1 1)
           None None None).
  - apply sample_input_ok; [reflexivity | left; reflexivity].
  - intros E. apply (f_equal this) in E. vm_compute in E. discriminate.
  - vm_compute. discriminate.
Defined.


Lemma ambiguous_input_ok :
  input_ok ambiguous_model [sample_camera] [[(q 1 1, q 0 1)]] [[0]] [[]] None.
Proof.
  constructor; try reflexivity.
  constructor; [|constructor].
  constructor; cbn; try reflexivity; try discriminate.
  - repeat constructor.
  - constructor; [|constructor].
    unfold effective_base_face, base_face_or_mean. cbn. lia.
Qed.

(** C4, as stated, fails: with the two indistinguishable components of
    [ambiguous_model], one landmark and no regularisation, the matrix of
    the normal equations maps [(1, -1)] to zero, and the call returns the
    vector [(1, 0)]. *)
Lemma C4_counterexample :
  mvmul (normal_matrix 2
           (A_spec ambiguous_model 2
              (images_of [sample_camera] [[(q 1 1, q 0 1)]] [[0]] [[]]))
           (Omega_spec 1 None None) (q 0 1 * of_nat 1)%Qc)
        [q 1 1; q (-1) 1]
  = zeros 2
  /\ fit_shape_to_landmarks_linear_multi ambiguous_model [sample_camera]
       [[(q 1 1, q 0 1)]] [[0]] [[]] (q 0 1) None None None
     = Returned [q 1 1; q 0 1].
Proof.
  split.
  - apply vec_eqb_eq. vm_compute. reflexivity.
  - eapply Returned_eqb; [vm_compute; reflexivity | vm_compute; reflexivity].
Qed.

(** C4, amended.  The call has no failure for a singular system: on
    every input whose per-image lists have matching lengths, whose base
    faces are supplied and whose accesses are in range it returns a
    coefficient vector with one entry per coefficient that is fit, the
    matrix of the normal equations being invertible or not. *)
Theorem C4_singular_system_returns_vector (mm : MorphableModel)
    (cams : list Mat) (ls : list (list Vec2f)) (ids : list (list nat))
    (faces : list (list Qc)) (lambda : Qc) (nco : option nat)
    (d m : option Qc) :
  input_ok mm cams ls ids faces nco ->
  exists c,
    fit_shape_to_landmarks_linear_multi mm cams ls ids faces lambda nco d m
    = Returned c
    /\ length c = num_coeffs mm nco.
Proof.
  intros Hok.
  rewrite (fit_of_input_ok mm cams ls ids faces lambda nco d m Hok).
  cbv zeta.
  destruct (normal_equations _ _ _ _ _) as [M r].
  eexists. split; [reflexivity | apply length_colPivHouseholderQr_solve].
Qed.

Lemma C4_witness :
  exists c,
    fit_shape_to_landmarks_linear_multi ambiguous_model [sample_camera]
      [[(q 1 1, q 0 1)]] [[0]] [[]] (q 0 1) None None None
    = Returned c
    /\ length c = 2.
Proof.
  exact (C4_singular_system_returns_vector ambiguous_model [sample_camera]
           [[(q 1 1, q 0 1)]] [[0]] [[]] (q 0 1) None None None
           ambiguous_input_ok).
Defined.

(** C5.  The weight on the identity matrix of the system that is solved
    is the caller's [lambda] times the number of images: the call returns
    what the solver returns for the matrix
    [A^T Omega A + (lambda * M) I] and the right-hand side
    [- A^T Omega b]. *)
Theorem C5_regularisation_scaled_by_number_of_images (mm : MorphableModel)
    (cams : list Mat) (ls : list (list Vec2f)) (ids : list (list nat))
    (faces : list (list Qc)) (lambda : Qc) (nco : option nat)
    (d m : option Qc) :
  input_ok mm cams ls ids faces nco ->
  let imgs := images_of cams ls ids faces in
  let n := num_coeffs mm nco in
  let A := A_spec mm n imgs in
  let Omega := Omega_spec (landmark_count imgs) d m in
  let AtOmegaA := mmul n (mmul (length A) (transpose n A) Omega) A in
  fit_shape_to_landmarks_linear_multi mm cams ls ids faces lambda nco d m
  = Returned
      (colPivHouseholderQr_solve n
         (madd AtOmegaA
               (mscale (lambda * of_nat (length cams))%Qc (identity n)))
         (vopp (mvmul (mmul (length A) (transpose n A) Omega)
                      (b_spec mm imgs)))).
Proof.
  intros Hok. cbv zeta.
  rewrite (fit_of_input_ok mm cams ls ids faces lambda nco d m Hok).
  cbv zeta. unfold Omega_spec. rewrite variance_eq.
  pose proof (images_ok _ _ _ _ _ _ Hok) as Himgs.
  pose proof (coefficients_in_model _ _ _ _ _ _ Hok) as Hn.
  set (imgs := images_of cams ls ids faces) in *.
  set (n := num_coeffs mm nco) in *.
  set (w := (Q2Qc 1 / sigma_squared_2D d m)%Qc).
  set (weight := (lambda * of_nat (length cams))%Qc).
  pose proof (A_spec_is_matrix mm n Hn imgs Himgs) as HA.
  pose proof (length_b_spec mm imgs Himgs) as Hb.
  set (A := A_spec mm n imgs) in *. set (b := b_spec mm imgs) in *.
  destruct (spec_normal_equations _ n A b w weight HA Hb) as [EM Er].
  unfold normal_matrix in EM. rewrite EM, Er.
  destruct (normal_equations n A b
              (constant (3 * landmark_count imgs) w) weight) as [M r].
  reflexivity.
Qed.

Lemma C5_witness :
  exists M r,
    fit_shape_to_landmarks_linear_multi sample_model
      [sample_camera; sample_camera]
      [[(q 1 1, q 0 1)]; [(q 1 1, q 0 1)]] [[0]; [0]] [[]; []] (q 1 1)
      None None None
    = Returned (colPivHouseholderQr_solve 1
                  (madd M (mscale (q 1 1 * of_nat 2)%Qc (identity 1))) r).
Proof.
  eexists. eexists.
  refine (C5_regularisation_scaled_by_number_of_images sample_model
            [sample_camera; sample_camera]
            [[(q 1 1, q 0 1)]; [(q 1 1, q 0 1)]] [[0]; [0]] [[]; []] (q 1 1)
            None None None _).
  constructor; try reflexivity.
  repeat (constructor;
          [ constructor; cbn; try reflexivity; try discriminate;
            repeat constructor; cbn; lia |]).
  constructor.
Defined.

(** C7.  The single-image function is the multi-image function on the
    one-element lists of its arguments. *)
Theorem C7_single_image_wrapper (mm : MorphableModel) (cam : Mat)
    (l : list Vec2f) (ids : list nat) (face : list Qc) (lambda : Qc)
    (nco : option nat) (d m : option Qc) :
  fit_shape_to_landmarks_linear mm cam l ids face lambda nco d m
  = fit_shape_to_landmarks_linear_multi mm [cam] [l] [ids] [face] lambda
      nco d m.
Proof. reflexivity. Qed.


Section MeanSubstitution.
Variables (mm : MorphableModel) (n : nat).

Lemma base_face_or_mean_idempotent (face : list Qc) :
  base_face_or_mean mm (base_face_or_mean mm face)
  = base_face_or_mean mm face.
Proof.
  unfold base_face_or_mean.
  destruct (length face =? 0) eqn:E; [|rewrite E; reflexivity].
  destruct (length (get_mean (get_shape_model mm)) =? 0); reflexivity.
Qed.

Lemma image_iteration_with_mean (cam : Mat) (l : list Vec2f)
    (ids : list nat) (face : option (list Qc)) (st : assembly) :
  image_iteration mm n
    {| camera := cam; image_landmarks := l; image_vertex_ids := ids;
       image_base_face := option_map (base_face_or_mean mm) face |} st
  = image_iteration mm n
      {| camera := cam; image_landmarks := l; image_vertex_ids := ids;
         image_base_face := face |} st.
Proof.
  unfold image_iteration.
  cbn [camera image_landmarks image_vertex_ids image_base_face].
  destruct face as [face|]; cbn [option_map]; [|reflexivity].
  rewrite base_face_or_mean_idempotent. reflexivity.
Qed.

Lemma image_loop_with_mean (cams : list Mat) :
  forall (ls : list (list Vec2f)) (ids : list (list nat))
         (faces : list (list Qc)) (st : assembly),
  image_loop mm n (images_of cams ls ids (with_mean mm faces)) st
  = image_loop mm n (images_of cams ls ids faces) st.
Proof.
  induction cams as [|cam cams IH]; intros [|l ls] [|id ids] faces st;
    try reflexivity.
  cbn [images_of image_loop].
  assert (E : hd_error (with_mean mm faces)
              = option_map (base_face_or_mean mm) (hd_error faces))
    by (destruct faces; reflexivity).
  assert (E' : tl (with_mean mm faces) = with_mean mm (tl faces))
    by (destruct faces; reflexivity).
  rewrite E, E', image_iteration_with_mean.
  destruct (image_iteration mm n _ st) as [st'|e]; [apply IH | reflexivity].
Qed.

End MeanSubstitution.

(** C9.  Where [base_face] has an entry for the image the claim holds:
    on a well-formed input the loop completes and leaves in [v_bar] the
    homogeneous coordinates of the landmark vertices in the base face of
    their image, which is the mean of the shape model for every image
    whose entry is empty.  Where the base shapes are not supplied at all,
    the default of the parameter being the empty list, it does not: with
    one image the call reads [base_face[0]] out of range and no mean is
    substituted. *)
Theorem C9_mean_for_empty_entry_not_for_absent_list (mm : MorphableModel)
    (cams : list Mat) (ls : list (list Vec2f)) (ids : list (list nat))
    (faces : list (list Qc)) (nco : option nat) :
  (input_ok mm cams ls ids faces nco ->
   exists st,
     image_loop mm (num_coeffs mm nco) (images_of cams ls ids faces)
       (allocate (num_coeffs mm nco) (total_num_landmarks_dimension ls))
     = inl st
     /\ v_bar st = v_bar_spec mm (images_of cams ls ids faces))
  /\ (v_bar_spec offset_model
        (images_of [sample_camera] [[(q 1 1, q 0 1)]] [[0]] [[]])
      = [q 5 1; q 6 1; q 7 1; q 1 1]
      /\ forall lambda d m,
           fit_shape_to_landmarks_linear_multi offset_model [sample_camera]
             [[(q 1 1, q 0 1)]] [[0]] [] lambda None d m
           = Aborted (out_of_range base_face_of_image)
               (Some (allocate 1 1))).
Proof.
  split; [|split].
  - intros Hok.
    pose proof (images_ok _ _ _ _ _ _ Hok) as Himgs.
    pose proof (coefficients_in_model _ _ _ _ _ _ Hok) as Hn.
    rewrite (total_num_landmarks cams ls ids faces
               (same_cameras _ _ _ _ _ _ Hok)
               (same_vertex_ids _ _ _ _ _ _ Hok)).
    rewrite (allocate_assembled mm).
    rewrite <- (Nat.add_0_r (landmark_count (images_of cams ls ids faces))).
    rewrite (image_loop_ok mm _ Hn _ Himgs [] 0 (Forall_nil _)).
    eexists. split; [reflexivity|].
    cbn [app assembled v_bar]. rewrite Nat.mul_0_r.
    change (ones 0) with (@nil Qc). apply app_nil_r.
  - reflexivity.
  - intros lambda d m. reflexivity.
Qed.

Lemma C9_witness :
  exists st,
    image_loop offset_model 1
      (images_of [sample_camera] [[(q 1 1, q 0 1)]] [[0]] [[]])
      (allocate 1 1)
    = inl st
    /\ v_bar st = [q 5 1; q 6 1; q 7 1; q 1 1].
Proof.
  destruct (C9_mean_for_empty_entry_not_for_absent_list offset_model
              [sample_camera] [[(q 1 1, q 0 1)]] [[0]] [[]] None)
    as [H [E _]].
  rewrite <- E. apply H.
  constructor; try reflexivity.
  constructor; [|constructor].
  constructor; cbn; try reflexivity; try discriminate.
  - repeat constructor.
  - constructor; [cbn; lia | constructor].
Defined.


Section Faults.
Variables (mm : MorphableModel) (n : nat).

Lemma image_iteration_needs_base_face (img : image) (st st' : assembly) :
  image_iteration mm n img st = inl st' ->
  length (image_landmarks img) = length (image_vertex_ids img)
  /\ image_base_face img <> None.
Proof.
  unfold image_iteration.
  destruct (length (image_landmarks img) =? length (image_vertex_ids img))
    eqn:E; cbn [negb]; [|discriminate].
  apply Nat.eqb_eq in E.
  destruct (image_base_face img); [|discriminate].
  intros _. split; [assumption | discriminate].
Qed.

Lemma image_loop_needs_base_faces (imgs : list image) :
  forall st st',
  image_loop mm n imgs st = inl st' ->
  Forall (fun img =>
            length (image_landmarks img) = length (image_vertex_ids img)
            /\ image_base_face img <> None) imgs.
Proof.
  induction imgs as [|img imgs IH]; intros st st' H; [constructor|].
  cbn [image_loop] in H.
  destruct (image_iteration mm n img st) as [st1|e] eqn:E; [|discriminate].
  constructor; [eapply image_iteration_needs_base_face; eassumption|].
  eapply IH; eassumption.
Qed.

Lemma image_iteration_count_mismatch (img : image) (st : assembly) :
  length (image_landmarks img) <> length (image_vertex_ids img) ->
  image_iteration mm n img st = inr (assertion_failed, st).
Proof.
  intros H. unfold image_iteration.
  apply Nat.eqb_neq in H. rewrite H. reflexivity.
Qed.

Lemma image_loop_count_mismatch (imgs : list image) :
  Exists (fun img =>
            length (image_landmarks img) <> length (image_vertex_ids img))
         imgs ->
  forall st, exists e, image_loop mm n imgs st = inr e.
Proof.
  induction 1 as [img imgs H | img imgs H IH]; intros st;
    cbn [image_loop].
  - rewrite image_iteration_count_mismatch by assumption. eauto.
  - destruct (image_iteration mm n img st) as [st1|e]; [apply IH | eauto].
Qed.

End Faults.

Lemma images_of_base_faces (cams : list Mat) :
  forall (ls : list (list Vec2f)) (ids : list (list nat))
         (faces : list (list Qc)),
  length cams = length ls -> length ls = length ids ->
  Forall (fun img => image_base_face img <> None)
         (images_of cams ls ids faces) ->
  length cams <= length faces.
Proof.
  induction cams as [|cam cams IH]; intros [|l ls] [|id ids] faces H1 H2 H;
    try discriminate; [simpl; lia|].
  cbn [images_of] in H. inversion H as [|? ? Hface Hrest]; subst.
  cbn [image_base_face] in Hface.
  destruct faces as [|face faces]; [exfalso; apply Hface; reflexivity|].
  cbn [tl] in Hrest. simpl in H1, H2.
  specialize (IH ls ids faces). simpl. 
  assert (length cams <= length faces) by (apply IH; [lia | lia | exact Hrest]).
  lia.
Qed.

(** C10.  The call reads [base_face[k]] for every image: it returns only
    when [base_face] has an entry for each image, and with one image or
    more and the default, empty, [base_face] the first image whose
    assertion holds is stopped by the out-of-range access to
    [base_face[0]], the matrices allocated and nothing written. *)
Theorem C10_base_face_entry_per_image (mm : MorphableModel)
    (cams : list Mat) (ls : list (list Vec2f)) (ids : list (list nat))
    (faces : list (list Qc)) (lambda : Qc) (nco : option nat)
    (d m : option Qc) :
  (forall c,
     fit_shape_to_landmarks_linear_multi mm cams ls ids faces lambda nco d m
     = Returned c ->
     length cams <= length faces)
  /\ (cams <> [] ->
      length cams = length ls -> length ls = length ids ->
      length (hd [] ls) = length (hd [] ids) ->
      fit_shape_to_landmarks_linear_multi mm cams ls ids [] lambda nco d m
      = Aborted (out_of_range base_face_of_image)
          (Some (allocate (num_coeffs mm nco)
                          (total_num_landmarks_dimension ls)))).
Proof.
  split.
  - intros c. unfold fit_shape_to_landmarks_linear_multi.
    destruct ((length cams =? length ls) && (length ls =? length ids))
      eqn:E; cbn [negb]; [|discriminate].
    apply andb_true_iff in E. destruct E as [E1 E2].
    apply Nat.eqb_eq in E1, E2.
    destruct (image_loop _ _ _ _) as [st|[f st]] eqn:El; [|discriminate].
    intros _. apply image_loop_needs_base_faces in El.
    apply (images_of_base_faces cams ls ids faces E1 E2).
    eapply Forall_impl; [|exact El]. intros img [_ H]. exact H.
  - intros Hcams H1 H2 H0. unfold fit_shape_to_landmarks_linear_multi.
    rewrite H1, H2, !Nat.eqb_refl. cbn [andb negb].
    destruct cams as [|cam cams]; [congruence|].
    destruct ls as [|l ls]; [discriminate|].
    destruct ids as [|id ids]; [discriminate|].
    cbn [images_of image_loop hd_error]. unfold image_iteration.
    cbn [image_landmarks image_vertex_ids image_base_face hd] in *.
    rewrite H0, Nat.eqb_refl. reflexivity.
Qed.

Lemma C10_witness :
  length [sample_camera] <= length [@nil Qc]
  /\ fit_shape_to_landmarks_linear_multi sample_model [sample_camera]
       [[(q 1 1, q 0 1)]] [[0]] [] (q 1 1) None None None
     = Aborted (out_of_range base_face_of_image) (Some (allocate 1 1)).
Proof.
  split.
  - refine (proj1 (C10_base_face_entry_per_image sample_model [sample_camera]
                     [[(q 1 1, q 0 1)]] [[0]] [[]] (q 1 1) None None None)
                  _ _).
    vm_compute. reflexivity.
  - refine (proj2 (C10_base_face_entry_per_image sample_model [sample_camera]
                     [[(q 1 1, q 0 1)]] [[0]] [] (q 1 1) None None None)
                  _ _ _ _); try reflexivity.
    discriminate.
Defined.


Lemma image_loop_app (mm : MorphableModel) (n : nat) (l1 l2 : list image)
    (st : assembly) :
  image_loop mm n (l1 ++ l2) st
  = match image_loop mm n l1 st with
    | inl st' => image_loop mm n l2 st'
    | inr e => inr e
    end.
Proof.
  revert st. induction l1 as [|img l1 IH]; intros st; [reflexivity|].
  cbn [app image_loop].
  destruct (image_iteration mm n img st); [apply IH | reflexivity].
Qed.

(** C3, as stated, fails: of two images the second has one landmark and no
    vertex id.  The assertion stops the call, but only when the loop
    reaches the second image: the matrices are allocated and the rows of
    the first image are written. *)
Lemma C3_counterexample :
  length (nth 1 [[(q 1 1, q 0 1)]; [(q 1 1, q 0 1)]] [])
  <> length (nth 1 [[0]; @nil nat] [])
  /\ exists st,
       fit_shape_to_landmarks_linear_multi sample_model
         [sample_camera; sample_camera]
         [[(q 1 1, q 0 1)]; [(q 1 1, q 0 1)]] [[0]; []] [[]; []] (q 1 1)
         None None None
       = Aborted assertion_failed (Some st)
       /\ V_hat_h st = [[q 1 1]; [q 0 1]; [q 0 1]; [q 0 1];
                        [q 0 1]; [q 0 1]; [q 0 1]; [q 0 1]]
       /\ y st = [q 1 1; q 0 1; q 1 1; q 1 1; q 1 1; q 1 1].
Proof.
  split; [discriminate|].
  eexists. split; [vm_compute; reflexivity|].
  split; reflexivity.
Qed.

(** C3, amended.  Lists of unequal lengths stop the call at its first
    assertion, before any matrix is allocated.  A difference between the
    landmark count and the vertex-id count of an image stops the call at
    the assertion that opens the loop iteration of that image: when the
    images before it are processed without a fault, the matrices hold
    their rows at that moment.  In either case no coefficient vector is
    returned. *)
Theorem C3_cardinality_assertions (mm : MorphableModel)
    (cams : list Mat) (ls : list (list Vec2f)) (ids : list (list nat))
    (faces : list (list Qc)) (lambda : Qc) (nco : option nat)
    (d m : option Qc) :
  (length cams <> length ls \/ length ls <> length ids ->
   fit_shape_to_landmarks_linear_multi mm cams ls ids faces lambda nco d m
   = Aborted assertion_failed None)
  /\ (length cams = length ls -> length ls = length ids ->
      forall done img rest,
        images_of cams ls ids faces = done ++ img :: rest ->
        Forall (image_ok mm) done ->
        num_coeffs mm nco
        <= get_num_principal_components (get_shape_model mm) ->
        length (image_landmarks img) <> length (image_vertex_ids img) ->
        fit_shape_to_landmarks_linear_multi mm cams ls ids faces lambda nco
          d m
        = Aborted assertion_failed
            (Some (assembled mm (num_coeffs mm nco) done
                     (landmark_count (img :: rest)))))
  /\ (length cams = length ls -> length ls = length ids ->
      Exists (fun img => length (image_landmarks img)
                         <> length (image_vertex_ids img))
             (images_of cams ls ids faces) ->
      result (fit_shape_to_landmarks_linear_multi mm cams ls ids faces
                lambda nco d m)
      = None).
Proof.
  split; [|split].
  - intros H. unfold fit_shape_to_landmarks_linear_multi.
    assert (E : (length cams =? length ls) && (length ls =? length ids)
                = false).
    { apply andb_false_iff.
      destruct H as [H|H]; [left | right]; apply Nat.eqb_neq; assumption. }
    rewrite E. reflexivity.
  - intros H1 H2 done img rest Himgs Hdone Hn Hcount.
    unfold fit_shape_to_landmarks_linear_multi.
    rewrite (total_num_landmarks cams ls ids faces H1 H2).
    rewrite H1, H2, !Nat.eqb_refl. cbn [andb negb].
    fold (num_coeffs mm nco). rewrite Himgs.
    rewrite landmark_count_app, (allocate_assembled mm), image_loop_app.
    rewrite (image_loop_ok mm _ Hn done Hdone [] _ (Forall_nil _)).
    cbn [app image_loop].
    rewrite image_iteration_count_mismatch by assumption. reflexivity.
  - intros H1 H2 Hex. unfold fit_shape_to_landmarks_linear_multi.
    rewrite H1, H2, !Nat.eqb_refl. cbn [andb negb].
    destruct (image_loop_count_mismatch mm
                (match nco with
                 | Some n => n
                 | None => get_num_principal_components (get_shape_model mm)
                 end) _ Hex
                (allocate
                   (match nco with
                    | Some n => n
                    | None =>
                        get_num_principal_components (get_shape_model mm)
                    end)
                   (total_num_landmarks_dimension ls)))
      as [[f st] E].
    rewrite E. reflexivity.
Qed.

Lemma C3_witness :
  fit_shape_to_landmarks_linear_multi sample_model
    [sample_camera; sample_camera]
    [[(q 1 1, q 0 1)]; [(q 1 1, q 0 1)]; [(q 1 1, q 0 1)]] [[0]; [0]; [0]]
    [[]; []; []] (q 1 1) None None None
  = Aborted assertion_failed None
  /\ fit_shape_to_landmarks_linear_multi sample_model
       [sample_camera; sample_camera]
       [[(q 1 1, q 0 1)]; [(q 1 1, q 0 1)]] [[0]; []] [[]; []] (q 1 1)
       None None None
     = Aborted assertion_failed
         (Some (assembled sample_model 1
                  [{| camera := sample_camera;
                      image_landmarks := [(q 1 1, q 0 1)];
                      image_vertex_ids := [0];
                      image_base_face := Some [] |}] 1)).
Proof.
  split.
  - apply (proj1 (C3_cardinality_assertions sample_model
                    [sample_camera; sample_camera]
                    [[(q 1 1, q 0 1)]; [(q 1 1, q 0 1)]; [(q 1 1, q 0 1)]]
                    [[0]; [0]; [0]] [[]; []; []] (q 1 1) None None None)).
    left. discriminate.
  - refine (proj1 (proj2 (C3_cardinality_assertions sample_model
                            [sample_camera; sample_camera]
                            [[(q 1 1, q 0 1)]; [(q 1 1, q 0 1)]] [[0]; []]
                            [[]; []] (q 1 1) None None None))
                  eq_refl eq_refl
                  [{| camera := sample_camera;
                      image_landmarks := [(q 1 1, q 0 1)];
                      image_vertex_ids := [0];
                      image_base_face := Some [] |}]
                  {| camera := sample_camera;
                     image_landmarks := [(q 1 1, q 0 1)];
                     image_vertex_ids := [];
                     image_base_face := Some [] |}
                  [] eq_refl _ _ _).
    + constructor; [|constructor].
      constructor; cbn; try reflexivity; try discriminate.
      * repeat constructor.
      * constructor; [|constructor].
        unfold effective_base_face, base_face_or_mean. cbn. lia.
    + apply le_n.
    + discriminate.
Defined.


(* ================================================================= *)
(** ** Shapes of the matrices of any call that returns *)

Section Shapes.
Variables (mm : MorphableModel) (n : nat).

Lemma block_widths (basis_rows_ blk : list (list Qc)) (K : nat) :
  Forall (fun row => length row = K) basis_rows_ ->
  block basis_rows_ K n = Some blk ->
  Forall (fun row => length row = n) blk.
Proof.
  unfold block. intros HK. destruct (n <=? K) eqn:E; [|discriminate].
  apply Nat.leb_le in E. intros H. injection H as <-.
  apply Forall_map. eapply Forall_impl; [|exact HK].
  intros row Hrow. simpl in Hrow. rewrite length_firstn. lia.
Qed.

Lemma basis_at_point_widths (id : nat) (basis_rows_ : list (list Qc)) :
  get_rescaled_pca_basis_at_point (get_shape_model mm) id
  = Some basis_rows_ ->
  Forall (fun row =>
            length row = get_num_principal_components (get_shape_model mm))
         basis_rows_.
Proof.
  unfold get_rescaled_pca_basis_at_point.
  destruct (3 * id + 3 <=? rows (rescaled_pca_basis (get_shape_model mm)));
    [|discriminate].
  intros H. injection H as <-.
  repeat (constructor; [apply length_Mat_row|]). constructor.
Qed.

Lemma fill_V_hat_h_widths (ids : list nat) :
  forall V index V' index',
  Forall (fun row => length row = n) V ->
  fill_V_hat_h mm n ids V index = inl (V', index') ->
  Forall (fun row => length row = n) V'.
Proof.
  induction ids as [|id ids IH]; intros V index V' index' HV H;
    cbn [fill_V_hat_h] in H.
  - injection H as <- _. assumption.
  - destruct (get_rescaled_pca_basis_at_point (get_shape_model mm) id)
      as [basis_rows_|] eqn:Eb; [|discriminate].
    destruct (block basis_rows_ _ n) as [blk|] eqn:Ek; [|discriminate].
    destruct (write_rows index blk V) as [V1|] eqn:Ew; [|discriminate].
    apply (IH _ _ _ _ (write_rows_widths n index blk V V1
             (block_widths _ _ _ (basis_at_point_widths id _ Eb) Ek)
             HV Ew) H).
Qed.

Lemma fill_y_length (ls : list Vec2f) :
  forall yv index yv' index',
  fill_y ls yv index = inl (yv', index') -> length yv' = length yv.
Proof.
  induction ls as [|l ls IH]; intros yv index yv' index' H;
    cbn [fill_y] in H.
  - injection H as <- _. reflexivity.
  - destruct (write_coeff (3 * index) (fst l) yv) as [y1|] eqn:E1;
      [|discriminate].
    destruct (write_coeff (3 * index + 1) (snd l) y1) as [y2|] eqn:E2;
      [|discriminate].
    apply IH in H. apply length_write_coeff in E1, E2. congruence.
Qed.

Lemma image_iteration_shapes (img : image) (st st' : assembly) :
  image_iteration mm n img st = inl st' ->
  Forall (fun row => length row = n) (V_hat_h st) ->
  Forall (fun row => length row = n) (V_hat_h st')
  /\ length (y st') = length (y st).
Proof.
  unfold image_iteration.
  destruct (negb _); [discriminate|].
  destruct (image_base_face img) as [face|]; [|discriminate].
  destruct (fill_V_hat_h mm n _ _ _) as [[V1 i1]|[f p]] eqn:EV;
    [|discriminate].
  simpl_assembly.
  destruct (fill_y _ _ _) as [[y1 j1]|[f p]] eqn:Ey; [|discriminate].
  simpl_assembly.
  destruct (fill_v_bar _ _ _ _) as [[v1 k1]|[f p]] eqn:Ev; [|discriminate].
  intros H HV. injection H as <-. simpl_assembly. split.
  - eapply fill_V_hat_h_widths; eassumption.
  - eapply fill_y_length; eassumption.
Qed.

Lemma image_loop_shapes (imgs : list image) :
  forall st st',
  image_loop mm n imgs st = inl st' ->
  Forall (fun row => length row = n) (V_hat_h st) ->
  Forall (fun row => length row = n) (V_hat_h st')
  /\ length (y st') = length (y st).
Proof.
  induction imgs as [|img imgs IH]; intros st st' H HV;
    cbn [image_loop] in H.
  - injection H as <-. auto.
  - destruct (image_iteration mm n img st) as [st1|e] eqn:E;
      [|discriminate].
    destruct (image_iteration_shapes _ _ _ E HV) as [HV1 Hy1].
    destruct (IH _ _ H HV1) as [HV' Hy']. split; [assumption | congruence].
Qed.

Lemma sparse_times_dense_is_matrix (P : SparseMatrix) (V : list (list Qc)) :
  Forall (fun row => length row = n) V ->
  is_matrix (sparse_rows P) n (sparse_times_dense n P V).
Proof.
  intros HV. unfold sparse_times_dense. split.
  - rewrite length_map, length_seq. reflexivity.
  - apply Forall_map. apply Forall_forall. intros i _.
    apply length_lincomb. apply Forall_map. apply Forall_forall.
    intros t _. rewrite Forall_forall in HV.
    destruct (nth_in_or_default (triplet_col t) V (zeros n)) as [Hin|Hd].
    + apply HV. assumption.
    + rewrite Hd. apply length_zeros.
Qed.

Lemma length_sparse_times_vector (P : SparseMatrix) (v : list Qc) :
  length (sparse_times_vector P v) = sparse_rows P.
Proof.
  unfold sparse_times_vector. rewrite length_map, length_seq. reflexivity.
Qed.

End Shapes.

(** Whenever the call returns, it returns the solver's vector for the
    normal equations of one matrix [A] and one vector [b], whatever
    [lambda] is. *)
Lemma fit_returned_system (mm : MorphableModel) (cams : list Mat)
    (ls : list (list Vec2f)) (ids : list (list nat)) (faces : list (list Qc))
    (lambda : Qc) (nco : option nat) (d m : option Qc) (c : list Qc) :
  fit_shape_to_landmarks_linear_multi mm cams ls ids faces lambda nco d m
  = Returned c ->
  exists (k : nat) (A : list (list Qc)) (b : list Qc),
    is_matrix k (num_coeffs mm nco) A /\ length b = k /\
    forall lambda',
      fit_shape_to_landmarks_linear_multi mm cams ls ids faces lambda' nco d m
      = Returned
          (let (M, r) :=
             normal_equations (num_coeffs mm nco) A b
               (constant k (Q2Qc 1 / sigma_squared_2D d m)%Qc)
               (lambda' * of_nat (length cams))%Qc in
           colPivHouseholderQr_solve (num_coeffs mm nco) M r).
Proof.
  unfold fit_shape_to_landmarks_linear_multi. fold (num_coeffs mm nco).
  destruct (negb _); [discriminate|].
  set (n := num_coeffs mm nco).
  set (total := total_num_landmarks_dimension ls).
  destruct (image_loop mm n _ _) as [st|[f st]] eqn:El; [|discriminate].
  destruct (setFromTriplets _ _ _) as [P|] eqn:EP; [|discriminate].
  intros _.
  assert (HP : sparse_rows P = 3 * total).
  { unfold setFromTriplets in EP. destruct (forallb _ _); [|discriminate].
    injection EP as <-. reflexivity. }
  destruct (image_loop_shapes mm n _ _ _ El) as [HV Hy].
  { unfold allocate, mzeros. cbn [V_hat_h]. apply Forall_forall.
    intros row Hrow. apply repeat_spec in Hrow. subst. apply length_zeros. }
  exists (3 * total), (sparse_times_dense n P (V_hat_h st)),
    (vsub (sparse_times_vector P (v_bar st)) (y st)).
  split; [|split].
  - rewrite <- HP. apply sparse_times_dense_is_matrix. assumption.
  - rewrite length_vsub, length_sparse_times_vector, Hy, HP.
    unfold allocate. cbn [y]. rewrite length_ones. lia.
  - intros lambda'. reflexivity.
Qed.

(** C8.  For one input, a non-zero variance and two regularisation
    parameters [0 <= lambda1 < lambda2], the vector returned with
    [lambda2] is not longer, in the Euclidean norm, than the one returned
    with [lambda1].  The squares of the norms are compared. *)
Theorem C8_regularisation_monotone (mm : MorphableModel) (cams : list Mat)
    (ls : list (list Vec2f)) (ids : list (list nat)) (faces : list (list Qc))
    (lambda1 lambda2 : Qc) (nco : option nat) (d m : option Qc)
    (c1 c2 : list Qc) :
  sigma_squared_2D d m <> Q2Qc 0 ->
  (Q2Qc 0 <= lambda1)%Qc -> (lambda1 < lambda2)%Qc ->
  fit_shape_to_landmarks_linear_multi mm cams ls ids faces lambda1 nco d m
  = Returned c1 ->
  fit_shape_to_landmarks_linear_multi mm cams ls ids faces lambda2 nco d m
  = Returned c2 ->
  (norm2 c2 <= norm2 c1)%Qc.
Proof.
  intros Hsigma H0 Hlt E1 E2.
  destruct (fit_returned_system _ _ _ _ _ _ _ _ _ _ E1)
    as (k & A & b & HA & Hb & Hfit).
  rewrite Hfit in E1, E2. injection E1 as E1. injection E2 as E2.
  set (n := num_coeffs mm nco) in *.
  set (w := (Q2Qc 1 / sigma_squared_2D d m)%Qc) in *.
  assert (Hw : (Q2Qc 0 <= w)%Qc) by apply Omega_weight_nonneg.
  destruct (length cams) as [|M] eqn:EM.
  - assert (E : (lambda1 * of_nat 0 = lambda2 * of_nat 0)%Qc).
    { change (of_nat 0) with (Q2Qc 0). rewrite !Qcmult_0_r. reflexivity. }
    rewrite E in E1. rewrite <- E1, <- E2. apply Qcle_refl.
  - pose proof (of_nat_pos (S M) (Nat.lt_0_succ M)) as HM.
    set (K := of_nat (S M)) in *.
    assert (Hl1 : (Q2Qc 0 <= lambda1 * K)%Qc)
      by (clearbody K; clear - H0 HM; qc_to_q; nra).
    assert (Hl2 : (lambda1 * K < lambda2 * K)%Qc)
      by (clearbody K; clear - Hlt HM; qc_to_q; nra).
    assert (Hl2' : (Q2Qc 0 <= lambda2 * K)%Qc)
      by (clearbody K; clear - H0 Hlt HM; qc_to_q; nra).
    pose proof (normal_equations_solved k n A b w HA Hb _ Hw Hl1) as S1.
    pose proof (normal_equations_solved k n A b w HA Hb _ Hw Hl2') as S2.
    subst c1 c2.
    apply (ridge_monotone k n A b w HA (lambda1 * K)%Qc (lambda2 * K)%Qc);
      auto; apply length_colPivHouseholderQr_solve.
Qed.


(* ================================================================= *)
(** ** The matrices, image by image *)

Section Blockwise.
Local Open Scope Qc_scope.
Variable n : nat.

Lemma blockwise_app (cams1 cams2 : list Mat) :
  forall V1 V2 : list (list Qc),
  length V1 = (4 * length cams1)%nat ->
  blockwise n (cams1 ++ cams2) (V1 ++ V2)
  = blockwise n cams1 V1 ++ blockwise n cams2 V2.
Proof.
  induction cams1 as [|C cams1 IH]; intros V1 V2 H.
  - destruct V1; [reflexivity | discriminate].
  - cbn [length] in H.
    destruct (four_rows _ V1 H) as (b0 & b1 & b2 & b3 & V' & -> & HV').
    cbn [app blockwise firstn skipn]. rewrite IH by assumption.
    rewrite <- app_assoc. reflexivity.
Qed.

Lemma blockwise_vector_app (cams1 cams2 : list Mat) :
  forall v1 v2 : list Qc,
  length v1 = (4 * length cams1)%nat ->
  blockwise_vector (cams1 ++ cams2) (v1 ++ v2)
  = blockwise_vector cams1 v1 ++ blockwise_vector cams2 v2.
Proof.
  induction cams1 as [|C cams1 IH]; intros v1 v2 H.
  - destruct v1; [reflexivity | discriminate].
  - cbn [length] in H.
    destruct (four_rows _ v1 H) as (b0 & b1 & b2 & b3 & v' & -> & Hv').
    cbn [app blockwise_vector firstn skipn]. rewrite IH by assumption.
    rewrite <- app_assoc. reflexivity.
Qed.

Lemma length_blockwise_vector (cams : list Mat) :
  Forall is_3x4 cams ->
  forall v, length (blockwise_vector cams v) = (3 * length cams)%nat.
Proof.
  induction 1 as [|C cams HC Hcams IH]; intros v; [reflexivity|].
  cbn [blockwise_vector length]. rewrite length_app, length_mvmul, IH.
  unfold dense. rewrite length_map, length_seq. destruct HC as [Hr _]. lia.
Qed.

Lemma length_blockwise (cams : list Mat) :
  Forall is_3x4 cams ->
  forall V, length (blockwise n cams V) = (3 * length cams)%nat.
Proof.
  induction 1 as [|C cams HC Hcams IH]; intros V; [reflexivity|].
  cbn [blockwise length]. rewrite length_app, IH.
  unfold mmul, dense. rewrite !length_map, length_seq.
  destruct HC as [Hr _]. lia.
Qed.

Lemma vsub_app (u1 u2 v1 v2 : list Qc) :
  length u1 = length v1 ->
  vsub (u1 ++ u2) (v1 ++ v2) = vsub u1 v1 ++ vsub u2 v2.
Proof.
  revert v1. induction u1 as [|a u1 IH]; intros [|b v1] H;
    try discriminate; [reflexivity|].
  cbn [app]. unfold vsub in *. cbn [map2]. rewrite IH by (simpl in H; lia).
  reflexivity.
Qed.

End Blockwise.

Section ImageByImage.
Variables (mm : MorphableModel) (n : nat).
Hypothesis Hn : n <= get_num_principal_components (get_shape_model mm).

Lemma A_spec_blockwise (imgs : list image) :
  Forall (image_ok mm) imgs ->
  A_spec mm n imgs
  = blockwise n (cameras_per_landmark imgs) (V_hat_h_spec mm n imgs).
Proof.
  intros H. unfold A_spec, P_spec. apply block_diagonal_blockwise.
  - apply (cameras_are_3x4 mm). assumption.
  - rewrite length_cameras_per_landmark. apply length_V_hat_h_spec.
    assumption.
  - apply V_hat_h_spec_widths. assumption.
Qed.

Lemma b_spec_blockwise (imgs : list image) :
  Forall (image_ok mm) imgs ->
  b_spec mm imgs
  = vsub (blockwise_vector (cameras_per_landmark imgs) (v_bar_spec mm imgs))
         (y_spec imgs).
Proof.
  intros H. unfold b_spec, P_spec. f_equal.
  apply block_diagonal_blockwise_vector.
  - apply (cameras_are_3x4 mm). assumption.
  - rewrite length_cameras_per_landmark. apply length_v_bar_spec.
    assumption.
Qed.

Lemma flat_map_single {X Y : Type} (f : X -> list Y) (x : X) :
  flat_map f [x] = f x.
Proof. cbn [flat_map]. apply app_nil_r. Qed.

Lemma A_spec_cons (img : image) (imgs : list image) :
  image_ok mm img -> Forall (image_ok mm) imgs ->
  A_spec mm n (img :: imgs) = A_spec mm n [img] ++ A_spec mm n imgs.
Proof.
  intros Himg Himgs.
  assert (H1 : Forall (image_ok mm) [img]) by (constructor; auto).
  assert (H2 : Forall (image_ok mm) (img :: imgs)) by (constructor; auto).
  rewrite (A_spec_blockwise _ H1), (A_spec_blockwise _ H2),
    (A_spec_blockwise _ Himgs).
  unfold cameras_per_landmark, V_hat_h_spec.
  rewrite !flat_map_single. cbn [flat_map].
  apply blockwise_app.
  rewrite repeat_length, (length_flat_map_blocks _ 4),
    (same_count mm img Himg); [lia|].
  intros id. rewrite length_app, length_basis_rows. reflexivity.
Qed.

Lemma b_spec_cons (img : image) (imgs : list image) :
  image_ok mm img -> Forall (image_ok mm) imgs ->
  b_spec mm (img :: imgs) = b_spec mm [img] ++ b_spec mm imgs.
Proof.
  intros Himg Himgs.
  assert (H1 : Forall (image_ok mm) [img]) by (constructor; auto).
  assert (H2 : Forall (image_ok mm) (img :: imgs)) by (constructor; auto).
  rewrite (b_spec_blockwise _ H1), (b_spec_blockwise _ H2),
    (b_spec_blockwise _ Himgs).
  unfold cameras_per_landmark, v_bar_spec, y_spec.
  rewrite !flat_map_single. cbn [flat_map].
  rewrite blockwise_vector_app.
  - apply vsub_app.
    rewrite length_blockwise_vector.
    + rewrite repeat_length, (length_flat_map_blocks _ 3) by reflexivity.
      reflexivity.
    + apply Forall_forall. intros C HC. apply repeat_spec in HC. subst.
      split; [apply (camera_rows mm img Himg)
             | apply (camera_cols mm img Himg)].
  - rewrite repeat_length, (length_flat_map_blocks _ 4),
      (same_count mm img Himg) by reflexivity. reflexivity.
Qed.

End ImageByImage.


Section ExactProjection.
Local Open Scope Qc_scope.
Variables (mm : MorphableModel) (n : nat).
Hypothesis Hn :
  (n <= get_num_principal_components (get_shape_model mm))%nat.

Lemma mvmul_app (X Y : list (list Qc)) (c : list Qc) :
  mvmul (X ++ Y) c = mvmul X c ++ mvmul Y c.
Proof. apply map_app. Qed.

Lemma vopp_app (u v : list Qc) : vopp (u ++ v) = vopp u ++ vopp v.
Proof. apply map_app. Qed.

Lemma landmark_recovery (C : Mat) (face c : list Qc) (id : nat)
    (l : Vec2f) :
  affine C ->
  fst l = dot (Mat_row C 0)
            (vadd [nth (id * 3) face 0; nth (id * 3 + 1) face 0;
                   nth (id * 3 + 2) face 0]
                  (mvmul (basis_rows mm n id) c) ++ [1]) ->
  snd l = dot (Mat_row C 1)
            (vadd [nth (id * 3) face 0; nth (id * 3 + 1) face 0;
                   nth (id * 3 + 2) face 0]
                  (mvmul (basis_rows mm n id) c) ++ [1]) ->
  vsub (mvmul (dense C)
          [nth (id * 3) face 0; nth (id * 3 + 1) face 0;
           nth (id * 3 + 2) face 0; 1])
       [fst l; snd l; 1]
  = vopp (mvmul (mmul n (dense C) (basis_rows mm n id ++ [zeros n])) c).
Proof.
  intros [HC H2] Hx Hy.
  rewrite mvmul_mmul.
  2:{ apply Forall_app. split.
      - apply basis_rows_widths. assumption.
      - constructor; [apply length_zeros | constructor]. }
  rewrite Hx, Hy. rewrite dense_3x4 by assumption. rewrite H2.
  rewrite !Mat_row_3x4 by assumption.
  unfold basis_rows. cbn [seq map app mvmul vadd map2 vsub vopp dot].
  rewrite dot_zeros_l.
  repeat (apply (f_equal2 (@cons Qc)); [ring|]). reflexivity.
Qed.

Lemma image_recovery (C : Mat) (face c : list Qc) (ls : list Vec2f)
    (ids : list nat) :
  affine C ->
  Forall2 (fun (l : Vec2f) (id : nat) =>
             fst l = dot (Mat_row C 0)
                       (vadd [nth (id * 3) face 0; nth (id * 3 + 1) face 0;
                              nth (id * 3 + 2) face 0]
                             (mvmul (basis_rows mm n id) c) ++ [1])
             /\ snd l = dot (Mat_row C 1)
                          (vadd [nth (id * 3) face 0;
                                 nth (id * 3 + 1) face 0;
                                 nth (id * 3 + 2) face 0]
                                (mvmul (basis_rows mm n id) c) ++ [1]))
          ls ids ->
  vsub (blockwise_vector (repeat C (length ls))
          (flat_map (fun id => [nth (id * 3) face 0;
                                nth (id * 3 + 1) face 0;
                                nth (id * 3 + 2) face 0; 1]) ids))
       (flat_map (fun l => [fst l; snd l; 1]) ls)
  = vopp (mvmul (blockwise n (repeat C (length ls))
                   (flat_map (fun id => basis_rows mm n id ++ [zeros n])
                             ids)) c).
Proof.
  intros HC. induction 1 as [|l id ls ids [Hx Hy] Hrest IH];
    [reflexivity|].
  cbn [length repeat flat_map blockwise_vector blockwise].
  change (firstn 4 ([nth (id * 3) face 0; nth (id * 3 + 1) face 0;
                     nth (id * 3 + 2) face 0; 1] ++ ?[rest]))
    with [nth (id * 3) face 0; nth (id * 3 + 1) face 0;
          nth (id * 3 + 2) face 0; 1].
  cbn [app firstn skipn].
  assert (E3 : length (basis_rows mm n id) = 3%nat)
    by apply length_basis_rows.
  pose proof (landmark_recovery C face c id l HC Hx Hy) as HL.
  destruct (basis_rows mm n id) as [|B0 [|B1 [|B2 [|? ?]]]];
    try discriminate.
  cbn [app firstn skipn] in *.
  rewrite mvmul_app, vopp_app, <- IH, <- HL.
  destruct HC as [HC _]. rewrite dense_3x4 by assumption.
  reflexivity.
Qed.

End ExactProjection.


Lemma spec_recovery (mm : MorphableModel) (n : nat) (c : list Qc)
    (imgs : list image) :
  n <= get_num_principal_components (get_shape_model mm) ->
  Forall (image_ok mm) imgs ->
  Forall (fun img => affine (camera img) /\ projects_exactly mm n c img)
         imgs ->
  b_spec mm imgs = vopp (mvmul (A_spec mm n imgs) c).
Proof.
  intros Hn Hok. induction Hok as [|img imgs Himg Himgs IH]; intros Hp;
    [reflexivity|].
  inversion Hp as [|? ? [Haff Hproj] Hrest]; subst.
  rewrite (A_spec_cons mm n Hn), (b_spec_cons mm) by assumption.
  rewrite mvmul_app, vopp_app, <- (IH Hrest). f_equal.
  assert (H1 : Forall (image_ok mm) [img]) by (constructor; auto).
  rewrite (A_spec_blockwise mm n Hn _ H1), (b_spec_blockwise mm _ H1).
  unfold cameras_per_landmark, V_hat_h_spec, v_bar_spec, y_spec.
  rewrite !flat_map_single.
  apply (image_recovery mm n Hn); assumption.
Qed.

(** C2.  When every camera is affine, every landmark is the projection
    of the model point that the coefficient vector [c_star] gives its
    vertex, the regularisation parameter is zero and the correspondences
    are independent (the matrix [A] has a trivial kernel), the call
    returns [c_star]. *)
Theorem C2_exact_recovery (mm : MorphableModel) (cams : list Mat)
    (ls : list (list Vec2f)) (ids : list (list nat)) (faces : list (list Qc))
    (nco : option nat) (d m : option Qc) (c_star : list Qc) :
  input_ok mm cams ls ids faces nco ->
  sigma_squared_2D d m <> Q2Qc 0 ->
  length c_star = num_coeffs mm nco ->
  Forall (fun img => affine (camera img)
                     /\ projects_exactly mm (num_coeffs mm nco) c_star img)
         (images_of cams ls ids faces) ->
  trivial_kernel (num_coeffs mm nco)
    (A_spec mm (num_coeffs mm nco) (images_of cams ls ids faces)) ->
  fit_shape_to_landmarks_linear_multi mm cams ls ids faces (Q2Qc 0) nco d m
  = Returned c_star.
Proof.
  intros Hok Hsigma Hc Hproj Hker.
  rewrite (fit_of_input_ok mm cams ls ids faces (Q2Qc 0) nco d m Hok).
  cbv zeta.
  pose proof (images_ok _ _ _ _ _ _ Hok) as Himgs.
  pose proof (coefficients_in_model _ _ _ _ _ _ Hok) as Hn.
  set (imgs := images_of cams ls ids faces) in *.
  set (n := num_coeffs mm nco) in *.
  pose proof (A_spec_is_matrix mm n Hn imgs Himgs) as HA.
  pose proof (length_b_spec mm imgs Himgs) as Hb.
  pose proof (spec_recovery mm n c_star imgs Hn Himgs Hproj) as Hrec.
  rewrite Qcmult_0_l. f_equal.
  apply (exact_recovery _ n _ _ _ HA Hb c_star); auto.
  - apply Omega_weight_nonzero. assumption.
  - unfold trivial_kernel in Hker. destruct HA as [HAl _].
    rewrite HAl in Hker. exact Hker.
Qed.



Lemma single_landmark_input_ok (l : Vec2f) :
  input_ok sample_model [sample_camera] [[l]] [[0]] [[]] None.
Proof.
  constructor; try reflexivity.
  constructor; [|constructor].
  constructor; cbn; try reflexivity; try discriminate.
  - repeat constructor.
  - constructor; [|constructor].
    unfold effective_base_face, base_face_or_mean. cbn. lia.
Qed.

Lemma C2_witness :
  fit_shape_to_landmarks_linear_multi sample_model [sample_camera]
    [[(q 2 1, q 0 1)]] [[0]] [[]] (Q2Qc 0) None None None
  = Returned [q 2 1].
Proof.
  apply C2_exact_recovery.
  - apply single_landmark_input_ok.
  - intros E. apply (f_equal this) in E. vm_compute in E. discriminate.
  - reflexivity.
  - constructor; [|constructor]. split.
    + split; [split; reflexivity | reflexivity].
    + constructor; [|constructor].
      split; apply Qc_eqb_eq; vm_compute; reflexivity.
  - intros z Hz H.
    assert (EA : A_spec sample_model (num_coeffs sample_model None)
                   (images_of [sample_camera] [[(q 2 1, q 0 1)]] [[0]] [[]])
                 = [[Q2Qc 1]; [Q2Qc 0]; [Q2Qc 0]])
      by (apply mat_eqb_eq; vm_compute; reflexivity).
    rewrite EA in H.
    destruct z as [|a [|? ?]]; try discriminate.
    cbn [mvmul map dot length zeros repeat] in H.
    apply (f_equal (hd (Q2Qc 0))) in H. cbn [hd] in H.
    rewrite Qcmult_1_l, Qcplus_0_r in H. subst a. reflexivity.
Defined.

Lemma C8_witness :
  exists c1 c2,
    fit_shape_to_landmarks_linear_multi ambiguous_model [sample_camera]
      [[(q 1 1, q 0 1)]] [[0]] [[]] (q 0 1) None None None
    = Returned c1
    /\ fit_shape_to_landmarks_linear_multi ambiguous_model [sample_camera]
         [[(q 1 1, q 0 1)]] [[0]] [[]] (q 1 1) None None None
       = Returned c2
    /\ (norm2 c2 <= norm2 c1)%Qc.
Proof.
  assert (H1 : { c1 | fit_shape_to_landmarks_linear_multi ambiguous_model
                        [sample_camera] [[(q 1 1, q 0 1)]] [[0]] [[]]
                        (q 0 1) None None None = Returned c1 })
    by (eexists; vm_compute; reflexivity).
  assert (H2 : { c2 | fit_shape_to_landmarks_linear_multi ambiguous_model
                        [sample_camera] [[(q 1 1, q 0 1)]] [[0]] [[]]
                        (q 1 1) None None None = Returned c2 })
    by (eexists; vm_compute; reflexivity).
  destruct H1 as [c1 E1]. destruct H2 as [c2 E2].
  exists c1, c2. split; [exact E1|]. split; [exact E2|].
  apply (C8_regularisation_monotone ambiguous_model [sample_camera]
           [[(q 1 1, q 0 1)]] [[0]] [[]] (q 0 1) (q 1 1) None None None
           c1 c2).
  - intros E. apply (f_equal this) in E. vm_compute in E. discriminate.
  - vm_compute. discriminate.
  - vm_compute. reflexivity.
  - exact E1.
  - exact E2.
Defined.


(* ================================================================= *)
(** * The same image given several times *)

Section IdenticalCopies.

Local Open Scope Qc_scope.

Lemma of_nat_nonzero (k : nat) : (1 <= k)%nat -> of_nat k <> Q2Qc 0.
Proof.
  intros Hk E. pose proof (of_nat_pos k Hk) as H. rewrite E in H.
  revert H. apply Qcle_not_lt. apply Qcle_refl.
Qed.

Lemma length_concat_repeat {X : Type} (u : list X) (k : nat) :
  length (concat (repeat u k)) = (k * length u)%nat.
Proof.
  induction k as [|k IH]; [reflexivity|].
  cbn [repeat concat]. rewrite length_app, IH. reflexivity.
Qed.

Lemma concat_repeat_is_matrix (m n : nat) (A : list (list Qc)) (k : nat) :
  is_matrix m n A -> is_matrix (k * m) n (concat (repeat A k)).
Proof.
  intros [Hm Hr]. split.
  - rewrite length_concat_repeat, Hm. reflexivity.
  - induction k as [|k IH]; [constructor|].
    cbn [repeat concat]. apply Forall_app. split; assumption.
Qed.

Lemma mvmul_concat_repeat (A : list (list Qc)) (k : nat) (x : list Qc) :
  mvmul (concat (repeat A k)) x = concat (repeat (mvmul A x) k).
Proof.
  induction k as [|k IH]; [reflexivity|].
  cbn [repeat concat]. rewrite <- IH. unfold mvmul. apply map_app.
Qed.

Lemma dot_concat_repeat (u v : list Qc) (k : nat) :
  length u = length v ->
  dot (concat (repeat u k)) (concat (repeat v k)) = of_nat k * dot u v.
Proof.
  intros Hl. induction k as [|k IH].
  - cbn [repeat concat]. change (of_nat 0) with (Q2Qc 0).
    change (dot [] []) with (Q2Qc 0). ring.
  - cbn [repeat concat]. rewrite dot_app by exact Hl.
    rewrite IH, of_nat_S. ring.
Qed.

(** Stacking [k] copies of the rows of [A] and of [b], with the
    regularisation weight multiplied by [k], multiplies the whole system
    of normal equations by [k]. *)
Lemma normal_equations_copies (m n : nat) (A : list (list Qc)) (b : list Qc)
    (w lam : Qc) (k : nat) :
  is_matrix m n A -> length b = m ->
  normal_equations n (concat (repeat A k)) (concat (repeat b k))
    (constant (k * m) w) (lam * of_nat k)
  = (mscale (of_nat k) (fst (normal_equations n A b (constant m w) lam)),
     vscale (of_nat k) (snd (normal_equations n A b (constant m w) lam))).
Proof.
  intros HA Hb.
  pose proof (concat_repeat_is_matrix m n A k HA) as HAk.
  assert (Hbk : length (concat (repeat b k)) = (k * m)%nat)
    by (rewrite length_concat_repeat, Hb; reflexivity).
  assert (Hrows : forall z, length b = length (mvmul A z)).
  { intros z. rewrite length_mvmul. destruct HA as [HA _]. congruence. }
  assert (Hrows' : forall x z, length (mvmul A x) = length (mvmul A z)).
  { intros x z. rewrite !length_mvmul. reflexivity. }
  transitivity
    (fst (normal_equations n (concat (repeat A k)) (concat (repeat b k))
            (constant (k * m) w) (lam * of_nat k)),
     snd (normal_equations n (concat (repeat A k)) (concat (repeat b k))
            (constant (k * m) w) (lam * of_nat k))); [reflexivity|].
  f_equal.
  - apply (mat_ext n n).
    + apply (normal_matrix_is_matrix (k * m)). exact HAk.
    + apply mscale_is_matrix. apply (normal_matrix_is_matrix m). exact HA.
    + intros x Hx. apply (vec_ext n).
      * rewrite length_mvmul.
        apply (normal_matrix_is_matrix (k * m) n _ (concat (repeat b k))
                 w (lam * of_nat k) HAk).
      * rewrite mvmul_mscale, length_vscale, length_mvmul.
        apply (normal_matrix_is_matrix m n A b w lam HA).
      * intros z Hz.
        rewrite (normal_form (k * m) n _ _ w (lam * of_nat k) HAk x z Hx).
        rewrite mvmul_mscale, dot_vscale_l.
        rewrite (normal_form m n A b w lam HA x z Hx).
        rewrite !mvmul_concat_repeat.
        rewrite (dot_concat_repeat _ _ k (Hrows' x z)). ring.
  - apply (vec_ext n).
    + apply (length_normal_rhs (k * m)). exact HAk.
    + rewrite length_vscale. apply (length_normal_rhs m). exact HA.
    + intros z Hz.
      rewrite (normal_rhs_form (k * m) n _ _ w (lam * of_nat k) HAk z Hbk).
      rewrite dot_vscale_l.
      rewrite (normal_rhs_form m n A b w lam HA z Hb).
      rewrite mvmul_concat_repeat.
      rewrite (dot_concat_repeat _ _ k (Hrows z)). ring.
Qed.

End IdenticalCopies.

Lemma images_of_repeat (cam : Mat) (l : list Vec2f) (ids : list nat)
    (face : list Qc) (k : nat) :
  images_of (repeat cam k) (repeat l k) (repeat ids k) (repeat face k)
  = repeat {| camera := cam; image_landmarks := l; image_vertex_ids := ids;
              image_base_face := Some face |} k.
Proof.
  induction k as [|k IH]; [reflexivity|].
  cbn [repeat images_of hd_error tl]. rewrite IH. reflexivity.
Qed.

Lemma landmark_count_repeat (img : image) (k : nat) :
  landmark_count (repeat img k) = k * landmark_count [img].
Proof.
  induction k as [|k IH]; [reflexivity|].
  cbn [repeat]. rewrite landmark_count_cons, IH.
  rewrite (landmark_count_cons img []).
  change (landmark_count []) with 0. lia.
Qed.

Lemma Forall_repeat {X : Type} (P : X -> Prop) (x : X) (k : nat) :
  P x -> Forall P (repeat x k).
Proof. intros H. induction k; constructor; assumption. Qed.

Lemma A_spec_repeat (mm : MorphableModel) (n : nat) (img : image) (k : nat) :
  n <= get_num_principal_components (get_shape_model mm) ->
  image_ok mm img ->
  A_spec mm n (repeat img k) = concat (repeat (A_spec mm n [img]) k).
Proof.
  intros Hn Hok. induction k as [|k IH]; [reflexivity|].
  cbn [repeat concat].
  rewrite (A_spec_cons mm n Hn img (repeat img k) Hok
             (Forall_repeat _ _ _ Hok)).
  rewrite IH. reflexivity.
Qed.

Lemma b_spec_repeat (mm : MorphableModel) (img : image) (k : nat) :
  image_ok mm img ->
  b_spec mm (repeat img k) = concat (repeat (b_spec mm [img]) k).
Proof.
  intros Hok. induction k as [|k IH]; [reflexivity|].
  cbn [repeat concat].
  rewrite (b_spec_cons mm img (repeat img k) Hok (Forall_repeat _ _ _ Hok)).
  rewrite IH. reflexivity.
Qed.

Lemma input_ok_repeat (mm : MorphableModel) (cam : Mat) (l : list Vec2f)
    (ids : list nat) (face : list Qc) (nco : option nat) (k : nat) :
  input_ok mm [cam] [l] [ids] [face] nco ->
  input_ok mm (repeat cam k) (repeat l k) (repeat ids k) (repeat face k) nco.
Proof.
  intros [_ _ Hn Hok]. constructor.
  - rewrite !repeat_length. reflexivity.
  - rewrite !repeat_length. reflexivity.
  - exact Hn.
  - rewrite images_of_repeat. apply Forall_repeat.
    inversion Hok; subst. assumption.
Qed.

(** C6.  Fitting [M] identical copies of an image (the same camera matrix,
    landmarks, vertex ids and base face [M] times over), the function
    scaling [lambda] by [M] as it does for any [M] images, gives the
    coefficient vector of fitting that image once with [lambda]. *)
Theorem C6_identical_copies_same_weight (mm : MorphableModel) (cam : Mat)
    (l : list Vec2f) (ids : list nat) (face : list Qc) (lambda : Qc)
    (nco : option nat) (d m : option Qc) (M : nat) :
  input_ok mm [cam] [l] [ids] [face] nco ->
  1 <= M ->
  fit_shape_to_landmarks_linear_multi mm (repeat cam M) (repeat l M)
    (repeat ids M) (repeat face M) lambda nco d m
  = fit_shape_to_landmarks_linear mm cam l ids face lambda nco d m.
Proof.
  intros Hok HM.
  unfold fit_shape_to_landmarks_linear. cbv zeta.
  rewrite (fit_of_input_ok _ _ _ _ _ lambda nco d m
             (input_ok_repeat mm cam l ids face nco M Hok)).
  rewrite (fit_of_input_ok _ _ _ _ _ lambda nco d m Hok).
  cbv zeta. f_equal.
  rewrite images_of_repeat, repeat_length.
  change (images_of [cam] [l] [ids] [face])
    with [{| camera := cam; image_landmarks := l; image_vertex_ids := ids;
             image_base_face := Some face |}].
  set (img := {| camera := cam; image_landmarks := l;
                 image_vertex_ids := ids; image_base_face := Some face |}).
  assert (Himg : image_ok mm img).
  { destruct Hok as [_ _ _ H]. inversion H; subst. assumption. }
  pose proof (coefficients_in_model _ _ _ _ _ _ Hok) as Hn.
  assert (Himgs : Forall (image_ok mm) [img]) by (constructor; [exact Himg|constructor]).
  rewrite (A_spec_repeat mm _ img M Hn Himg), (b_spec_repeat mm img M Himg).
  rewrite landmark_count_repeat.
  replace (3 * (M * landmark_count [img])) with (M * (3 * landmark_count [img]))
    by lia.
  rewrite (normal_equations_copies (3 * landmark_count [img]) _ _ _ _ lambda M
             (A_spec_is_matrix mm _ Hn [img] Himgs) (length_b_spec mm [img] Himgs)).
  change (length [cam]) with 1. change (of_nat 1) with (Q2Qc 1).
  rewrite Qcmult_1_r.
  destruct (normal_equations (num_coeffs mm nco) (A_spec mm (num_coeffs mm nco) [img])
              (b_spec mm [img])
              (constant (3 * landmark_count [img]) (Q2Qc 1 / sigma_squared_2D d m)%Qc)
              lambda) as [M1 r1].
  cbn [fst snd].
  apply colPivHouseholderQr_solve_scale. apply of_nat_nonzero. exact HM.
Qed.

Lemma C6_witness :
  fit_shape_to_landmarks_linear_multi sample_model (repeat sample_camera 2)
    (repeat [(q 1 1, q 0 1)] 2) (repeat [0] 2) (repeat [] 2) (q 1 1)
    None None None
  = fit_shape_to_landmarks_linear sample_model sample_camera
      [(q 1 1, q 0 1)] [0] [] (q 1 1) None None None.
Proof.
  apply C6_identical_copies_same_weight.
  - apply single_landmark_input_ok.
  - lia.
Defined.


(* ================================================================= *)
(** * Further properties of the fitting functions *)

(** ** What a call depends on *)

(** A call either stops at a fault that depends on neither [lambda] nor the
    standard deviations, or it returns the solver's result for the normal
    equations of one matrix [A] and one vector [b]. *)
Lemma fit_outcome_shape (mm : MorphableModel) (cams : list Mat)
    (ls : list (list Vec2f)) (ids : list (list nat)) (faces : list (list Qc))
    (nco : option nat) :
  (exists f st, forall lambda d m,
      fit_shape_to_landmarks_linear_multi mm cams ls ids faces lambda nco d m
      = Aborted f st)
  \/ (exists (k : nat) (A : list (list Qc)) (b : list Qc),
        is_matrix k (num_coeffs mm nco) A /\ length b = k /\
        forall lambda d m,
          fit_shape_to_landmarks_linear_multi mm cams ls ids faces lambda nco
            d m
          = Returned
              (let (M, r) :=
                 normal_equations (num_coeffs mm nco) A b
                   (constant k (Q2Qc 1 / sigma_squared_2D d m)%Qc)
                   (lambda * of_nat (length cams))%Qc in
               colPivHouseholderQr_solve (num_coeffs mm nco) M r)).
Proof.
  unfold fit_shape_to_landmarks_linear_multi. fold (num_coeffs mm nco).
  destruct (negb _); [left; eexists; eexists; reflexivity|].
  set (n := num_coeffs mm nco).
  set (total := total_num_landmarks_dimension ls).
  destruct (image_loop mm n _ _) as [st|[f st]] eqn:El;
    [|left; eexists; eexists; reflexivity].
  destruct (setFromTriplets _ _ _) as [P|] eqn:EP;
    [|left; eexists; eexists; reflexivity].
  right.
  assert (HP : sparse_rows P = 3 * total).
  { unfold setFromTriplets in EP. destruct (forallb _ _); [|discriminate].
    injection EP as <-. reflexivity. }
  destruct (image_loop_shapes mm n _ _ _ El) as [HV Hy].
  { unfold allocate, mzeros. cbn [V_hat_h]. apply Forall_forall.
    intros row Hrow. apply repeat_spec in Hrow. subst. apply length_zeros. }
  exists (3 * total), (sparse_times_dense n P (V_hat_h st)),
    (vsub (sparse_times_vector P (v_bar st)) (y st)).
  split; [|split].
  - rewrite <- HP. apply sparse_times_dense_is_matrix. assumption.
  - rewrite length_vsub, length_sparse_times_vector, Hy, HP.
    unfold allocate. cbn [y]. rewrite length_ones. lia.
  - intros lambda d m. reflexivity.
Qed.

Section Rescaling.

Local Open Scope Qc_scope.

(** Multiplying the weight of the correspondences and the regularisation
    weight by [s] multiplies the normal equations by [s]. *)
Lemma normal_equations_rescale (m n : nat) (A : list (list Qc)) (b : list Qc)
    (w lam s : Qc) :
  is_matrix m n A -> length b = m ->
  normal_equations n A b (constant m (s * w)) (s * lam)
  = (mscale s (fst (normal_equations n A b (constant m w) lam)),
     vscale s (snd (normal_equations n A b (constant m w) lam))).
Proof.
  intros HA Hb.
  transitivity
    (fst (normal_equations n A b (constant m (s * w)) (s * lam)),
     snd (normal_equations n A b (constant m (s * w)) (s * lam)));
    [reflexivity|].
  f_equal.
  - apply (mat_ext n n).
    + apply (normal_matrix_is_matrix m). exact HA.
    + apply mscale_is_matrix. apply (normal_matrix_is_matrix m). exact HA.
    + intros x Hx. apply (vec_ext n).
      * rewrite length_mvmul.
        apply (normal_matrix_is_matrix m n A b (s * w) (s * lam) HA).
      * rewrite mvmul_mscale, length_vscale, length_mvmul.
        apply (normal_matrix_is_matrix m n A b w lam HA).
      * intros z Hz.
        rewrite (normal_form m n A b (s * w) (s * lam) HA x z Hx).
        rewrite mvmul_mscale, dot_vscale_l.
        rewrite (normal_form m n A b w lam HA x z Hx). ring.
  - apply (vec_ext n).
    + apply (length_normal_rhs m). exact HA.
    + rewrite length_vscale. apply (length_normal_rhs m). exact HA.
    + intros z Hz.
      rewrite (normal_rhs_form m n A b (s * w) (s * lam) HA z Hb).
      rewrite dot_vscale_l.
      rewrite (normal_rhs_form m n A b w lam HA z Hb). ring.
Qed.

End Rescaling.

(** X1.  Only the product of the regularisation parameter and the
    variance counts: two calls on the same images whose parameters have
    [lambda * sigma^2 = lambda' * sigma'^2], both variances non-zero, have
    the same outcome.  In particular, without regularisation the standard
    deviations have no effect. *)
Theorem fit_depends_on_lambda_times_variance (mm : MorphableModel)
    (cams : list Mat) (ls : list (list Vec2f)) (ids : list (list nat))
    (faces : list (list Qc)) (nco : option nat) (lambda lambda' : Qc)
    (d m d' m' : option Qc) :
  sigma_squared_2D d m <> Q2Qc 0 ->
  sigma_squared_2D d' m' <> Q2Qc 0 ->
  (lambda * sigma_squared_2D d m = lambda' * sigma_squared_2D d' m')%Qc ->
  fit_shape_to_landmarks_linear_multi mm cams ls ids faces lambda nco d m
  = fit_shape_to_landmarks_linear_multi mm cams ls ids faces lambda' nco d' m'.
Proof.
  intros Hs Hs' E.
  destruct (fit_outcome_shape mm cams ls ids faces nco)
    as [(f & st & H) | (k & A & b & HA & Hb & H)].
  - rewrite !H. reflexivity.
  - rewrite !H. f_equal.
    set (s2 := sigma_squared_2D d m) in *.
    set (s2' := sigma_squared_2D d' m') in *.
    set (M := of_nat (length cams)).
    replace (Q2Qc 1 / s2')%Qc with ((s2 / s2') * (Q2Qc 1 / s2))%Qc
      by (field; split; assumption).
    replace (lambda' * M)%Qc with ((s2 / s2') * (lambda * M))%Qc.
    2:{ transitivity ((lambda * s2) / s2' * M)%Qc; [field; assumption|].
        rewrite E. field. assumption. }
    rewrite (normal_equations_rescale k _ A b _ _ _ HA Hb).
    destruct (normal_equations (num_coeffs mm nco) A b
                (constant k (Q2Qc 1 / s2)%Qc) (lambda * M)%Qc) as [M1 r1].
    cbn [fst snd]. symmetry.
    apply colPivHouseholderQr_solve_scale.
    intros E0. apply Hs.
    assert (E1 : (s2 = s2 / s2' * s2')%Qc) by (field; assumption).
    rewrite E1, E0. ring.
Qed.

Lemma fit_depends_on_lambda_times_variance_witness :
  fit_shape_to_landmarks_linear_multi sample_model [sample_camera]
    [[(q 1 1, q 0 1)]] [[0]] [[]] (q 2 1) None (Some (q 1 1)) None
  = fit_shape_to_landmarks_linear_multi sample_model [sample_camera]
      [[(q 1 1, q 0 1)]] [[0]] [[]] (q 1 1) None (Some (q 1 1)) (Some (q 1 1)).
Proof.
  apply fit_depends_on_lambda_times_variance.
  - intros E. apply (f_equal this) in E. vm_compute in E. discriminate.
  - intros E. apply (f_equal this) in E. vm_compute in E. discriminate.
  - apply Qc_is_canon. vm_compute. reflexivity.
Defined.


(** ** Systems with a zero right-hand side *)

Section Homogeneous.

Local Open Scope Qc_scope.

Lemma find_pivot_homogeneous (sys : list equation) (p : equation)
    (others : list equation) :
  Forall (fun e => snd e = Q2Qc 0) sys ->
  find_pivot sys = Some (p, others) ->
  snd p = Q2Qc 0 /\ Forall (fun e => snd e = Q2Qc 0) others.
Proof.
  revert p others. induction sys as [|e sys IH]; intros p others H E.
  - discriminate.
  - cbn [find_pivot] in E. inversion H as [|? ? He Hsys]; subst.
    destruct (is_zero _).
    + destruct (find_pivot sys) as [[p' others']|]; [|discriminate].
      injection E as <- <-.
      destruct (IH p' others' Hsys eq_refl) as [Hp Ho].
      split; [assumption | constructor; assumption].
    + injection E as <- <-. split; assumption.
Qed.

(** The solver answers a system whose right-hand sides are all zero with
    the zero vector. *)
Lemma solve_homogeneous (n : nat) (sys : list equation) :
  Forall (fun e => snd e = Q2Qc 0) sys -> solve n sys = zeros n.
Proof.
  revert sys. induction n as [|n IH]; intros sys H; [reflexivity|].
  cbn [solve]. destruct (find_pivot sys) as [[p others]|] eqn:E.
  - destruct (find_pivot_homogeneous sys p others H E) as [Hp Ho].
    cbv zeta. rewrite IH.
    + rewrite Hp, dot_zeros_r.
      change (zeros (S n)) with (Q2Qc 0 :: zeros n). f_equal. field.
      apply find_pivot_Some in E. apply E.
    + apply Forall_map. revert Ho. apply Forall_impl.
      intros e He. unfold eliminate. cbn [snd]. rewrite He, Hp. ring.
  - rewrite IH; [reflexivity|].
    apply Forall_map. revert H. apply Forall_impl. intros e He. exact He.
Qed.

Lemma colPivHouseholderQr_solve_zero (n k : nat) (M : list (list Qc)) :
  colPivHouseholderQr_solve n M (zeros k) = zeros n.
Proof.
  unfold colPivHouseholderQr_solve. apply solve_homogeneous.
  apply Forall_forall. intros [row x] Hin. cbn [snd].
  apply in_combine_r in Hin. apply repeat_spec in Hin. exact Hin.
Qed.

(** A zero vector [b] gives a zero right-hand side. *)
Lemma normal_rhs_zero (m n : nat) (A : list (list Qc)) (w lam : Qc) :
  is_matrix m n A ->
  snd (normal_equations n A (zeros m) (constant m w) lam) = zeros n.
Proof.
  intros HA. apply (vec_ext n).
  - apply (length_normal_rhs m). exact HA.
  - apply length_zeros.
  - intros z Hz.
    rewrite (normal_rhs_form m n A (zeros m) w lam HA z (length_zeros m)).
    rewrite !dot_zeros_l. ring.
Qed.

End Homogeneous.


(** ** The returned vector as a minimiser *)

Section Optimality.

Local Open Scope Qc_scope.

Lemma norm2_vadd (u v : list Qc) :
  length u = length v ->
  norm2 (vadd u v) = dot u u + (dot u v + dot u v) + dot v v.
Proof.
  intros H. unfold norm2.
  rewrite dot_vadd_l, !dot_vadd_r by assumption.
  rewrite (dot_comm v u). ring.
Qed.

Lemma minimiser_scalars (w lam a11 a12 a22 n11 n12 n22 b1 b2 bb : Qc) :
  0 <= w -> 0 <= lam ->
  0 <= a11 - (a12 + a12) + a22 ->
  0 <= n11 - (n12 + n12) + n22 ->
  w * a11 + lam * n11 = - (w * b1) ->
  w * a12 + lam * n12 = - (w * b2) ->
  w * (a11 + (b1 + b1) + bb) + lam * n11
  <= w * (a22 + (b2 + b2) + bb) + lam * n22.
Proof.
  intros Hw Hl Ha Hn E1 E2. qc_to_q.
  set (W := this w) in *. set (L := this lam) in *.
  set (A11 := this a11) in *. set (A12 := this a12) in *.
  set (A22 := this a22) in *. set (N11 := this n11) in *.
  set (N12 := this n12) in *. set (N22 := this n22) in *.
  set (B1 := this b1) in *. set (B2 := this b2) in *. set (BB := this bb) in *.
  clearbody W L A11 A12 A22 N11 N12 N22 B1 B2 BB.
  assert (H1 : (0 <= W * (A11 - (A12 + A12) + A22))%Q)
    by (apply Qmult_le_0_compat; assumption).
  assert (H2 : (0 <= L * (N11 - (N12 + N12) + N22))%Q)
    by (apply Qmult_le_0_compat; assumption).
  lra.
Qed.

Lemma definite_scalars (w lam p r : Qc) :
  0 <= w -> 0 < lam -> 0 <= p -> 0 <= r -> w * p + lam * r = 0 -> r = 0.
Proof.
  intros Hw Hl Hp Hr E. qc_to_q.
  set (W := this w) in *. set (L := this lam) in *.
  set (P := this p) in *. set (R := this r) in *.
  clearbody W L P R.
  assert (H1 : (0 <= W * P)%Q) by (apply Qmult_le_0_compat; assumption).
  assert (H2 : (0 <= L * R)%Q) by (apply Qmult_le_0_compat; lra).
  assert (H3 : (L * R == 0)%Q) by lra.
  apply Qmult_integral in H3. destruct H3; lra.
Qed.

Variables (m n : nat) (A : list (list Qc)) (b : list Qc) (w lam : Qc).
Hypothesis HA : is_matrix m n A.
Hypothesis Hb : length b = m.

(** A solution of the normal equations has the least cost. *)
Lemma normal_solution_minimises (c c' : list Qc) :
  0 <= w -> 0 <= lam -> length c = n -> length c' = n ->
  mvmul (fst (normal_equations n A b (constant m w) lam)) c
  = snd (normal_equations n A b (constant m w) lam) ->
  regularised_cost A b w lam c <= regularised_cost A b w lam c'.
Proof.
  intros Hw Hl Hc Hc' E.
  pose proof (f_equal (fun v => dot v c) E) as E1.
  pose proof (f_equal (fun v => dot v c') E) as E2.
  cbv beta in *.
  rewrite (normal_form m n A b w lam HA) in E1, E2 by assumption.
  rewrite (normal_rhs_form m n A b w lam HA) in E1, E2 by assumption.
  assert (Hrows : forall x, length (mvmul A x) = length b).
  { intros x. rewrite length_mvmul. destruct HA as [HAl _]. congruence. }
  unfold regularised_cost. rewrite !norm2_vadd by apply Hrows.
  rewrite !(dot_comm (mvmul A _) b).
  pose proof (norm2_nonneg (vsub (mvmul A c) (mvmul A c'))) as Hp.
  pose proof (norm2_nonneg (vsub c c')) as Hn.
  rewrite norm2_vsub in Hp by (rewrite !length_mvmul; reflexivity).
  rewrite norm2_vsub in Hn by congruence.
  unfold norm2.
  exact (minimiser_scalars w lam _ _ _ _ _ _ _ _ _ Hw Hl Hp Hn E1 E2).
Qed.

(** With a positive regularisation weight the matrix of the normal
    equations maps only the zero vector to zero. *)
Lemma normal_matrix_definite (z : list Qc) :
  0 <= w -> 0 < lam -> length z = n ->
  mvmul (fst (normal_equations n A b (constant m w) lam)) z = zeros n ->
  z = zeros n.
Proof.
  intros Hw Hl Hz E.
  pose proof (f_equal (fun v => dot v z) E) as E1. cbv beta in E1.
  rewrite (normal_form m n A b w lam HA) in E1 by assumption.
  rewrite dot_zeros_l in E1.
  pose proof (definite_scalars w lam _ _ Hw Hl
                (norm2_nonneg (mvmul A z)) (norm2_nonneg z) E1) as H0.
  apply norm2_zero in H0. rewrite Hz in H0. exact H0.
Qed.

End Optimality.


Lemma mvmul_zeros (A : list (list Qc)) (n : nat) :
  mvmul A (zeros n) = zeros (length A).
Proof.
  unfold mvmul, zeros. induction A as [|row A IH]; [reflexivity|].
  cbn [map length repeat]. rewrite IH. f_equal. apply dot_zeros_r.
Qed.

Lemma vopp_zeros (n : nat) : vopp (zeros n) = zeros n.
Proof.
  unfold vopp, zeros. induction n as [|n IH]; [reflexivity|].
  cbn [repeat map]. rewrite IH. reflexivity.
Qed.

Lemma no_landmarks (cams : list Mat) (ls : list (list Vec2f))
    (ids : list (list nat)) (faces : list (list Qc)) :
  Forall (fun l => l = []) ls ->
  landmark_count (images_of cams ls ids faces) = 0.
Proof.
  intros H. revert cams ids faces.
  induction H as [|l ls -> _ IH]; intros [|cam cams] [|i ids] faces;
    try reflexivity.
  cbn [images_of]. rewrite landmark_count_cons. cbn [image_landmarks length].
  apply IH.
Qed.

(** The system that a call on a well-formed input solves has a zero
    right-hand side when [b] is zero, and the call returns zero. *)
Lemma fit_of_zero_b (mm : MorphableModel) (cams : list Mat)
    (ls : list (list Vec2f)) (ids : list (list nat)) (faces : list (list Qc))
    (lambda : Qc) (nco : option nat) (d m : option Qc) :
  input_ok mm cams ls ids faces nco ->
  b_spec mm (images_of cams ls ids faces)
  = zeros (3 * landmark_count (images_of cams ls ids faces)) ->
  fit_shape_to_landmarks_linear_multi mm cams ls ids faces lambda nco d m
  = Returned (zeros (num_coeffs mm nco)).
Proof.
  intros Hok Hb.
  rewrite (fit_of_input_ok mm cams ls ids faces lambda nco d m Hok).
  cbv zeta. f_equal. rewrite Hb.
  pose proof (A_spec_is_matrix mm _ (coefficients_in_model _ _ _ _ _ _ Hok)
                _ (images_ok _ _ _ _ _ _ Hok)) as HA.
  pose proof (normal_rhs_zero _ _ _
                (Q2Qc 1 / sigma_squared_2D d m)%Qc
                (lambda * of_nat (length cams))%Qc HA) as Hr.
  destruct (normal_equations _ _ _ _ _) as [M r]. cbn [snd] in Hr.
  rewrite Hr. apply colPivHouseholderQr_solve_zero.
Qed.

(** X2.  When every landmark is the projection, by an affine camera, of
    its vertex in the base face, the call returns the zero vector,
    whatever the regularisation parameter and the non-zero variance. *)
Theorem fit_of_base_face_projection_is_zero (mm : MorphableModel)
    (cams : list Mat) (ls : list (list Vec2f)) (ids : list (list nat))
    (faces : list (list Qc)) (lambda : Qc) (nco : option nat)
    (d m : option Qc) :
  input_ok mm cams ls ids faces nco ->
  sigma_squared_2D d m <> Q2Qc 0 ->
  Forall (fun img =>
            affine (camera img)
            /\ projects_exactly mm (num_coeffs mm nco)
                 (zeros (num_coeffs mm nco)) img)
         (images_of cams ls ids faces) ->
  fit_shape_to_landmarks_linear_multi mm cams ls ids faces lambda nco d m
  = Returned (zeros (num_coeffs mm nco)).
Proof.
  intros Hok Hsigma Hproj. apply fit_of_zero_b; [exact Hok|].
  pose proof (images_ok _ _ _ _ _ _ Hok) as Himgs.
  pose proof (coefficients_in_model _ _ _ _ _ _ Hok) as Hn.
  rewrite (spec_recovery mm _ _ _ Hn Himgs Hproj).
  rewrite mvmul_zeros, vopp_zeros.
  destruct (A_spec_is_matrix mm _ Hn _ Himgs) as [-> _]. reflexivity.
Qed.

Lemma fit_of_base_face_projection_is_zero_witness :
  fit_shape_to_landmarks_linear_multi sample_model [sample_camera]
    [[(q 0 1, q 0 1)]] [[0]] [[]] (q 5 1) None None None
  = Returned (zeros 1).
Proof.
  apply (fit_of_base_face_projection_is_zero sample_model [sample_camera]
           [[(q 0 1, q 0 1)]] [[0]] [[]] (q 5 1) None None None).
  - apply single_landmark_input_ok.
  - intros E. apply (f_equal this) in E. vm_compute in E. discriminate.
  - constructor; [|constructor]. split.
    + split; [split; reflexivity | reflexivity].
    + constructor; [|constructor].
      split; apply Qc_eqb_eq; vm_compute; reflexivity.
Defined.

(** X3.  When no image has a landmark (in particular when there is no
    image at all) the call returns the zero vector. *)
Theorem fit_without_landmarks_is_zero (mm : MorphableModel)
    (cams : list Mat) (ls : list (list Vec2f)) (ids : list (list nat))
    (faces : list (list Qc)) (lambda : Qc) (nco : option nat)
    (d m : option Qc) :
  input_ok mm cams ls ids faces nco ->
  Forall (fun l => l = []) ls ->
  fit_shape_to_landmarks_linear_multi mm cams ls ids faces lambda nco d m
  = Returned (zeros (num_coeffs mm nco)).
Proof.
  intros Hok Hls. apply fit_of_zero_b; [exact Hok|].
  pose proof (length_b_spec mm _ (images_ok _ _ _ _ _ _ Hok)) as Hb.
  rewrite (no_landmarks cams ls ids faces Hls) in *.
  destruct (b_spec mm _); [reflexivity | discriminate].
Qed.

Lemma fit_without_landmarks_is_zero_witness :
  fit_shape_to_landmarks_linear_multi sample_model [] [] [] [] (q 3 1)
    None None None
  = Returned (zeros 1)
  /\ fit_shape_to_landmarks_linear_multi sample_model [sample_camera] [[]]
       [[]] [[]] (q 3 1) None None None
     = Returned (zeros 1).
Proof.
  split.
  - apply (fit_without_landmarks_is_zero sample_model [] [] [] [] (q 3 1)
             None None None).
    + constructor; try reflexivity; constructor.
    + constructor.
  - apply (fit_without_landmarks_is_zero sample_model [sample_camera] [[]]
             [[]] [[]] (q 3 1) None None None).
    + constructor; try reflexivity.
      constructor; [|constructor].
      constructor; cbn; try reflexivity; try discriminate; constructor.
    + constructor; [reflexivity | constructor].
Defined.


Lemma lambda_times_images_nonneg (lambda : Qc) (k : nat) :
  (Q2Qc 0 <= lambda)%Qc -> (Q2Qc 0 <= lambda * of_nat k)%Qc.
Proof.
  intros Hl. pose proof (of_nat_nonneg k) as Hk.
  set (x := of_nat k) in *. clearbody x. qc_to_q. nra.
Qed.

Lemma lambda_times_images_pos (lambda : Qc) (k : nat) :
  (Q2Qc 0 < lambda)%Qc -> 1 <= k -> (Q2Qc 0 < lambda * of_nat k)%Qc.
Proof.
  intros Hl Hk. pose proof (of_nat_pos k Hk) as Hp.
  set (x := of_nat k) in *. clearbody x. qc_to_q. nra.
Qed.

(** X4.  On a well-formed input with a non-zero variance and a
    non-negative regularisation parameter, the returned vector has the
    least regularised cost [w |A c + b|^2 + lambda M |c|^2] among all
    coefficient vectors, [w] being one over the variance. *)
Theorem fit_minimises_regularised_cost (mm : MorphableModel)
    (cams : list Mat) (ls : list (list Vec2f)) (ids : list (list nat))
    (faces : list (list Qc)) (lambda : Qc) (nco : option nat)
    (d m : option Qc) :
  input_ok mm cams ls ids faces nco ->
  sigma_squared_2D d m <> Q2Qc 0 ->
  (Q2Qc 0 <= lambda)%Qc ->
  let imgs := images_of cams ls ids faces in
  let n := num_coeffs mm nco in
  let A := A_spec mm n imgs in
  let b := b_spec mm imgs in
  let w := (Q2Qc 1 / sigma_squared_2D d m)%Qc in
  let weight := (lambda * of_nat (length cams))%Qc in
  exists c,
    fit_shape_to_landmarks_linear_multi mm cams ls ids faces lambda nco d m
    = Returned c
    /\ length c = n
    /\ forall c', length c' = n ->
         (regularised_cost A b w weight c
          <= regularised_cost A b w weight c')%Qc.
Proof.
  intros Hok Hsigma Hlambda. cbv zeta.
  rewrite (fit_of_input_ok mm cams ls ids faces lambda nco d m Hok).
  cbv zeta.
  pose proof (images_ok _ _ _ _ _ _ Hok) as Himgs.
  pose proof (coefficients_in_model _ _ _ _ _ _ Hok) as Hn.
  set (imgs := images_of cams ls ids faces) in *.
  set (n := num_coeffs mm nco) in *.
  set (w := (Q2Qc 1 / sigma_squared_2D d m)%Qc).
  set (weight := (lambda * of_nat (length cams))%Qc).
  pose proof (A_spec_is_matrix mm n Hn imgs Himgs) as HA.
  pose proof (length_b_spec mm imgs Himgs) as Hb.
  set (A := A_spec mm n imgs) in *. set (b := b_spec mm imgs) in *.
  assert (Hw : (Q2Qc 0 <= w)%Qc) by apply Omega_weight_nonneg.
  assert (Hweight : (Q2Qc 0 <= weight)%Qc)
    by (apply lambda_times_images_nonneg; assumption).
  pose proof (normal_equations_solved _ n A b w HA Hb weight Hw Hweight) as Hs.
  pose proof (normal_solution_minimises _ n A b w weight HA Hb) as Hmin.
  destruct (normal_equations n A b
              (constant (3 * landmark_count imgs) w) weight) as [M r].
  cbn [fst snd] in *.
  exists (colPivHouseholderQr_solve n M r).
  split; [reflexivity|]. split; [apply length_colPivHouseholderQr_solve|].
  intros c' Hc'. apply Hmin; auto.
  apply length_colPivHouseholderQr_solve.
Qed.

Lemma fit_minimises_regularised_cost_witness :
  let imgs := images_of [sample_camera] [[(q 1 1, q 0 1)]] [[0]] [[]] in
  let A := A_spec sample_model 1 imgs in
  let b := b_spec sample_model imgs in
  let w := (Q2Qc 1 / sigma_squared_2D None None)%Qc in
  let weight := (q 1 1 * of_nat 1)%Qc in
  exists c,
    fit_shape_to_landmarks_linear_multi sample_model [sample_camera]
      [[(q 1 1, q 0 1)]] [[0]] [[]] (q 1 1) None None None
    = Returned c
    /\ length c = 1
    /\ forall c', length c' = 1 ->
         (regularised_cost A b w weight c
          <= regularised_cost A b w weight c')%Qc.
Proof.
  apply (fit_minimises_regularised_cost sample_model [sample_camera]
           [[(q 1 1, q 0 1)]] [[0]] [[]] (q 1 1) None None None).
  - apply single_landmark_input_ok.
  - intros E. apply (f_equal this) in E. vm_compute in E. discriminate.
  - vm_compute. discriminate.
Defined.

(** X5.  On a well-formed input with at least one image, a non-zero
    variance and a positive regularisation parameter, the normal
    equations have exactly one solution, and the call returns it. *)
Theorem fit_unique_with_regularisation (mm : MorphableModel)
    (cams : list Mat) (ls : list (list Vec2f)) (ids : list (list nat))
    (faces : list (list Qc)) (lambda : Qc) (nco : option nat)
    (d m : option Qc) :
  input_ok mm cams ls ids faces nco ->
  sigma_squared_2D d m <> Q2Qc 0 ->
  (Q2Qc 0 < lambda)%Qc ->
  1 <= length cams ->
  let imgs := images_of cams ls ids faces in
  let n := num_coeffs mm nco in
  let A := A_spec mm n imgs in
  let b := b_spec mm imgs in
  let Omega := Omega_spec (landmark_count imgs) d m in
  let weight := (lambda * of_nat (length cams))%Qc in
  exists c,
    fit_shape_to_landmarks_linear_multi mm cams ls ids faces lambda nco d m
    = Returned c
    /\ length c = n
    /\ solves_normal_equations n A Omega b weight c
    /\ forall c', length c' = n ->
         solves_normal_equations n A Omega b weight c' -> c' = c.
Proof.
  intros Hok Hsigma Hlambda Hcams. cbv zeta.
  rewrite (fit_of_input_ok mm cams ls ids faces lambda nco d m Hok).
  cbv zeta. unfold Omega_spec. rewrite variance_eq.
  pose proof (images_ok _ _ _ _ _ _ Hok) as Himgs.
  pose proof (coefficients_in_model _ _ _ _ _ _ Hok) as Hn.
  set (imgs := images_of cams ls ids faces) in *.
  set (n := num_coeffs mm nco) in *.
  set (w := (Q2Qc 1 / sigma_squared_2D d m)%Qc) in *.
  set (weight := (lambda * of_nat (length cams))%Qc) in *.
  pose proof (A_spec_is_matrix mm n Hn imgs Himgs) as HA.
  pose proof (length_b_spec mm imgs Himgs) as Hb.
  set (A := A_spec mm n imgs) in *. set (b := b_spec mm imgs) in *.
  destruct (spec_normal_equations _ n A b w weight HA Hb) as [EM Er].
  assert (Hw : (Q2Qc 0 <= w)%Qc) by apply Omega_weight_nonneg.
  assert (Hweight : (Q2Qc 0 < weight)%Qc)
    by (apply lambda_times_images_pos; assumption).
  assert (Hweight' : (Q2Qc 0 <= weight)%Qc) by (apply Qclt_le_weak; assumption).
  pose proof (normal_equations_solved _ n A b w HA Hb weight Hw Hweight') as Hs.
  pose proof (normal_matrix_is_matrix _ n A b w weight HA) as HM.
  pose proof (normal_matrix_definite _ n A b w weight HA) as Hdef.
  unfold solves_normal_equations. rewrite EM, Er.
  destruct (normal_equations n A b
              (constant (3 * landmark_count imgs) w) weight) as [M r].
  cbn [fst snd] in *.
  exists (colPivHouseholderQr_solve n M r).
  split; [reflexivity|]. split; [apply length_colPivHouseholderQr_solve|].
  split; [exact Hs|].
  intros c' Hc' Hs'.
  apply (solution_unique n n M);
    [ exact HM | exact Hc' | apply length_colPivHouseholderQr_solve
    | intros z Hz Hz0; apply Hdef; assumption | congruence ].
Qed.

Lemma fit_unique_with_regularisation_witness :
  let imgs := images_of [sample_camera] [[(q 1 1, q 0 1)]] [[0]] [[]] in
  let A := A_spec sample_model 1 imgs in
  let b := b_spec sample_model imgs in
  let Omega := Omega_spec (landmark_count imgs) None None in
  let weight := (q 1 1 * of_nat 1)%Qc in
  exists c,
    fit_shape_to_landmarks_linear_multi sample_model [sample_camera]
      [[(q 1 1, q 0 1)]] [[0]] [[]] (q 1 1) None None None
    = Returned c
    /\ length c = 1
    /\ solves_normal_equations 1 A Omega b weight c
    /\ forall c', length c' = 1 ->
         solves_normal_equations 1 A Omega b weight c' -> c' = c.
Proof.
  apply (fit_unique_with_regularisation sample_model [sample_camera]
           [[(q 1 1, q 0 1)]] [[0]] [[]] (q 1 1) None None None).
  - apply single_landmark_input_ok.
  - intros E. apply (f_equal this) in E. vm_compute in E. discriminate.
  - vm_compute. reflexivity.
  - cbn. lia.
Defined.


Lemma tradeoff_scalars (w l r1 r2 n1 n2 : Qc) :
  (Q2Qc 0 < w)%Qc -> (Q2Qc 0 <= l)%Qc -> (n2 <= n1)%Qc ->
  (w * r1 + l * n1 <= w * r2 + l * n2)%Qc -> (r1 <= r2)%Qc.
Proof.
  intros Hw Hl Hn H. qc_to_q.
  set (W := this w) in *. set (L := this l) in *.
  set (R1 := this r1) in *. set (R2 := this r2) in *.
  set (N1 := this n1) in *. set (N2 := this n2) in *.
  clearbody W L R1 R2 N1 N2.
  assert (H1 : (0 <= L * (N1 - N2))%Q)
    by (apply Qmult_le_0_compat; lra).
  assert (H2 : (0 <= W * (R2 - R1))%Q) by lra.
  destruct (Qlt_le_dec R2 R1) as [Hlt|Hle]; [|exact Hle].
  assert (H3 : (0 < W * (R1 - R2))%Q)
    by (apply Qmult_lt_0_compat; lra).
  lra.
Qed.

(** X6.  The price of regularisation: for one well-formed input and two
    regularisation parameters [0 <= lambda1 < lambda2], the vector returned
    with [lambda2] fits the landmarks no better than the one returned with
    [lambda1]: its squared residual [|A c + b|^2] is at least as large. *)
Theorem fit_residual_monotone (mm : MorphableModel) (cams : list Mat)
    (ls : list (list Vec2f)) (ids : list (list nat)) (faces : list (list Qc))
    (lambda1 lambda2 : Qc) (nco : option nat) (d m : option Qc)
    (c1 c2 : list Qc) :
  input_ok mm cams ls ids faces nco ->
  sigma_squared_2D d m <> Q2Qc 0 ->
  (Q2Qc 0 <= lambda1)%Qc -> (lambda1 < lambda2)%Qc ->
  fit_shape_to_landmarks_linear_multi mm cams ls ids faces lambda1 nco d m
  = Returned c1 ->
  fit_shape_to_landmarks_linear_multi mm cams ls ids faces lambda2 nco d m
  = Returned c2 ->
  let imgs := images_of cams ls ids faces in
  let A := A_spec mm (num_coeffs mm nco) imgs in
  let b := b_spec mm imgs in
  (norm2 (vadd (mvmul A c1) b) <= norm2 (vadd (mvmul A c2) b))%Qc.
Proof.
  intros Hok Hsigma H0 Hlt E1 E2. cbv zeta.
  rewrite (fit_of_input_ok mm cams ls ids faces lambda1 nco d m Hok) in E1.
  rewrite (fit_of_input_ok mm cams ls ids faces lambda2 nco d m Hok) in E2.
  cbv zeta in E1, E2. injection E1 as E1. injection E2 as E2.
  pose proof (images_ok _ _ _ _ _ _ Hok) as Himgs.
  pose proof (coefficients_in_model _ _ _ _ _ _ Hok) as Hn.
  set (imgs := images_of cams ls ids faces) in *.
  set (n := num_coeffs mm nco) in *.
  set (w := (Q2Qc 1 / sigma_squared_2D d m)%Qc) in *.
  pose proof (A_spec_is_matrix mm n Hn imgs Himgs) as HA.
  pose proof (length_b_spec mm imgs Himgs) as Hb.
  set (A := A_spec mm n imgs) in *. set (b := b_spec mm imgs) in *.
  set (k := 3 * landmark_count imgs) in *.
  assert (Hw : (Q2Qc 0 <= w)%Qc) by apply Omega_weight_nonneg.
  assert (Hw' : (Q2Qc 0 < w)%Qc).
  { pose proof (Omega_weight_nonzero d m Hsigma) as Hnz. fold w in Hnz.
    destruct (Qcle_lt_or_eq _ _ Hw) as [Hp|Hz]; [exact Hp|].
    exfalso. apply Hnz. symmetry. exact Hz. }
  destruct (length cams) as [|M] eqn:EM.
  - assert (Ew : forall l, (l * of_nat 0)%Qc = Q2Qc 0)
      by (intros l; change (of_nat 0) with (Q2Qc 0); ring).
    rewrite Ew in E1, E2. rewrite <- E1, <- E2. apply Qcle_refl.
  - set (K := of_nat (S M)) in *.
    assert (HK : (Q2Qc 0 < K)%Qc) by (apply of_nat_pos; lia).
    assert (Hl1 : (Q2Qc 0 <= lambda1 * K)%Qc)
      by (clearbody K; clear - H0 HK; qc_to_q; nra).
    assert (Hl12 : (lambda1 * K < lambda2 * K)%Qc)
      by (clearbody K; clear - Hlt HK; qc_to_q; nra).
    assert (Hl2 : (Q2Qc 0 <= lambda2 * K)%Qc)
      by (apply Qclt_le_weak; eapply Qcle_lt_trans; eassumption).
    pose proof (normal_equations_solved _ n A b w HA Hb _ Hw Hl1) as S1.
    pose proof (normal_equations_solved _ n A b w HA Hb _ Hw Hl2) as S2.
    subst c1 c2.
    apply (tradeoff_scalars w (lambda1 * K)%Qc _ _
             (norm2 (colPivHouseholderQr_solve n
                       (fst (normal_equations n A b (constant k w)
                               (lambda1 * K)%Qc))
                       (snd (normal_equations n A b (constant k w)
                               (lambda1 * K)%Qc))))
             (norm2 (colPivHouseholderQr_solve n
                       (fst (normal_equations n A b (constant k w)
                               (lambda2 * K)%Qc))
                       (snd (normal_equations n A b (constant k w)
                               (lambda2 * K)%Qc))))
             Hw' Hl1).
    + apply (ridge_monotone k n A b w HA (lambda1 * K)%Qc (lambda2 * K)%Qc);
        auto; apply length_colPivHouseholderQr_solve.
    + apply (normal_solution_minimises k n A b w (lambda1 * K)%Qc HA Hb);
        auto; apply length_colPivHouseholderQr_solve.
Qed.

Lemma fit_residual_monotone_witness :
  exists c1 c2,
    fit_shape_to_landmarks_linear_multi sample_model [sample_camera]
      [[(q 1 1, q 0 1)]] [[0]] [[]] (q 0 1) None None None
    = Returned c1
    /\ fit_shape_to_landmarks_linear_multi sample_model [sample_camera]
         [[(q 1 1, q 0 1)]] [[0]] [[]] (q 1 1) None None None
       = Returned c2
    /\ let imgs := images_of [sample_camera] [[(q 1 1, q 0 1)]] [[0]] [[]] in
       (norm2 (vadd (mvmul (A_spec sample_model 1 imgs) c1)
                    (b_spec sample_model imgs))
        <= norm2 (vadd (mvmul (A_spec sample_model 1 imgs) c2)
                       (b_spec sample_model imgs)))%Qc.
Proof.
  assert (H1 : { c1 | fit_shape_to_landmarks_linear_multi sample_model
                        [sample_camera] [[(q 1 1, q 0 1)]] [[0]] [[]]
                        (q 0 1) None None None = Returned c1 })
    by (eexists; vm_compute; reflexivity).
  assert (H2 : { c2 | fit_shape_to_landmarks_linear_multi sample_model
                        [sample_camera] [[(q 1 1, q 0 1)]] [[0]] [[]]
                        (q 1 1) None None None = Returned c2 })
    by (eexists; vm_compute; reflexivity).
  destruct H1 as [c1 E1]. destruct H2 as [c2 E2].
  exists c1, c2. split; [exact E1|]. split; [exact E2|].
  apply (fit_residual_monotone sample_model [sample_camera]
           [[(q 1 1, q 0 1)]] [[0]] [[]] (q 0 1) (q 1 1) None None None
           c1 c2).
  - apply single_landmark_input_ok.
  - intros E. apply (f_equal this) in E. vm_compute in E. discriminate.
  - vm_compute. discriminate.
  - vm_compute. reflexivity.
  - exact E1.
  - exact E2.
Defined.


(** ** The order of the images *)

Section RowOrder.

Local Open Scope Qc_scope.

Lemma combine_app_same {X Y : Type} (l1 l2 : list X) (r1 r2 : list Y) :
  length l1 = length r1 ->
  combine (l1 ++ l2) (r1 ++ r2) = combine l1 r1 ++ combine l2 r2.
Proof.
  revert r1. induction l1 as [|a l1 IH]; intros [|c r1] H; try discriminate.
  - reflexivity.
  - cbn [app combine]. rewrite IH by (injection H; auto). reflexivity.
Qed.

Lemma dot_map_Permutation {X : Type} (f g : X -> Qc) (l l' : list X) :
  Permutation l l' -> dot (map f l) (map g l) = dot (map f l') (map g l').
Proof.
  induction 1 as [|a l l' _ IH|a c l|l l' l'' _ IH1 _ IH2].
  - reflexivity.
  - cbn [map dot]. rewrite IH. reflexivity.
  - cbn [map dot]. ring.
  - congruence.
Qed.

(** The normal equations do not depend on the order of the rows of [A]
    and [b]. *)
Lemma normal_equations_rows_Permutation (m n : nat) (A A' : list (list Qc))
    (b b' : list Qc) (w lam : Qc) :
  is_matrix m n A -> is_matrix m n A' -> length b = m -> length b' = m ->
  Permutation (combine A b) (combine A' b') ->
  normal_equations n A b (constant m w) lam
  = normal_equations n A' b' (constant m w) lam.
Proof.
  intros HA HA' Hb Hb' Hperm.
  assert (EA : A = map fst (combine A b))
    by (symmetry; apply map_fst_combine; destruct HA; congruence).
  assert (EA' : A' = map fst (combine A' b'))
    by (symmetry; apply map_fst_combine; destruct HA'; congruence).
  assert (Eb : b = map snd (combine A b))
    by (symmetry; apply map_snd_combine; destruct HA; congruence).
  assert (Eb' : b' = map snd (combine A' b'))
    by (symmetry; apply map_snd_combine; destruct HA'; congruence).
  transitivity
    (fst (normal_equations n A b (constant m w) lam),
     snd (normal_equations n A b (constant m w) lam)); [reflexivity|].
  transitivity
    (fst (normal_equations n A' b' (constant m w) lam),
     snd (normal_equations n A' b' (constant m w) lam)); [|reflexivity].
  f_equal.
  - apply (mat_ext n n).
    + apply (normal_matrix_is_matrix m). exact HA.
    + apply (normal_matrix_is_matrix m). exact HA'.
    + intros x Hx. apply (vec_ext n).
      * rewrite length_mvmul.
        apply (normal_matrix_is_matrix m n A b w lam HA).
      * rewrite length_mvmul.
        apply (normal_matrix_is_matrix m n A' b' w lam HA').
      * intros z Hz.
        rewrite (normal_form m n A b w lam HA x z Hx).
        rewrite (normal_form m n A' b' w lam HA' x z Hx).
        f_equal. f_equal.
        rewrite EA, EA'. unfold mvmul. rewrite !map_map.
        apply dot_map_Permutation. exact Hperm.
  - apply (vec_ext n).
    + apply (length_normal_rhs m). exact HA.
    + apply (length_normal_rhs m). exact HA'.
    + intros z Hz.
      rewrite (normal_rhs_form m n A b w lam HA z Hb).
      rewrite (normal_rhs_form m n A' b' w lam HA' z Hb').
      f_equal. f_equal.
      rewrite Eb at 1. rewrite EA at 2. rewrite Eb' at 1. rewrite EA' at 2.
      unfold mvmul. rewrite !map_map.
      apply dot_map_Permutation. exact Hperm.
Qed.

End RowOrder.

Lemma length_A_spec_b_spec (mm : MorphableModel) (n : nat)
    (imgs : list image) :
  n <= get_num_principal_components (get_shape_model mm) ->
  Forall (image_ok mm) imgs ->
  length (A_spec mm n imgs) = length (b_spec mm imgs).
Proof.
  intros Hn Himgs. rewrite (length_b_spec mm imgs Himgs).
  apply (A_spec_is_matrix mm n Hn imgs Himgs).
Qed.

(** The rows of [A] and [b], image after image. *)
Lemma rows_of_images (mm : MorphableModel) (n : nat) (imgs : list image) :
  n <= get_num_principal_components (get_shape_model mm) ->
  Forall (image_ok mm) imgs ->
  combine (A_spec mm n imgs) (b_spec mm imgs)
  = flat_map (fun img => combine (A_spec mm n [img]) (b_spec mm [img])) imgs.
Proof.
  intros Hn Himgs. induction Himgs as [|img imgs Himg Himgs IH].
  - reflexivity.
  - rewrite (A_spec_cons mm n Hn img imgs Himg Himgs).
    rewrite (b_spec_cons mm img imgs Himg Himgs).
    rewrite combine_app_same.
    + cbn [flat_map]. rewrite IH. reflexivity.
    + apply length_A_spec_b_spec; [exact Hn|].
      constructor; [exact Himg | constructor].
Qed.

Lemma landmark_count_Permutation (imgs imgs' : list image) :
  Permutation imgs imgs' -> landmark_count imgs = landmark_count imgs'.
Proof.
  intros H. unfold landmark_count. apply Permutation_list_sum.
  apply Permutation_map. exact H.
Qed.

(** X7.  The order of the images does not matter: two well-formed inputs
    whose images (camera matrix, landmarks, vertex ids and base face
    together) are the same up to their order have the same result. *)
Theorem fit_image_order_irrelevant (mm : MorphableModel)
    (cams cams' : list Mat) (ls ls' : list (list Vec2f))
    (ids ids' : list (list nat)) (faces faces' : list (list Qc))
    (lambda : Qc) (nco : option nat) (d m : option Qc) :
  input_ok mm cams ls ids faces nco ->
  input_ok mm cams' ls' ids' faces' nco ->
  Permutation (images_of cams ls ids faces)
              (images_of cams' ls' ids' faces') ->
  fit_shape_to_landmarks_linear_multi mm cams ls ids faces lambda nco d m
  = fit_shape_to_landmarks_linear_multi mm cams' ls' ids' faces' lambda nco
      d m.
Proof.
  intros Hok Hok' Hperm.
  rewrite (fit_of_input_ok mm cams ls ids faces lambda nco d m Hok).
  rewrite (fit_of_input_ok mm cams' ls' ids' faces' lambda nco d m Hok').
  cbv zeta. f_equal.
  pose proof (images_ok _ _ _ _ _ _ Hok) as Himgs.
  pose proof (images_ok _ _ _ _ _ _ Hok') as Himgs'.
  pose proof (coefficients_in_model _ _ _ _ _ _ Hok) as Hn.
  assert (Elen : length cams = length cams').
  { rewrite <- (length_images_of cams ls ids faces
                  (same_cameras _ _ _ _ _ _ Hok)
                  (same_vertex_ids _ _ _ _ _ _ Hok)).
    rewrite <- (length_images_of cams' ls' ids' faces'
                  (same_cameras _ _ _ _ _ _ Hok')
                  (same_vertex_ids _ _ _ _ _ _ Hok')).
    apply Permutation_length. exact Hperm. }
  rewrite <- Elen.
  rewrite <- (landmark_count_Permutation _ _ Hperm).
  set (imgs := images_of cams ls ids faces) in *.
  set (imgs' := images_of cams' ls' ids' faces') in *.
  rewrite (normal_equations_rows_Permutation (3 * landmark_count imgs)
             (num_coeffs mm nco) (A_spec mm (num_coeffs mm nco) imgs)
             (A_spec mm (num_coeffs mm nco) imgs')
             (b_spec mm imgs) (b_spec mm imgs')).
  - reflexivity.
  - apply A_spec_is_matrix; assumption.
  - rewrite (landmark_count_Permutation _ _ Hperm).
    apply A_spec_is_matrix; assumption.
  - apply length_b_spec. assumption.
  - rewrite (landmark_count_Permutation _ _ Hperm).
    apply length_b_spec. assumption.
  - rewrite !rows_of_images by assumption.
    apply Permutation_flat_map. exact Hperm.
Qed.

Lemma two_images_input_ok (l1 l2 : Vec2f) :
  input_ok sample_model [sample_camera; sample_camera] [[l1]; [l2]]
    [[0]; [0]] [[]; []] None.
Proof.
  assert (H : forall l, image_ok sample_model
                          {| camera := sample_camera; image_landmarks := [l];
                             image_vertex_ids := [0];
                             image_base_face := Some [] |}).
  { intros l. constructor; cbn; try reflexivity; try discriminate.
    - repeat constructor.
    - constructor; [|constructor].
      unfold effective_base_face, base_face_or_mean. cbn. lia. }
  constructor; try reflexivity.
  cbn [images_of hd_error tl].
  constructor; [apply H|]. constructor; [apply H | constructor].
Qed.

Lemma fit_image_order_irrelevant_witness :
  fit_shape_to_landmarks_linear_multi sample_model
    [sample_camera; sample_camera] [[(q 1 1, q 0 1)]; [(q 2 1, q 0 1)]]
    [[0]; [0]] [[]; []] (q 1 1) None None None
  = fit_shape_to_landmarks_linear_multi sample_model
      [sample_camera; sample_camera] [[(q 2 1, q 0 1)]; [(q 1 1, q 0 1)]]
      [[0]; [0]] [[]; []] (q 1 1) None None None.
Proof.
  apply fit_image_order_irrelevant.
  - apply two_images_input_ok.
  - apply two_images_input_ok.
  - apply perm_swap.
Defined.


(** ** The order of the landmarks of an image *)

Section LandmarkOrder.

Variables (mm : MorphableModel) (n : nat).

Lemma image_rows_blockwise (C : Mat) (face : list Qc) (ls : list Vec2f)
    (ids : list nat) :
  is_3x4 C -> length ls = length ids ->
  combine
    (blockwise n (repeat C (length ls))
       (flat_map (fun id => basis_rows mm n id ++ [zeros n]) ids))
    (vsub (blockwise_vector (repeat C (length ls))
             (flat_map (fun id => [nth (id * 3) face (Q2Qc 0);
                                   nth (id * 3 + 1) face (Q2Qc 0);
                                   nth (id * 3 + 2) face (Q2Qc 0); Q2Qc 1])
                       ids))
          (flat_map (fun l => [fst l; snd l; Q2Qc 1]) ls))
  = flat_map (landmark_rows mm n C face) (combine ls ids).
Proof.
  intros HC. revert ids.
  induction ls as [|l ls IH]; intros [|id ids] Hlen; try discriminate;
    [reflexivity|].
  cbn [length repeat flat_map blockwise_vector blockwise combine].
  assert (E3 : length (basis_rows mm n id) = 3) by apply length_basis_rows.
  unfold landmark_rows at 1. cbn [fst snd].
  destruct (basis_rows mm n id) as [|B0 [|B1 [|B2 [|? ?]]]];
    try discriminate.
  cbn [app firstn skipn].
  change (fst l :: snd l :: Q2Qc 1
          :: flat_map (fun l0 : Vec2f => [fst l0; snd l0; Q2Qc 1]) ls)
    with ([fst l; snd l; Q2Qc 1]
          ++ flat_map (fun l0 : Vec2f => [fst l0; snd l0; Q2Qc 1]) ls).
  rewrite vsub_app, combine_app_same.
  - rewrite IH by (injection Hlen; auto). reflexivity.
  - unfold mmul, mvmul. rewrite length_vsub, !length_map.
    rewrite dense_3x4 by assumption. reflexivity.
  - unfold mvmul. rewrite length_map, dense_3x4 by assumption. reflexivity.
Qed.

Hypothesis Hn : n <= get_num_principal_components (get_shape_model mm).

(** The rows of [A] and [b] of one image, correspondence after
    correspondence. *)
Lemma rows_of_image (img : image) :
  image_ok mm img ->
  combine (A_spec mm n [img]) (b_spec mm [img])
  = flat_map (landmark_rows mm n (camera img) (effective_base_face mm img))
             (combine (image_landmarks img) (image_vertex_ids img)).
Proof.
  intros Hok.
  assert (Himgs : Forall (image_ok mm) [img])
    by (constructor; [exact Hok | constructor]).
  rewrite (A_spec_blockwise mm n Hn [img] Himgs).
  rewrite (b_spec_blockwise mm [img] Himgs).
  unfold cameras_per_landmark, V_hat_h_spec, v_bar_spec, y_spec.
  rewrite !flat_map_single.
  apply image_rows_blockwise.
  - split; [apply (camera_rows mm img Hok) | apply (camera_cols mm img Hok)].
  - apply (same_count mm img Hok).
Qed.

End LandmarkOrder.

Lemma length_combine_same {X Y : Type} (l : list X) (r : list Y) :
  length l = length r -> length (combine l r) = length l.
Proof. intros H. rewrite length_combine, <- H. apply Nat.min_id. Qed.

(** X8.  The order of the correspondences of an image does not matter:
    the single-image function returns the same for two lists of landmarks
    with their vertex ids that are the same up to their order. *)
Theorem fit_landmark_order_irrelevant (mm : MorphableModel) (cam : Mat)
    (l l' : list Vec2f) (ids ids' : list nat) (face : list Qc) (lambda : Qc)
    (nco : option nat) (d m : option Qc) :
  input_ok mm [cam] [l] [ids] [face] nco ->
  length l' = length ids' ->
  Permutation (combine l ids) (combine l' ids') ->
  fit_shape_to_landmarks_linear mm cam l ids face lambda nco d m
  = fit_shape_to_landmarks_linear mm cam l' ids' face lambda nco d m.
Proof.
  intros Hok Hlen' Hperm.
  pose proof (coefficients_in_model _ _ _ _ _ _ Hok) as Hn.
  pose proof (images_ok _ _ _ _ _ _ Hok) as Himgs.
  cbn [images_of hd_error tl] in Himgs.
  set (img := {| camera := cam; image_landmarks := l;
                 image_vertex_ids := ids;
                 image_base_face := Some face |}) in *.
  set (img' := {| camera := cam; image_landmarks := l';
                  image_vertex_ids := ids';
                  image_base_face := Some face |}).
  assert (Himg : image_ok mm img) by (inversion Himgs; assumption).
  pose proof (same_count mm img Himg) as Hlen. cbn [img image_landmarks
    image_vertex_ids] in Hlen.
  assert (Hids : Permutation ids ids').
  { rewrite <- (map_snd_combine l ids Hlen).
    rewrite <- (map_snd_combine l' ids' Hlen').
    apply Permutation_map. exact Hperm. }
  assert (Hl : length l = length l').
  { rewrite <- (length_combine_same l ids Hlen).
    rewrite <- (length_combine_same l' ids' Hlen').
    apply Permutation_length. exact Hperm. }
  assert (Himg' : image_ok mm img').
  { destruct Himg as [H1 H2 H3 H4 H5 H6]. constructor.
    - exact H1.
    - exact H2.
    - exact Hlen'.
    - exact H4.
    - cbn [img' image_vertex_ids]. cbn [img image_vertex_ids] in H5.
      exact (Permutation_Forall Hids H5).
    - cbn [img' image_vertex_ids].
      change (effective_base_face mm img')
        with (effective_base_face mm img).
      cbn [img image_vertex_ids] in H6.
      exact (Permutation_Forall Hids H6). }
  assert (Himgs' : Forall (image_ok mm) [img'])
    by (constructor; [exact Himg' | constructor]).
  assert (Hok' : input_ok mm [cam] [l'] [ids'] [face] nco)
    by (constructor; [reflexivity | reflexivity | exact Hn | exact Himgs']).
  unfold fit_shape_to_landmarks_linear. cbv zeta.
  rewrite (fit_of_input_ok mm _ _ _ _ lambda nco d m Hok).
  rewrite (fit_of_input_ok mm _ _ _ _ lambda nco d m Hok').
  cbv zeta. f_equal.
  change (images_of [cam] [l] [ids] [face]) with [img].
  change (images_of [cam] [l'] [ids'] [face]) with [img'].
  assert (Ecount : landmark_count [img'] = landmark_count [img]).
  { unfold landmark_count. cbn [map list_sum img img' image_landmarks].
    rewrite Hl. reflexivity. }
  rewrite Ecount.
  rewrite (normal_equations_rows_Permutation (3 * landmark_count [img])
             (num_coeffs mm nco) (A_spec mm (num_coeffs mm nco) [img])
             (A_spec mm (num_coeffs mm nco) [img'])
             (b_spec mm [img]) (b_spec mm [img'])).
  - reflexivity.
  - apply A_spec_is_matrix; assumption.
  - rewrite <- Ecount. apply A_spec_is_matrix; assumption.
  - apply length_b_spec. assumption.
  - rewrite <- Ecount. apply length_b_spec. assumption.
  - rewrite !rows_of_image by assumption.
    change (effective_base_face mm img') with (effective_base_face mm img).
    apply Permutation_flat_map. exact Hperm.
Qed.

Lemma two_vertex_input_ok (l1 l2 : Vec2f) (i1 i2 : nat) :
  i1 < 2 -> i2 < 2 ->
  input_ok two_vertex_model [sample_camera] [[l1; l2]] [[i1; i2]] [[]] None.
Proof.
  intros H1 H2. constructor; try reflexivity.
  constructor; [|constructor].
  constructor; cbn; try reflexivity; try discriminate.
  - constructor; [lia|]. constructor; [lia | constructor].
  - unfold effective_base_face, base_face_or_mean. cbn.
    constructor; [lia|]. constructor; [lia | constructor].
Qed.

Lemma fit_landmark_order_irrelevant_witness :
  fit_shape_to_landmarks_linear two_vertex_model sample_camera
    [(q 1 1, q 0 1); (q 3 1, q 0 1)] [0; 1] [] (q 1 1) None None None
  = fit_shape_to_landmarks_linear two_vertex_model sample_camera
      [(q 3 1, q 0 1); (q 1 1, q 0 1)] [1; 0] [] (q 1 1) None None None.
Proof.
  apply fit_landmark_order_irrelevant.
  - apply two_vertex_input_ok; lia.
  - reflexivity.
  - apply perm_swap.
Defined.


(** ** The inputs on which a call returns *)

Section InRange.

Variables (mm : MorphableModel) (n : nat).

Lemma fill_V_hat_h_inl (ids : list nat) :
  forall V r p,
  fill_V_hat_h mm n ids V r = inl p ->
  Forall (fun id =>
            3 * id + 3 <= rows (rescaled_pca_basis (get_shape_model mm))) ids
  /\ (ids <> [] -> n <= get_num_principal_components (get_shape_model mm)).
Proof.
  induction ids as [|id ids IH]; intros V r p H.
  - split; [constructor | intros E; contradiction].
  - cbn [fill_V_hat_h] in H.
    destruct (get_rescaled_pca_basis_at_point _ id) as [rows_|] eqn:Eb;
      [|discriminate].
    destruct (block rows_ _ n) as [blk|] eqn:Ek; [|discriminate].
    destruct (write_rows r blk V) as [V'|]; [|discriminate].
    destruct (IH _ _ _ H) as [Hids _].
    unfold get_rescaled_pca_basis_at_point in Eb.
    destruct (3 * id + 3 <=? _) eqn:El; [|discriminate].
    apply Nat.leb_le in El.
    unfold block in Ek.
    destruct (n <=? _) eqn:En; [|discriminate].
    apply Nat.leb_le in En.
    split; [constructor; assumption | intros _; exact En].
Qed.

Lemma copy_coordinate_inl (face : list Qc) (id index j : nat)
    (v v' : list Qc) :
  copy_coordinate face id index j v = inl v' -> id * 3 + j < length face.
Proof.
  unfold copy_coordinate.
  destruct (nth_error face (id * 3 + j)) eqn:E; [|discriminate].
  intros _. apply nth_error_Some. congruence.
Qed.

Lemma fill_v_bar_inl (face : list Qc) (ids : list nat) :
  forall v index p,
  fill_v_bar face ids v index = inl p ->
  Forall (fun id => id * 3 + 3 <= length face) ids.
Proof.
  induction ids as [|id ids IH]; intros v index p H; [constructor|].
  cbn [fill_v_bar] in H.
  destruct (copy_coordinate face id index 0 v) as [v1|]; [|discriminate].
  destruct (copy_coordinate face id index 1 v1) as [v2|]; [|discriminate].
  destruct (copy_coordinate face id index 2 v2) as [v3|] eqn:E;
    [|discriminate].
  apply copy_coordinate_inl in E.
  constructor; [lia | eapply IH; eassumption].
Qed.

Lemma image_iteration_inl (img : image) (st st' : assembly) :
  image_iteration mm n img st = inl st' ->
  reads_in_range mm img
  /\ (image_vertex_ids img <> [] ->
      n <= get_num_principal_components (get_shape_model mm)).
Proof.
  unfold image_iteration, reads_in_range.
  rewrite effective_base_face_eq.
  destruct (length (image_landmarks img) =? length (image_vertex_ids img))
    eqn:E; cbn [negb]; [|discriminate].
  apply Nat.eqb_eq in E.
  destruct (image_base_face img) as [face|]; [|discriminate].
  destruct (fill_V_hat_h mm n _ _ _) as [p|[f p]] eqn:EV; [|discriminate].
  destruct (fill_V_hat_h_inl _ _ _ _ EV) as [Hmodel Hn].
  cbv zeta.
  destruct (fill_y _ _ _) as [py|[f py]]; [|discriminate].
  destruct (fill_v_bar _ _ _ _) as [pv|[f pv]] eqn:Ev; [|discriminate].
  apply fill_v_bar_inl in Ev.
  intros _. split; [|exact Hn].
  split; [exact E|]. split; [discriminate|].
  apply Forall_forall. intros id Hin. split.
  - exact (proj1 (Forall_forall _ _) Hmodel id Hin).
  - exact (proj1 (Forall_forall _ _) Ev id Hin).
Qed.

Lemma image_loop_inl (imgs : list image) :
  forall st st',
  image_loop mm n imgs st = inl st' ->
  Forall (reads_in_range mm) imgs
  /\ (Exists (fun img => image_vertex_ids img <> []) imgs ->
      n <= get_num_principal_components (get_shape_model mm)).
Proof.
  induction imgs as [|img imgs IH]; intros st st' H.
  - split; [constructor | intros E; inversion E].
  - cbn [image_loop] in H.
    destruct (image_iteration mm n img st) as [st1|e] eqn:E; [|discriminate].
    destruct (image_iteration_inl _ _ _ E) as [Hr Hn].
    destruct (IH _ _ H) as [Hrs Hns].
    split; [constructor; assumption|].
    intros Hex. inversion Hex; subst; auto.
Qed.

End InRange.

(** A call returns only when its list arguments have equal lengths, every
    read of the loop is in range and, if there is a vertex id at all, no
    more coefficients are asked for than the model has. *)
Lemma fit_returns_only_in_range (mm : MorphableModel) (cams : list Mat)
    (ls : list (list Vec2f)) (ids : list (list nat)) (faces : list (list Qc))
    (lambda : Qc) (nco : option nat) (d m : option Qc) (c : list Qc) :
  fit_shape_to_landmarks_linear_multi mm cams ls ids faces lambda nco d m
  = Returned c ->
  length cams = length ls /\ length ls = length ids
  /\ Forall (reads_in_range mm) (images_of cams ls ids faces)
  /\ (Exists (fun img => image_vertex_ids img <> [])
             (images_of cams ls ids faces) ->
      num_coeffs mm nco <= get_num_principal_components (get_shape_model mm)).
Proof.
  unfold fit_shape_to_landmarks_linear_multi. fold (num_coeffs mm nco).
  destruct ((length cams =? length ls) && (length ls =? length ids)) eqn:E;
    cbn [negb]; [|discriminate].
  apply andb_true_iff in E. destruct E as [E1 E2].
  apply Nat.eqb_eq in E1. apply Nat.eqb_eq in E2.
  destruct (image_loop mm _ _ _) as [st|[f st]] eqn:El; [|discriminate].
  intros _. destruct (image_loop_inl _ _ _ _ _ El) as [Hr Hn].
  auto.
Qed.

Lemma cameras_of_images (cams : list Mat) :
  forall (ls : list (list Vec2f)) (ids : list (list nat))
         (faces : list (list Qc)) (P : Mat -> Prop),
  Forall P cams ->
  Forall (fun img => P (camera img)) (images_of cams ls ids faces).
Proof.
  induction cams as [|cam cams IH]; intros [|l ls] [|i ids] faces P H;
    try constructor.
  - inversion H; assumption.
  - apply IH. inversion H; assumption.
Qed.

(** X9.  With camera matrices of 3 rows and 4 columns and no more
    coefficients than the model has, the call returns a coefficient vector
    exactly on the inputs whose lists have equal lengths, whose images
    have as many vertex ids as landmarks and an entry of [base_face], and
    whose vertex ids all lie inside the basis and inside the base face. *)
Theorem fit_returns_iff_well_formed (mm : MorphableModel) (cams : list Mat)
    (ls : list (list Vec2f)) (ids : list (list nat)) (faces : list (list Qc))
    (lambda : Qc) (nco : option nat) (d m : option Qc) :
  Forall is_3x4 cams ->
  num_coeffs mm nco <= get_num_principal_components (get_shape_model mm) ->
  (exists c,
      fit_shape_to_landmarks_linear_multi mm cams ls ids faces lambda nco d m
      = Returned c)
  <-> (length cams = length ls /\ length ls = length ids
       /\ Forall (reads_in_range mm) (images_of cams ls ids faces)).
Proof.
  intros Hcams Hn. split.
  - intros [c Hc].
    destruct (fit_returns_only_in_range _ _ _ _ _ _ _ _ _ _ Hc)
      as (H1 & H2 & H3 & _).
    auto.
  - intros (H1 & H2 & H3).
    assert (Hok : input_ok mm cams ls ids faces nco).
    { constructor; try assumption.
      pose proof (cameras_of_images cams ls ids faces is_3x4 Hcams) as HC.
      apply Forall_forall. intros img Hin.
      destruct (proj1 (Forall_forall _ _) H3 img Hin) as (Hc & Hf & Hv).
      destruct (proj1 (Forall_forall _ _) HC img Hin) as [Hr Hco].
      constructor; try assumption.
      - revert Hv. apply Forall_impl. intros id [Ha _]. exact Ha.
      - revert Hv. apply Forall_impl. intros id [_ Hb]. exact Hb. }
    rewrite (fit_of_input_ok mm cams ls ids faces lambda nco d m Hok).
    eexists. reflexivity.
Qed.

Lemma fit_returns_iff_well_formed_witness :
  (exists c,
      fit_shape_to_landmarks_linear_multi sample_model [sample_camera]
        [[(q 1 1, q 0 1)]] [[7]] [[]] (q 1 1) None None None
      = Returned c)
  <-> (length [sample_camera] = length [[(q 1 1, q 0 1)]]
       /\ length [[(q 1 1, q 0 1)]] = length [[7]]
       /\ Forall (reads_in_range sample_model)
            (images_of [sample_camera] [[(q 1 1, q 0 1)]] [[7]] [[]])).
Proof.
  apply fit_returns_iff_well_formed.
  - constructor; [split; reflexivity | constructor].
  - cbn. lia.
Defined.

(** X10.  Asking for more coefficients than the model has principal
    components stops the call as soon as an image has a vertex id: no
    coefficient vector is returned. *)
Theorem fit_too_many_coefficients (mm : MorphableModel) (cams : list Mat)
    (ls : list (list Vec2f)) (ids : list (list nat)) (faces : list (list Qc))
    (lambda : Qc) (n : nat) (d m : option Qc) :
  get_num_principal_components (get_shape_model mm) < n ->
  Exists (fun img => image_vertex_ids img <> [])
         (images_of cams ls ids faces) ->
  result (fit_shape_to_landmarks_linear_multi mm cams ls ids faces lambda
            (Some n) d m)
  = None.
Proof.
  intros Hn Hex.
  destruct (fit_shape_to_landmarks_linear_multi mm cams ls ids faces lambda
              (Some n) d m) as [c|f st] eqn:E; [|reflexivity].
  destruct (fit_returns_only_in_range _ _ _ _ _ _ _ _ _ _ E)
    as (_ & _ & _ & H).
  specialize (H Hex). cbn [num_coeffs] in H. lia.
Qed.

Lemma fit_too_many_coefficients_witness :
  result (fit_shape_to_landmarks_linear_multi sample_model [sample_camera]
            [[(q 1 1, q 0 1)]] [[0]] [[]] (q 1 1) (Some 2) None None)
  = None.
Proof.
  apply fit_too_many_coefficients.
  - cbn. lia.
  - constructor. discriminate.
Defined.


(** ** The writes into the matrices *)

Section Writes.

Variables (mm : MorphableModel) (n total : nat).

Lemma length_basis_at_point (id : nat) (basis_rows_ : list (list Qc)) :
  get_rescaled_pca_basis_at_point (get_shape_model mm) id = Some basis_rows_ ->
  length basis_rows_ = 3.
Proof.
  unfold get_rescaled_pca_basis_at_point.
  destruct (_ <=? _); [|discriminate].
  intros H. injection H as <-. reflexivity.
Qed.

Lemma length_block (basis_rows_ blk : list (list Qc)) (K : nat) :
  block basis_rows_ K n = Some blk -> length blk = length basis_rows_.
Proof.
  unfold block. destruct (_ <=? _); [|discriminate].
  intros H. injection H as <-. apply length_map.
Qed.

Lemma fill_V_hat_h_writes (ids : list nat) :
  forall V done,
  length V = 4 * total -> done + length ids <= total ->
  match fill_V_hat_h mm n ids V (4 * done) with
  | inl (V', r') => length V' = 4 * total /\ r' = 4 * (done + length ids)
  | inr (f, _) => f <> out_of_range matrix_coefficient
  end.
Proof.
  induction ids as [|id ids IH]; intros V done HV Hle.
  - cbn [fill_V_hat_h length]. split; [exact HV | f_equal; lia].
  - cbn [fill_V_hat_h length] in *.
    destruct (get_rescaled_pca_basis_at_point _ id) as [rows_|] eqn:Eb;
      [|discriminate].
    destruct (block rows_ _ n) as [blk|] eqn:Ek; [|discriminate].
    assert (Hblk : length blk = 3).
    { rewrite (length_block _ _ _ Ek). exact (length_basis_at_point _ _ Eb). }
    destruct (write_rows (4 * done) blk V) as [V'|] eqn:Ew.
    + replace (4 * done + 4) with (4 * (S done)) by lia.
      specialize (IH V' (S done)).
      rewrite (length_write_rows _ _ _ _ Ew) in IH.
      specialize (IH HV ltac:(lia)).
      destruct (fill_V_hat_h mm n ids V' (4 * S done)) as [[V'' r'']|[f p]].
      * destruct IH as [H1 H2]. split; [exact H1 | rewrite H2; f_equal; lia].
      * exact IH.
    + exfalso. unfold write_rows in Ew.
      destruct (4 * done + length blk <=? length V) eqn:E; [discriminate|].
      apply Nat.leb_gt in E. lia.
Qed.

Lemma write_coeff_in_range (i : nat) (x : Qc) (v : list Qc) :
  i < length v -> exists v', write_coeff i x v = Some v'.
Proof.
  intros H. unfold write_coeff.
  apply Nat.ltb_lt in H. rewrite H. eexists. reflexivity.
Qed.

Lemma fill_y_writes (ls : list Vec2f) :
  forall yv done,
  length yv = 3 * total -> done + length ls <= total ->
  match fill_y ls yv done with
  | inl (y', i') => length y' = 3 * total /\ i' = done + length ls
  | inr (f, _) => f <> out_of_range matrix_coefficient
  end.
Proof.
  induction ls as [|l ls IH]; intros yv done Hy Hle.
  - cbn [fill_y length]. split; [exact Hy | lia].
  - cbn [fill_y length] in *.
    destruct (write_coeff_in_range (3 * done) (fst l) yv ltac:(lia))
      as [y1 E1].
    rewrite E1.
    pose proof (length_write_coeff _ _ _ _ E1) as H1.
    destruct (write_coeff_in_range (3 * done + 1) (snd l) y1 ltac:(lia))
      as [y2 E2].
    rewrite E2.
    pose proof (length_write_coeff _ _ _ _ E2) as H2.
    specialize (IH y2 (S done) ltac:(lia) ltac:(lia)).
    destruct (fill_y ls y2 (S done)) as [[y' i']|[f p]].
    + destruct IH as [Ha Hb]. split; [exact Ha | lia].
    + exact IH.
Qed.

Lemma copy_coordinate_writes (face : list Qc) (id index j : nat)
    (v : list Qc) :
  4 * index + j < length v ->
  match copy_coordinate face id index j v with
  | inl v' => length v' = length v
  | inr f => f <> out_of_range matrix_coefficient
  end.
Proof.
  intros H. unfold copy_coordinate.
  destruct (nth_error face (id * 3 + j)) as [x|]; [|discriminate].
  destruct (write_coeff_in_range (4 * index + j) x v H) as [v' E].
  rewrite E. exact (length_write_coeff _ _ _ _ E).
Qed.

Lemma fill_v_bar_writes (face : list Qc) (ids : list nat) :
  forall v done,
  length v = 4 * total -> done + length ids <= total ->
  match fill_v_bar face ids v done with
  | inl (v', i') => length v' = 4 * total /\ i' = done + length ids
  | inr (f, _) => f <> out_of_range matrix_coefficient
  end.
Proof.
  induction ids as [|id ids IH]; intros v done Hv Hle.
  - cbn [fill_v_bar length]. split; [exact Hv | lia].
  - cbn [fill_v_bar length] in *.
    pose proof (copy_coordinate_writes face id done 0 v ltac:(lia)) as H0.
    destruct (copy_coordinate face id done 0 v) as [v1|f]; [|exact H0].
    pose proof (copy_coordinate_writes face id done 1 v1 ltac:(lia)) as H1.
    destruct (copy_coordinate face id done 1 v1) as [v2|f]; [|exact H1].
    pose proof (copy_coordinate_writes face id done 2 v2 ltac:(lia)) as H2.
    destruct (copy_coordinate face id done 2 v2) as [v3|f]; [|exact H2].
    specialize (IH v3 (S done) ltac:(lia) ltac:(lia)).
    destruct (fill_v_bar face ids v3 (S done)) as [[v' i']|[f p]].
    + destruct IH as [Ha Hb]. split; [exact Ha | lia].
    + exact IH.
Qed.

Lemma image_iteration_writes (img : image) (st : assembly) (done : nat) :
  in_progress total done st ->
  done + length (image_landmarks img) <= total ->
  match image_iteration mm n img st with
  | inl st' => in_progress total (done + length (image_landmarks img)) st'
  | inr (f, _) => f <> out_of_range matrix_coefficient
  end.
Proof.
  intros (HVi & Hyi & Hvi & HV & Hy & Hv) Hle. unfold image_iteration.
  destruct (length (image_landmarks img) =? length (image_vertex_ids img))
    eqn:E; cbn [negb]; [|discriminate].
  apply Nat.eqb_eq in E.
  destruct (image_base_face img) as [face|]; [|discriminate].
  rewrite HVi.
  pose proof (fill_V_hat_h_writes (image_vertex_ids img) (V_hat_h st) done
                HV ltac:(lia)) as H1.
  destruct (fill_V_hat_h mm n _ _ _) as [[V' r']|[f p]]; [|exact H1].
  destruct H1 as [H1 H1']. cbv zeta.
  unfold set_V_hat_h, set_P, set_y, set_v_bar.
  cbn [V_hat_h V_hat_h_row_index P_coefficients P_index y y_index v_bar
       v_bar_index fst snd].
  rewrite Hyi.
  pose proof (fill_y_writes (image_landmarks img) (y st) done Hy Hle) as H2.
  destruct (fill_y _ _ _) as [[y' i']|[f p]]; [|exact H2].
  destruct H2 as [H2 H2'].
  cbn [V_hat_h V_hat_h_row_index P_coefficients P_index y y_index v_bar
       v_bar_index fst snd].
  rewrite Hvi.
  pose proof (fill_v_bar_writes (base_face_or_mean mm face)
                (image_vertex_ids img) (v_bar st) done Hv ltac:(lia)) as H3.
  destruct (fill_v_bar _ _ _ _) as [[v' j']|[f p]]; [|exact H3].
  destruct H3 as [H3 H3'].
  unfold in_progress.
  cbn [V_hat_h V_hat_h_row_index P_coefficients P_index y y_index v_bar
       v_bar_index fst snd].
  repeat split; try assumption; try lia.
Qed.

Lemma image_loop_writes (imgs : list image) :
  forall st done,
  in_progress total done st ->
  done + landmark_count imgs <= total ->
  match image_loop mm n imgs st with
  | inl _ => True
  | inr (f, _) => f <> out_of_range matrix_coefficient
  end.
Proof.
  induction imgs as [|img imgs IH]; intros st done Hst Hle.
  - exact I.
  - cbn [image_loop]. rewrite landmark_count_cons in Hle.
    pose proof (image_iteration_writes img st done Hst ltac:(lia)) as H.
    destruct (image_iteration mm n img st) as [st'|[f p]]; [|exact H].
    apply (IH st' (done + length (image_landmarks img)) H). lia.
Qed.

End Writes.

(** X12.  No call writes outside the matrices that it allocated: no
    write into [V_hat_h], [y] or [v_bar] is ever out of range, whatever
    the input. *)
Theorem fit_never_writes_out_of_range (mm : MorphableModel)
    (cams : list Mat) (ls : list (list Vec2f)) (ids : list (list nat))
    (faces : list (list Qc)) (lambda : Qc) (nco : option nat)
    (d m : option Qc) (st : option assembly) :
  fit_shape_to_landmarks_linear_multi mm cams ls ids faces lambda nco d m
  <> Aborted (out_of_range matrix_coefficient) st.
Proof.
  unfold fit_shape_to_landmarks_linear_multi. fold (num_coeffs mm nco).
  destruct ((length cams =? length ls) && (length ls =? length ids)) eqn:E;
    cbn [negb]; [|discriminate].
  apply andb_true_iff in E. destruct E as [E1 E2].
  apply Nat.eqb_eq in E1. apply Nat.eqb_eq in E2.
  pose proof (image_loop_writes mm (num_coeffs mm nco)
                (total_num_landmarks_dimension ls)
                (images_of cams ls ids faces)
                (allocate (num_coeffs mm nco)
                   (total_num_landmarks_dimension ls)) 0) as H.
  destruct (image_loop mm _ _ _) as [st'|[f st']].
  - destruct (setFromTriplets _ _ _); [|discriminate].
    destruct (normal_equations _ _ _ _ _). discriminate.
  - intros E. injection E as E _. apply H; [| |exact E].
    + unfold in_progress, allocate, mzeros.
      cbn [V_hat_h V_hat_h_row_index y y_index v_bar v_bar_index].
      rewrite !repeat_length, !length_ones. repeat split; lia.
    + rewrite (total_num_landmarks cams ls ids faces E1 E2). lia.
Qed.


(** ** The reads of [base_face] *)

Section BaseFaceReads.

Variables (mm : MorphableModel) (n : nat).







End BaseFaceReads.





(** ** Fitting fewer coefficients than the model has *)

Section Truncation.

Lemma nth_flat_map_uniform {X : Type} (f : X -> list Qc) (n : nat)
    (l : list X) (d0 : X) :
  (forall x, length (f x) = n) ->
  forall i y, i < length l -> y < n ->
  nth (i * n + y) (flat_map f l) (Q2Qc 0) = nth y (f (nth i l d0)) (Q2Qc 0).
Proof.
  intros Hf. induction l as [|a l IH]; intros i y Hi Hy.
  - cbn in Hi. lia.
  - cbn [flat_map]. destruct i as [|i].
    + cbn [Nat.mul Nat.add nth]. rewrite app_nth1 by (rewrite Hf; exact Hy).
      reflexivity.
    + rewrite app_nth2 by (rewrite Hf; cbn; lia).
      rewrite Hf. replace (S i * n + y - n) with (i * n + y) by (cbn; lia).
      cbn [nth]. apply IH; [cbn in Hi; lia | exact Hy].
Qed.

Lemma map_nth_seq_id (l : list Qc) :
  map (fun y => nth y l (Q2Qc 0)) (seq 0 (length l)) = l.
Proof.
  apply (nth_ext _ _ (Q2Qc 0) (Q2Qc 0)).
  - rewrite length_map, length_seq. reflexivity.
  - intros i Hi. rewrite length_map, length_seq in Hi.
    rewrite (nth_indep _ _ (nth 0 l (Q2Qc 0)))
      by (rewrite length_map, length_seq; exact Hi).
    rewrite (map_nth (fun y => nth y l (Q2Qc 0)) (seq 0 (length l)) 0 i).
    rewrite seq_nth by exact Hi. reflexivity.
Qed.

Variables (n : nat) (B : Mat).
Hypothesis Hn : n <= cols B.

Lemma length_firstn_Mat_row (x : nat) : length (firstn n (Mat_row B x)) = n.
Proof. rewrite length_firstn, length_Mat_row. apply Nat.min_l. exact Hn. Qed.

Lemma Mat_row_truncate (x : nat) :
  x < rows B -> Mat_row (truncate_basis n B) x = firstn n (Mat_row B x).
Proof.
  intros Hx. unfold Mat_row at 1, at_. cbn [truncate_basis cols data].
  rewrite <- (map_nth_seq_id (firstn n (Mat_row B x))) at 1.
  rewrite length_firstn_Mat_row.
  apply map_ext_in. intros y Hy. apply in_seq in Hy.
  rewrite (nth_flat_map_uniform _ n _ 0 length_firstn_Mat_row)
    by (rewrite ?length_seq; lia).
  rewrite seq_nth by exact Hx. reflexivity.
Qed.

End Truncation.

Section TruncatedModel.

Variables (mm : MorphableModel) (n : nat).
Hypothesis Hn : n <= get_num_principal_components (get_shape_model mm).

Lemma basis_at_point_truncate (id : nat) :
  get_rescaled_pca_basis_at_point (get_shape_model (truncate_model n mm)) id
  = option_map (map (firstn n))
      (get_rescaled_pca_basis_at_point (get_shape_model mm) id).
Proof.
  unfold get_rescaled_pca_basis_at_point, get_shape_model.
  cbn [truncate_model shape_model rescaled_pca_basis truncate_basis rows].
  destruct (3 * id + 3 <=? rows (rescaled_pca_basis (shape_model mm)))
    eqn:E; [|reflexivity].
  apply Nat.leb_le in E. cbn [option_map]. f_equal.
  rewrite map_map. apply map_ext_in. intros x Hx. apply in_seq in Hx.
  apply Mat_row_truncate; [exact Hn | lia].
Qed.

Lemma fill_V_hat_h_truncate (ids : list nat) :
  forall V r,
  fill_V_hat_h (truncate_model n mm) n ids V r = fill_V_hat_h mm n ids V r.
Proof.
  induction ids as [|id ids IH]; intros V r; [reflexivity|].
  cbn [fill_V_hat_h]. rewrite basis_at_point_truncate.
  destruct (get_rescaled_pca_basis_at_point (get_shape_model mm) id)
    as [rows_|]; [|reflexivity].
  cbn [option_map]. unfold block.
  change (get_num_principal_components (get_shape_model (truncate_model n mm)))
    with n.
  rewrite Nat.leb_refl. apply Nat.leb_le in Hn. rewrite Hn.
  rewrite map_map.
  rewrite (map_ext (fun x => firstn n (firstn n x)) (firstn n))
    by (intros x; rewrite firstn_firstn, Nat.min_id; reflexivity).
  destruct (write_rows r _ V); [apply IH | reflexivity].
Qed.

Lemma image_iteration_truncate (img : image) (st : assembly) :
  image_iteration (truncate_model n mm) n img st = image_iteration mm n img st.
Proof.
  unfold image_iteration. rewrite fill_V_hat_h_truncate. reflexivity.
Qed.

Lemma image_loop_truncate (imgs : list image) :
  forall st,
  image_loop (truncate_model n mm) n imgs st = image_loop mm n imgs st.
Proof.
  induction imgs as [|img imgs IH]; intros st; [reflexivity|].
  cbn [image_loop]. rewrite image_iteration_truncate.
  destruct (image_iteration mm n img st); [apply IH | reflexivity].
Qed.

End TruncatedModel.

(** X15.  Fitting the first [n] coefficients of a model is fitting all
    coefficients of the model cut to its first [n] principal components:
    the two calls have the same outcome. *)
Theorem fit_fewer_coefficients_is_truncated_model (mm : MorphableModel)
    (cams : list Mat) (ls : list (list Vec2f)) (ids : list (list nat))
    (faces : list (list Qc)) (lambda : Qc) (n : nat) (d m : option Qc) :
  n <= get_num_principal_components (get_shape_model mm) ->
  fit_shape_to_landmarks_linear_multi mm cams ls ids faces lambda (Some n) d m
  = fit_shape_to_landmarks_linear_multi (truncate_model n mm) cams ls ids
      faces lambda None d m.
Proof.
  intros Hn. unfold fit_shape_to_landmarks_linear_multi.
  change (get_num_principal_components (get_shape_model (truncate_model n mm)))
    with n.
  rewrite (image_loop_truncate mm n Hn). reflexivity.
Qed.

Lemma fit_fewer_coefficients_is_truncated_model_witness :
  fit_shape_to_landmarks_linear_multi ambiguous_model [sample_camera]
    [[(q 1 1, q 0 1)]] [[0]] [[]] (q 1 1) (Some 1) None None
  = fit_shape_to_landmarks_linear_multi (truncate_model 1 ambiguous_model)
      [sample_camera] [[(q 1 1, q 0 1)]] [[0]] [[]] (q 1 1) None None None.
Proof.
  apply fit_fewer_coefficients_is_truncated_model. cbn. lia.
Defined.


(** ** The triplets of [P] *)

Section Triplets.

Variables (mm : MorphableModel) (n total : nat).

Lemma camera_triplets_fit (cam : Mat) (index : nat) :
  rows cam <= 3 -> cols cam <= 4 -> index < total ->
  Forall (fun t => triplet_row t < 3 * total /\ triplet_col t < 4 * total)
         (camera_triplets cam index).
Proof.
  intros Hr Hc Hi. unfold camera_triplets. apply Forall_forall.
  intros t Hin. apply in_flat_map in Hin. destruct Hin as (x & Hx & Hin).
  apply in_map_iff in Hin. destruct Hin as (y0 & <- & Hy).
  apply in_seq in Hx. apply in_seq in Hy.
  unfold triplet_row, triplet_col. cbn [fst snd]. lia.
Qed.

Lemma fill_P_fit (cam : Mat) (count : nat) :
  forall coefficients index,
  rows cam <= 3 -> cols cam <= 4 -> index + count <= total ->
  Forall (fun t => triplet_row t < 3 * total /\ triplet_col t < 4 * total)
         coefficients ->
  snd (fill_P cam count coefficients index) = index + count
  /\ Forall (fun t => triplet_row t < 3 * total /\ triplet_col t < 4 * total)
            (fst (fill_P cam count coefficients index)).
Proof.
  induction count as [|count IH]; intros coefficients index Hr Hc Hle H.
  - cbn [fill_P fst snd]. split; [lia | exact H].
  - cbn [fill_P].
    destruct (IH (coefficients ++ camera_triplets cam index) (S index) Hr Hc
                ltac:(lia)) as [H1 H2].
    + apply Forall_app. split; [exact H|].
      apply camera_triplets_fit; [exact Hr | exact Hc | lia].
    + split; [rewrite H1; lia | exact H2].
Qed.

Lemma image_iteration_triplets (img : image) (st st' : assembly)
    (done : nat) :
  rows (camera img) <= 3 -> cols (camera img) <= 4 ->
  triplets_fit total done st ->
  done + length (image_landmarks img) <= total ->
  image_iteration mm n img st = inl st' ->
  triplets_fit total (done + length (image_landmarks img)) st'.
Proof.
  intros Hr Hc [Hi Hts] Hle. unfold image_iteration.
  destruct (negb _); [discriminate|].
  destruct (image_base_face img) as [face|]; [|discriminate].
  destruct (fill_V_hat_h mm n _ _ _) as [p|[f p]]; [|discriminate].
  cbv zeta.
  destruct (fill_y _ _ _) as [py|[f py]]; [|discriminate].
  destruct (fill_v_bar _ _ _ _) as [pv|[f pv]]; [|discriminate].
  intros E. injection E as <-.
  unfold triplets_fit, set_v_bar, set_y, set_P, set_V_hat_h.
  cbn [P_index P_coefficients].
  rewrite Hi.
  destruct (fill_P_fit (camera img) (length (image_landmarks img))
              (P_coefficients st) done Hr Hc Hle Hts) as [H1 H2].
  split; assumption.
Qed.

Lemma image_loop_triplets (imgs : list image) :
  forall st st' done,
  Forall (fun img => rows (camera img) <= 3 /\ cols (camera img) <= 4) imgs ->
  triplets_fit total done st ->
  done + landmark_count imgs <= total ->
  image_loop mm n imgs st = inl st' ->
  Forall (fun t => triplet_row t < 3 * total /\ triplet_col t < 4 * total)
         (P_coefficients st').
Proof.
  induction imgs as [|img imgs IH]; intros st st' done Hcams Hst Hle H.
  - cbn [image_loop] in H. injection H as <-. apply Hst.
  - cbn [image_loop] in H. rewrite landmark_count_cons in Hle.
    inversion Hcams as [|? ? [Hr Hc] Hcams']; subst.
    destruct (image_iteration mm n img st) as [st1|e] eqn:E; [|discriminate].
    apply (IH st1 st' (done + length (image_landmarks img)) Hcams');
      [|lia|exact H].
    apply (image_iteration_triplets img st st1 done Hr Hc Hst); [lia|exact E].
Qed.

Lemma fill_V_hat_h_no_triplet_fault (ids : list nat) :
  forall V r f p,
  fill_V_hat_h mm n ids V r = inr (f, p) ->
  f <> out_of_range triplet_position.
Proof.
  induction ids as [|id ids IH]; intros V r f p H; [discriminate|].
  cbn [fill_V_hat_h] in H.
  destruct (get_rescaled_pca_basis_at_point _ id) as [rows_|];
    [|injection H as <- _; discriminate].
  destruct (block rows_ _ n) as [blk|]; [|injection H as <- _; discriminate].
  destruct (write_rows r blk V) as [V'|];
    [|injection H as <- _; discriminate].
  eapply IH; eassumption.
Qed.

Lemma fill_y_no_triplet_fault (ls : list Vec2f) :
  forall yv i f p,
  fill_y ls yv i = inr (f, p) -> f <> out_of_range triplet_position.
Proof.
  induction ls as [|l ls IH]; intros yv i f p H; [discriminate|].
  cbn [fill_y] in H.
  destruct (write_coeff (3 * i) (fst l) yv) as [y1|];
    [|injection H as <- _; discriminate].
  destruct (write_coeff (3 * i + 1) (snd l) y1) as [y2|];
    [|injection H as <- _; discriminate].
  eapply IH; eassumption.
Qed.

Lemma copy_coordinate_no_triplet_fault (face : list Qc) (id index j : nat)
    (v : list Qc) (f : fault) :
  copy_coordinate face id index j v = inr f ->
  f <> out_of_range triplet_position.
Proof.
  unfold copy_coordinate.
  destruct (nth_error face (id * 3 + j)) as [x|];
    [|intros H; injection H as <-; discriminate].
  destruct (write_coeff (4 * index + j) x v);
    [discriminate | intros H; injection H as <-; discriminate].
Qed.

Lemma fill_v_bar_no_triplet_fault (face : list Qc) (ids : list nat) :
  forall v i f p,
  fill_v_bar face ids v i = inr (f, p) ->
  f <> out_of_range triplet_position.
Proof.
  induction ids as [|id ids IH]; intros v i f p H; [discriminate|].
  cbn [fill_v_bar] in H.
  destruct (copy_coordinate face id i 0 v) as [v1|f0] eqn:E0;
    [|injection H as <- _; eapply copy_coordinate_no_triplet_fault;
      eassumption].
  destruct (copy_coordinate face id i 1 v1) as [v2|f1] eqn:E1;
    [|injection H as <- _; eapply copy_coordinate_no_triplet_fault;
      eassumption].
  destruct (copy_coordinate face id i 2 v2) as [v3|f2] eqn:E2;
    [|injection H as <- _; eapply copy_coordinate_no_triplet_fault;
      eassumption].
  eapply IH; eassumption.
Qed.

Lemma image_iteration_no_triplet_fault (img : image) (st st' : assembly)
    (f : fault) :
  image_iteration mm n img st = inr (f, st') ->
  f <> out_of_range triplet_position.
Proof.
  unfold image_iteration.
  destruct (negb _); [intros H; injection H as <- _; discriminate|].
  destruct (image_base_face img) as [face|];
    [|intros H; injection H as <- _; discriminate].
  destruct (fill_V_hat_h mm n _ _ _) as [p|[f0 p]] eqn:EV.
  - cbv zeta.
    destruct (fill_y _ _ _) as [py|[f1 py]] eqn:Ey.
    + destruct (fill_v_bar _ _ _ _) as [pv|[f2 pv]] eqn:Ev; [discriminate|].
      intros H. injection H as <- _.
      exact (fill_v_bar_no_triplet_fault _ _ _ _ _ _ Ev).
    + intros H. injection H as <- _.
      exact (fill_y_no_triplet_fault _ _ _ _ _ Ey).
  - intros H. injection H as <- _.
    exact (fill_V_hat_h_no_triplet_fault _ _ _ _ _ EV).
Qed.

Lemma image_loop_no_triplet_fault (imgs : list image) :
  forall st st' f,
  image_loop mm n imgs st = inr (f, st') ->
  f <> out_of_range triplet_position.
Proof.
  induction imgs as [|img imgs IH]; intros st st' f H; [discriminate|].
  cbn [image_loop] in H.
  destruct (image_iteration mm n img st) as [st1|[f1 st1]] eqn:E.
  - eapply IH; eassumption.
  - injection H as <- _.
    eapply image_iteration_no_triplet_fault; eassumption.
Qed.

End Triplets.

(** X16.  With camera matrices of at most 3 rows and 4 columns, every
    triplet that the loop collects lies inside the sparse matrix [P]:
    [setFromTriplets] is never given a position out of range. *)
Theorem fit_triplets_in_range (mm : MorphableModel) (cams : list Mat)
    (ls : list (list Vec2f)) (ids : list (list nat)) (faces : list (list Qc))
    (lambda : Qc) (nco : option nat) (d m : option Qc)
    (st : option assembly) :
  Forall (fun C => rows C <= 3 /\ cols C <= 4) cams ->
  fit_shape_to_landmarks_linear_multi mm cams ls ids faces lambda nco d m
  <> Aborted (out_of_range triplet_position) st.
Proof.
  intros Hcams.
  unfold fit_shape_to_landmarks_linear_multi. fold (num_coeffs mm nco).
  destruct ((length cams =? length ls) && (length ls =? length ids)) eqn:E;
    cbn [negb]; [|discriminate].
  apply andb_true_iff in E. destruct E as [E1 E2].
  apply Nat.eqb_eq in E1. apply Nat.eqb_eq in E2.
  destruct (image_loop mm _ _ _) as [st'|[f st']] eqn:El.
  - pose proof (image_loop_triplets mm (num_coeffs mm nco)
                  (total_num_landmarks_dimension ls)
                  (images_of cams ls ids faces)
                  (allocate (num_coeffs mm nco)
                     (total_num_landmarks_dimension ls)) st' 0
                  (cameras_of_images cams ls ids faces
                     (fun C => rows C <= 3 /\ cols C <= 4) Hcams)) as H.
    unfold setFromTriplets.
    rewrite (proj2 (forallb_forall _ _)).
    + destruct (normal_equations _ _ _ _ _). discriminate.
    + intros t Hin.
      assert (Hfit : triplet_row t < 3 * total_num_landmarks_dimension ls
                     /\ triplet_col t < 4 * total_num_landmarks_dimension ls).
      { refine (proj1 (Forall_forall _ _) (H _ _ El) t Hin).
        - split; [reflexivity | constructor].
        - rewrite (total_num_landmarks cams ls ids faces E1 E2). lia. }
      destruct Hfit as [Ha Hb].
      apply Nat.ltb_lt in Ha. apply Nat.ltb_lt in Hb.
      rewrite Ha, Hb. reflexivity.
  - intros H. injection H as H _.
    exact (image_loop_no_triplet_fault _ _ _ _ _ _ El H).
Qed.

Lemma fit_triplets_in_range_witness :
  fit_shape_to_landmarks_linear_multi sample_model [sample_camera]
    [[(q 1 1, q 0 1)]] [[0]] [[]] (q 1 1) None None None
  <> Aborted (out_of_range triplet_position) None.
Proof.
  apply fit_triplets_in_range.
  constructor; [cbn; lia | constructor].
Defined.


Lemma images_of_surplus_base_faces (cams : list Mat) :
  forall (ls : list (list Vec2f)) (ids : list (list nat))
         (faces surplus : list (list Qc)),
  length cams <= length faces ->
  images_of cams ls ids (faces ++ surplus) = images_of cams ls ids faces.
Proof.
  induction cams as [|cam cams IH]; intros [|l ls] [|i ids] faces surplus H;
    try reflexivity.
  destruct faces as [|face faces]; [cbn in H; lia|].
  cbn [images_of app hd_error tl]. rewrite IH by (cbn in H; lia).
  reflexivity.
Qed.

(** X22.  Base faces beyond the number of images are not looked at: a
    call with further entries appended to [base_face] has the same
    outcome. *)
Theorem fit_ignores_surplus_base_faces (mm : MorphableModel)
    (cams : list Mat) (ls : list (list Vec2f)) (ids : list (list nat))
    (faces surplus : list (list Qc)) (lambda : Qc) (nco : option nat)
    (d m : option Qc) :
  length cams <= length faces ->
  fit_shape_to_landmarks_linear_multi mm cams ls ids (faces ++ surplus)
    lambda nco d m
  = fit_shape_to_landmarks_linear_multi mm cams ls ids faces lambda nco d m.
Proof.
  intros H. unfold fit_shape_to_landmarks_linear_multi.
  rewrite (images_of_surplus_base_faces cams ls ids faces surplus H).
  reflexivity.
Qed.

Lemma fit_ignores_surplus_base_faces_witness :
  fit_shape_to_landmarks_linear_multi sample_model [sample_camera]
    [[(q 1 1, q 0 1)]] [[0]] ([[]] ++ [[q 9 1]]) (q 1 1) None None None
  = fit_shape_to_landmarks_linear_multi sample_model [sample_camera]
      [[(q 1 1, q 0 1)]] [[0]] [[]] (q 1 1) None None None.
Proof.
  apply fit_ignores_surplus_base_faces. cbn. lia.
Defined.


(** ** The running indices *)

Section RunningIndices.

Variables (mm : MorphableModel) (n : nat).

Lemma fill_V_hat_h_index (ids : list nat) :
  forall V r V' r',
  fill_V_hat_h mm n ids V r = inl (V', r') -> r' = r + 4 * length ids.
Proof.
  induction ids as [|id ids IH]; intros V r V' r' H.
  - cbn [fill_V_hat_h] in H. injection H as _ <-. cbn. lia.
  - cbn [fill_V_hat_h] in H.
    destruct (get_rescaled_pca_basis_at_point _ id); [|discriminate].
    destruct (block _ _ n); [|discriminate].
    destruct (write_rows r _ V); [|discriminate].
    apply IH in H. cbn [length]. lia.
Qed.

Lemma fill_P_index (cam : Mat) (count : nat) :
  forall coefficients index,
  snd (fill_P cam count coefficients index) = index + count.
Proof.
  induction count as [|count IH]; intros coefficients index.
  - cbn. lia.
  - cbn [fill_P]. rewrite IH. lia.
Qed.

Lemma fill_y_index (ls : list Vec2f) :
  forall yv i y' i', fill_y ls yv i = inl (y', i') -> i' = i + length ls.
Proof.
  induction ls as [|l ls IH]; intros yv i y' i' H.
  - cbn [fill_y] in H. injection H as _ <-. cbn. lia.
  - cbn [fill_y] in H.
    destruct (write_coeff (3 * i) (fst l) yv); [|discriminate].
    destruct (write_coeff (3 * i + 1) (snd l) _); [|discriminate].
    apply IH in H. cbn [length]. lia.
Qed.

Lemma fill_v_bar_index (face : list Qc) (ids : list nat) :
  forall v i v' i',
  fill_v_bar face ids v i = inl (v', i') -> i' = i + length ids.
Proof.
  induction ids as [|id ids IH]; intros v i v' i' H.
  - cbn [fill_v_bar] in H. injection H as _ <-. cbn. lia.
  - cbn [fill_v_bar] in H.
    destruct (copy_coordinate face id i 0 v); [|discriminate].
    destruct (copy_coordinate face id i 1 _); [|discriminate].
    destruct (copy_coordinate face id i 2 _); [|discriminate].
    apply IH in H. cbn [length]. lia.
Qed.

Lemma image_iteration_indices (img : image) (st st' : assembly) :
  image_iteration mm n img st = inl st' ->
  V_hat_h_row_index st'
  = V_hat_h_row_index st + 4 * length (image_landmarks img)
  /\ P_index st' = P_index st + length (image_landmarks img)
  /\ y_index st' = y_index st + length (image_landmarks img)
  /\ v_bar_index st' = v_bar_index st + length (image_landmarks img).
Proof.
  unfold image_iteration.
  destruct (length (image_landmarks img) =? length (image_vertex_ids img))
    eqn:E; cbn [negb]; [|discriminate].
  apply Nat.eqb_eq in E.
  destruct (image_base_face img) as [face|]; [|discriminate].
  destruct (fill_V_hat_h mm n _ _ _) as [[V' r']|[f p]] eqn:EV;
    [|discriminate].
  apply fill_V_hat_h_index in EV. cbv zeta.
  destruct (fill_y _ _ _) as [[y' i']|[f py]] eqn:Ey; [|discriminate].
  apply fill_y_index in Ey.
  destruct (fill_v_bar _ _ _ _) as [[v' j']|[f pv]] eqn:Ev; [|discriminate].
  apply fill_v_bar_index in Ev.
  intros H. injection H as <-.
  unfold set_v_bar, set_y, set_P, set_V_hat_h in *.
  cbn [V_hat_h V_hat_h_row_index P_coefficients P_index y y_index v_bar
       v_bar_index fst snd] in *.
  rewrite fill_P_index. repeat split; lia.
Qed.

End RunningIndices.

(** X23.  The four running indices of the loop run alike, as the
    comments of lines 99 and 102 say: once the loop has visited the
    images, the indices of [P], [y] and [v_bar] all equal the number of
    landmarks visited, and the row index of [V_hat_h] is four times that
    number. *)
Theorem indices_run_alike (mm : MorphableModel) (n : nat)
    (imgs : list image) (st st' : assembly) :
  image_loop mm n imgs st = inl st' ->
  V_hat_h_row_index st' = V_hat_h_row_index st + 4 * landmark_count imgs
  /\ P_index st' = P_index st + landmark_count imgs
  /\ y_index st' = y_index st + landmark_count imgs
  /\ v_bar_index st' = v_bar_index st + landmark_count imgs.
Proof.
  revert st. induction imgs as [|img imgs IH]; intros st H.
  - cbn [image_loop] in H. injection H as <-.
    change (landmark_count []) with 0. repeat split; lia.
  - cbn [image_loop] in H.
    destruct (image_iteration mm n img st) as [st1|e] eqn:E; [|discriminate].
    destruct (image_iteration_indices mm n img st st1 E)
      as (H1 & H2 & H3 & H4).
    destruct (IH st1 H) as (G1 & G2 & G3 & G4).
    rewrite landmark_count_cons. repeat split; lia.
Qed.

Lemma indices_run_alike_witness :
  exists st',
    image_loop sample_model 1
      (images_of [sample_camera] [[(q 1 1, q 0 1)]] [[0]] [[]])
      (allocate 1 1)
    = inl st'
    /\ V_hat_h_row_index st' = 4 /\ P_index st' = 1
    /\ y_index st' = 1 /\ v_bar_index st' = 1.
Proof.
  eexists. split; [vm_compute; reflexivity|].
  apply (indices_run_alike sample_model 1
           (images_of [sample_camera] [[(q 1 1, q 0 1)]] [[0]] [[]])
           (allocate 1 1)).
  vm_compute. reflexivity.
Defined.


(** X24.  The default base face of the single-image function is the model
    mean, as its documentation says: a call with the empty base face has
    the same outcome as the call with the mean of the shape model. *)
Theorem fit_single_image_default_base_face_is_mean (mm : MorphableModel)
    (cam : Mat) (l : list Vec2f) (ids : list nat) (lambda : Qc)
    (nco : option nat) (d m : option Qc) :
  fit_shape_to_landmarks_linear mm cam l ids [] lambda nco d m
  = fit_shape_to_landmarks_linear mm cam l ids (get_mean (get_shape_model mm))
      lambda nco d m.
Proof.
  unfold fit_shape_to_landmarks_linear. cbv zeta.
  unfold fit_shape_to_landmarks_linear_multi.
  cbn [length Nat.eqb andb negb].
  assert (E : forall n st,
             image_loop mm n
               (images_of [cam] [l] [ids] [get_mean (get_shape_model mm)]) st
             = image_loop mm n (images_of [cam] [l] [ids] [[]]) st).
  { intros n st.
    rewrite <- (image_loop_with_mean mm n [cam] [l] [ids] [[]] st).
    reflexivity. }
  rewrite E. reflexivity.
Qed.


(* ================================================================= *)
(** * The Python bindings *)

Module PythonBindingsFacts.

Import PythonBindings.

(** ** Pickling *)

Lemma cast_to_python {py_object X : Type} (c : caster py_object X) (v : X) :
  lawful c -> cast c (to_python c v) = py_ok v.
Proof. intros H. unfold cast. rewrite H. reflexivity. Qed.

(** X17.  Pickling a mesh and reading the pickle back gives the mesh:
    [__setstate__] on the tuple of [__getstate__] restores each of the
    five members, provided pybind11's casts read back what its
    conversions write. *)
Theorem Mesh_pickle_round_trip (py_object vec4 vec3 vec2 : Type)
    (vertices_caster : caster py_object (list vec4))
    (colors_caster : caster py_object (list vec3))
    (texcoords_caster : caster py_object (list vec2))
    (triangles_caster : caster py_object (list (Z * Z * Z)))
    (p : Mesh vec4 vec3 vec2) :
  lawful vertices_caster -> lawful colors_caster ->
  lawful texcoords_caster -> lawful triangles_caster ->
  Mesh_setstate py_object vec4 vec3 vec2 vertices_caster colors_caster
    texcoords_caster triangles_caster
    (Mesh_getstate py_object vec4 vec3 vec2 vertices_caster colors_caster
       texcoords_caster triangles_caster p)
  = py_ok p.
Proof.
  intros Hv Hc Ht Hi. destruct p as [pv pc pt pi pj].
  unfold Mesh_setstate, Mesh_getstate, tuple_item.
  cbn [length Nat.eqb negb nth_error py_bind vertices colors texcoords
       tvi tci].
  rewrite (cast_to_python vertices_caster pv Hv). cbn [py_bind].
  rewrite (cast_to_python colors_caster pc Hc). cbn [py_bind].
  rewrite (cast_to_python texcoords_caster pt Ht). cbn [py_bind].
  rewrite (cast_to_python triangles_caster pi Hi). cbn [py_bind].
  rewrite (cast_to_python triangles_caster pj Hi). cbn [py_bind].
  reflexivity.
Qed.

Lemma sample_casters_lawful :
  lawful sample_int_caster /\ lawful sample_float_caster
  /\ lawful sample_tuple_caster /\ lawful sample_vectors_caster
  /\ lawful sample_triples_caster.
Proof. repeat split; intros v; reflexivity. Qed.

Lemma Mesh_pickle_round_trip_witness :
  let p := {| vertices := [[q 1 1; q 2 1; q 3 1; q 1 1]];
              colors := [[q 1 2; q 1 2; q 1 2]];
              texcoords := [[q 0 1; q 1 1]];
              tvi := [(0, 1, 2)%Z];
              tci := [(2, 1, 0)%Z] |} in
  Mesh_setstate sample_object (list Qc) (list Qc) (list Qc)
    sample_vectors_caster sample_vectors_caster sample_vectors_caster
    sample_triples_caster
    (Mesh_getstate sample_object (list Qc) (list Qc) (list Qc)
       sample_vectors_caster sample_vectors_caster sample_vectors_caster
       sample_triples_caster p)
  = py_ok p.
Proof.
  cbv zeta. apply Mesh_pickle_round_trip; apply sample_casters_lawful.
Defined.

(** X18.  Pickling rendering parameters and reading the pickle back
    gives the parameters: camera type, frustum, rotation, translation and
    screen size are all restored, provided pybind11's casts read back what
    its conversions write. *)
Theorem RenderingParameters_pickle_round_trip (py_object : Type)
    (int_caster : caster py_object Z) (float_caster : caster py_object Qc)
    (tuple_caster : caster py_object (list py_object))
    (p : RenderingParameters) :
  lawful int_caster -> lawful float_caster -> lawful tuple_caster ->
  RenderingParameters_setstate py_object int_caster float_caster tuple_caster
    (RenderingParameters_getstate py_object int_caster float_caster
       tuple_caster p)
  = py_ok p.
Proof.
  intros Hi Hf Ht.
  destruct p as [ct [fl fr fb ft] [rx ry rz rw] tx ty sw sh].
  unfold RenderingParameters_setstate, RenderingParameters_getstate,
    int_item, float_item, tuple_item, glm_quat.
  cbn [length Nat.eqb negb nth_error py_bind get_camera_type get_frustum
       get_rotation get_t_x get_t_y get_screen_width get_screen_height
       l r b t x y z w].
  rewrite !(cast_to_python int_caster _ Hi).
  rewrite !(cast_to_python tuple_caster _ Ht).
  cbn [py_bind nth_error].
  rewrite !(cast_to_python float_caster _ Hf).
  cbn [py_bind nth_error].
  destruct ct; reflexivity.
Qed.

Lemma RenderingParameters_pickle_round_trip_witness :
  let p := {| get_camera_type := Perspective;
              get_frustum := {| l := q (-1) 1; r := q 1 1;
                                b := q (-2) 1; t := q 2 1 |};
              get_rotation := {| x := q 0 1; y := q 0 1; z := q 0 1;
                                 w := q 1 1 |};
              get_t_x := q 3 1; get_t_y := q 4 1;
              get_screen_width := 640%Z; get_screen_height := 480%Z |} in
  RenderingParameters_setstate sample_object sample_int_caster
    sample_float_caster sample_tuple_caster
    (RenderingParameters_getstate sample_object sample_int_caster
       sample_float_caster sample_tuple_caster p)
  = py_ok p.
Proof.
  cbv zeta. apply RenderingParameters_pickle_round_trip;
    apply sample_casters_lawful.
Defined.

(** ** The fitting lambdas *)

Section Collections.

Import String.
Local Open Scope list_scope.

Lemma skipn_nth_error {X : Type} (v : list X) :
  forall i a, nth_error v i = Some a -> skipn i v = a :: skipn (S i) v.
Proof.
  induction v as [|c v IH]; intros [|i] a H; try discriminate.
  - injection H as ->. reflexivity.
  - cbn [nth_error] in H. cbn [skipn]. rewrite (IH i a H). reflexivity.
Qed.

Lemma push_back_landmarks_in_range (landmark_ids : list string)
    (landmarks : list Vec2f) :
  forall i coll,
  i + List.length landmarks <= List.length landmark_ids ->
  exists named,
    push_back_landmarks landmark_ids landmarks i coll = Some (coll ++ named)
    /\ map name named
       = firstn (List.length landmarks) (skipn i landmark_ids)
    /\ map coordinates named = landmarks.
Proof.
  induction landmarks as [|p landmarks IH]; intros i coll Hle.
  - exists []. rewrite app_nil_r. repeat split; reflexivity.
  - cbn [push_back_landmarks List.length] in *.
    destruct (nth_error landmark_ids i) as [id|] eqn:E.
    + destruct (IH (S i) (coll ++ [{| name := id;
                                      coordinates := (fst p, snd p) |}])
                  ltac:(lia)) as (named & H1 & H2 & H3).
      exists ({| name := id; coordinates := (fst p, snd p) |} :: named).
      rewrite H1, <- app_assoc. split; [reflexivity|].
      cbn [map name coordinates]. rewrite H2, H3. split.
      * rewrite (skipn_nth_error landmark_ids i id E). reflexivity.
      * destruct p; reflexivity.
    + apply nth_error_None in E. lia.
Qed.

Lemma push_back_landmarks_beyond (landmark_ids : list string)
    (landmarks : list Vec2f) :
  forall i coll,
  i <= List.length landmark_ids ->
  List.length landmark_ids < i + List.length landmarks ->
  push_back_landmarks landmark_ids landmarks i coll = None.
Proof.
  induction landmarks as [|p landmarks IH]; intros i coll Hi Hlt.
  - cbn [List.length] in Hlt. lia.
  - cbn [push_back_landmarks List.length] in *.
    destruct (nth_error landmark_ids i) as [id|] eqn:E; [|reflexivity].
    assert (i < List.length landmark_ids)
      by (apply nth_error_Some; congruence).
    apply IH; lia.
Qed.

Lemma push_back_landmarks_all (landmark_ids : list string)
    (landmarks : list Vec2f) :
  List.length landmarks = List.length landmark_ids ->
  exists named,
    push_back_landmarks landmark_ids landmarks 0 [] = Some named
    /\ map name named = landmark_ids
    /\ map coordinates named = landmarks.
Proof.
  intros H.
  destruct (push_back_landmarks_in_range landmark_ids landmarks 0 []
              ltac:(lia)) as (named & H1 & H2 & H3).
  exists named. split; [exact H1|]. split; [|exact H3].
  rewrite H2, H. cbn [skipn]. apply firstn_all.
Qed.

Lemma push_back_collections_all (landmark_ids : list string)
    (landmarkss : list (list Vec2f)) :
  forall colls,
  Forall (fun ls => List.length ls = List.length landmark_ids) landmarkss ->
  exists named,
    push_back_collections landmark_ids landmarkss colls
    = Some (colls ++ named)
    /\ Forall2 (fun ls coll => map name coll = landmark_ids
                               /\ map coordinates coll = ls)
               landmarkss named.
Proof.
  induction landmarkss as [|ls landmarkss IH]; intros colls H.
  - exists []. rewrite app_nil_r. split; [reflexivity | constructor].
  - inversion H as [|? ? Hls Hrest]; subst.
    cbn [push_back_collections].
    destruct (push_back_landmarks_all landmark_ids ls Hls)
      as (coll & -> & H1 & H2).
    destruct (IH (colls ++ [coll]) Hrest) as (named & -> & H3).
    exists (coll :: named). rewrite <- app_assoc. split; [reflexivity|].
    constructor; [split; assumption | exact H3].
Qed.

Lemma push_back_collections_beyond (landmark_ids : list string)
    (landmarkss : list (list Vec2f)) :
  forall colls,
  Exists (fun ls => List.length landmark_ids < List.length ls) landmarkss ->
  push_back_collections landmark_ids landmarkss colls = None.
Proof.
  induction landmarkss as [|ls landmarkss IH]; intros colls H.
  - inversion H.
  - cbn [push_back_collections]. inversion H as [? ? Hhd | ? ? Htl]; subst.
    + rewrite push_back_landmarks_beyond by lia. reflexivity.
    + destruct (push_back_landmarks landmark_ids ls 0 []);
        [apply IH; exact Htl | reflexivity].
Qed.

End Collections.

(** X19.  The lambda bound as [fit_pose] either stops at its assertion,
    when there are not as many landmark ids as landmarks, or calls the
    library with a collection that names every landmark, in order, by
    the landmark id at its position; it never reads [landmark_ids] out of
    range. *)
Theorem fit_pose_names_every_landmark
    (Blendshape LandmarkMapper Pose : Type)
    (fitting_fit_pose :
       MorphableModel -> list Blendshape -> list Landmark -> LandmarkMapper ->
       Z -> Z -> list Qc -> list Qc -> Pose)
    (morphable_model : MorphableModel) (landmarks : list Vec2f)
    (landmark_ids : list String.string) (landmark_mapper : LandmarkMapper)
    (image_width image_height : Z) (pca_shape_coefficients : list Qc)
    (blendshapes : list Blendshape) (blendshape_coefficients : list Qc) :
  (length landmarks <> length landmark_ids
   /\ fit_pose Blendshape LandmarkMapper Pose fitting_fit_pose
        morphable_model landmarks landmark_ids landmark_mapper image_width
        image_height pca_shape_coefficients blendshapes
        blendshape_coefficients
      = assertion_failure)
  \/ (exists landmark_collection,
         fit_pose Blendshape LandmarkMapper Pose fitting_fit_pose
           morphable_model landmarks landmark_ids landmark_mapper
           image_width image_height pca_shape_coefficients blendshapes
           blendshape_coefficients
         = returned (fitting_fit_pose morphable_model blendshapes
                       landmark_collection landmark_mapper image_width
                       image_height pca_shape_coefficients
                       blendshape_coefficients)
         /\ map name landmark_collection = landmark_ids
         /\ map coordinates landmark_collection = landmarks).
Proof.
  unfold fit_pose.
  destruct (length landmarks =? length landmark_ids) eqn:E; cbn [negb].
  - right. apply Nat.eqb_eq in E.
    destruct (push_back_landmarks_all landmark_ids landmarks E)
      as (coll & -> & H1 & H2).
    exists coll. repeat split; assumption.
  - left. apply Nat.eqb_neq in E. split; [exact E | reflexivity].
Qed.

(** X20.  The assertion of the lambda bound as [fit_shape_and_pose]
    compares the number of landmark ids with the landmarks of the first
    image only: when another image has more landmarks than there are ids,
    the lambda reads [landmark_ids] out of range and does not call the
    library. *)
Theorem fit_shape_and_pose_reads_ids_out_of_range
    (Blendshape LandmarkMapper EdgeTopology ContourLandmarks ModelContour
       Meshes Poses InitialPoses : Type)
    (fit_shape_and_pose_multi :
       MorphableModel -> list Blendshape -> list (list Landmark) ->
       LandmarkMapper -> list Z -> list Z -> EdgeTopology ->
       ContourLandmarks -> ModelContour -> Z -> option Z -> Qc ->
       option InitialPoses -> list Qc -> list (list Qc) ->
       list (list Vec2f) -> (Meshes * Poses) * list Qc * list (list Qc))
    (morphable_model : MorphableModel) (blendshapes : list Blendshape)
    (landmarkss : list (list Vec2f)) (landmark_ids : list String.string)
    (landmark_mapper : LandmarkMapper) (image_widths image_heights : list Z)
    (edge_topology : EdgeTopology) (contour_landmarks : ContourLandmarks)
    (model_contour : ModelContour)
    (num_iterations num_shape_coefficients_to_fit : Z) (lambda : Qc)
    (pca_shape_coefficients : list Qc)
    (blendshape_coefficients : list (list Qc)) :
  landmarkss <> [] ->
  length (hd [] landmarkss) = length landmark_ids ->
  Exists (fun ls => length landmark_ids < length ls) landmarkss ->
  fit_shape_and_pose Blendshape LandmarkMapper EdgeTopology ContourLandmarks
    ModelContour Meshes Poses InitialPoses fit_shape_and_pose_multi
    morphable_model blendshapes landmarkss landmark_ids landmark_mapper
    image_widths image_heights edge_topology contour_landmarks model_contour
    num_iterations num_shape_coefficients_to_fit lambda
    pca_shape_coefficients blendshape_coefficients
  = out_of_range_read.
Proof.
  intros Hne Hhd Hex. unfold fit_shape_and_pose.
  assert (E1 : (0 <? length landmarkss) = true).
  { apply Nat.ltb_lt. destruct landmarkss; [contradiction | cbn; lia]. }
  apply Nat.eqb_eq in Hhd. rewrite E1, Hhd. cbn [andb negb]. cbv zeta.
  rewrite push_back_collections_beyond by exact Hex. reflexivity.
Qed.

Lemma fit_shape_and_pose_reads_ids_out_of_range_witness :
  fit_shape_and_pose unit unit unit unit unit unit unit unit
    (fun _ _ _ _ _ _ _ _ _ _ _ _ _ pca bs _ => ((tt, tt), pca, bs))
    sample_model [] [[(q 1 1, q 0 1)]; [(q 1 1, q 0 1); (q 2 1, q 0 1)]]
    [String.EmptyString] tt [640%Z; 640%Z] [480%Z; 480%Z] tt tt tt 5%Z
    (-1)%Z (q 30 1) [] []
  = out_of_range_read.
Proof.
  apply fit_shape_and_pose_reads_ids_out_of_range.
  - discriminate.
  - reflexivity.
  - apply Exists_cons_tl. apply Exists_cons_hd. cbn. lia.
Defined.

(** X21.  When there is an image and every image has as many landmarks
    as there are landmark ids, the lambda bound as [fit_shape_and_pose]
    calls the library with one collection for each image, in which every
    landmark is named by the landmark id at its position, and hands back
    what the library returns together with the coefficients that the
    library has updated. *)
Theorem fit_shape_and_pose_names_every_landmark
    (Blendshape LandmarkMapper EdgeTopology ContourLandmarks ModelContour
       Meshes Poses InitialPoses : Type)
    (fit_shape_and_pose_multi :
       MorphableModel -> list Blendshape -> list (list Landmark) ->
       LandmarkMapper -> list Z -> list Z -> EdgeTopology ->
       ContourLandmarks -> ModelContour -> Z -> option Z -> Qc ->
       option InitialPoses -> list Qc -> list (list Qc) ->
       list (list Vec2f) -> (Meshes * Poses) * list Qc * list (list Qc))
    (morphable_model : MorphableModel) (blendshapes : list Blendshape)
    (landmarkss : list (list Vec2f)) (landmark_ids : list String.string)
    (landmark_mapper : LandmarkMapper) (image_widths image_heights : list Z)
    (edge_topology : EdgeTopology) (contour_landmarks : ContourLandmarks)
    (model_contour : ModelContour)
    (num_iterations num_shape_coefficients_to_fit : Z) (lambda : Qc)
    (pca_shape_coefficients : list Qc)
    (blendshape_coefficients : list (list Qc)) :
  landmarkss <> [] ->
  Forall (fun ls => length ls = length landmark_ids) landmarkss ->
  exists landmark_collections,
    Forall2 (fun ls coll => map name coll = landmark_ids
                            /\ map coordinates coll = ls)
            landmarkss landmark_collections
    /\ fit_shape_and_pose Blendshape LandmarkMapper EdgeTopology
         ContourLandmarks ModelContour Meshes Poses InitialPoses
         fit_shape_and_pose_multi morphable_model blendshapes landmarkss
         landmark_ids landmark_mapper image_widths image_heights
         edge_topology contour_landmarks model_contour num_iterations
         num_shape_coefficients_to_fit lambda pca_shape_coefficients
         blendshape_coefficients
       = returned
           (let '(result, pca', blendshape') :=
              fit_shape_and_pose_multi morphable_model blendshapes
                landmark_collections landmark_mapper image_widths
                image_heights edge_topology contour_landmarks model_contour
                num_iterations
                (if (num_shape_coefficients_to_fit =? -1)%Z then None
                 else Some num_shape_coefficients_to_fit)
                lambda None pca_shape_coefficients blendshape_coefficients
                [] in
            (fst result, snd result, pca', blendshape')).
Proof.
  intros Hne Hall. unfold fit_shape_and_pose.
  assert (E1 : (0 <? length landmarkss) = true).
  { apply Nat.ltb_lt. destruct landmarkss; [contradiction | cbn; lia]. }
  assert (E2 : (length (hd [] landmarkss) =? length landmark_ids) = true).
  { apply Nat.eqb_eq. destruct landmarkss; [contradiction|].
    inversion Hall; assumption. }
  rewrite E1, E2. cbn [andb negb]. cbv zeta.
  destruct (push_back_collections_all landmark_ids landmarkss [] Hall)
    as (colls & -> & H).
  exists colls. split; [exact H|]. cbn [app].
  destruct (fit_shape_and_pose_multi _ _ _ _ _ _ _ _ _ _ _ _ _ _ _ _)
    as [[result pca'] bs'].
  reflexivity.
Qed.

Lemma fit_shape_and_pose_names_every_landmark_witness :
  exists landmark_collections,
    Forall2 (fun ls coll => map name coll = [String.EmptyString]
                            /\ map coordinates coll = ls)
            [[(q 1 1, q 0 1)]; [(q 2 1, q 0 1)]] landmark_collections
    /\ fit_shape_and_pose unit unit unit unit unit unit unit unit
         (fun _ _ _ _ _ _ _ _ _ _ _ _ _ pca bs _ => ((tt, tt), pca, bs))
         sample_model [] [[(q 1 1, q 0 1)]; [(q 2 1, q 0 1)]]
         [String.EmptyString] tt [640%Z; 640%Z] [480%Z; 480%Z] tt tt tt 5%Z
         (-1)%Z (q 30 1) [] []
       = returned (tt, tt, [], []).
Proof.
  apply (fit_shape_and_pose_names_every_landmark unit unit unit unit unit
           unit unit unit
           (fun _ _ _ _ _ _ _ _ _ _ _ _ _ pca bs _ => ((tt, tt), pca, bs))).
  - discriminate.
  - constructor; [reflexivity|]. constructor; [reflexivity | constructor].
Defined.

End PythonBindingsFacts.
